(** * Git History Logbook: a shallow embedding of [git_history_logbook.py]

    The development follows the source file top to bottom: text
    primitives ([str.split], [str.strip]), the commit record, the line
    parser of [_get_commit_history], the effectful repository pipeline
    ([_temp_directory], [_cleanup_directory], [_process_repository],
    [export_history]), the tabular export ([save_to_csv]), the logbook
    ordering ([generate_logbook]) and the entry point ([main]). *)

From Stdlib Require Import List Ascii String Bool Arith ZArith Lia.
From Stdlib Require Import Permutation Sorted.
From Stdlib Require Import DecimalString DecimalN FinFun.
Import ListNotations.

Set Implicit Arguments.

(** ** Text

    Python [str] values are modelled as lists of 8-bit characters; the
    code-point order of [str] comparison is the order of [nat_of_ascii]. *)

Definition text := list ascii.

Definition txt (s : string) : text := list_ascii_of_string s.
Arguments txt s%_string : simpl never.

Definition text_eqb (a b : text) : bool :=
  if list_eq_dec ascii_dec a b then true else false.

(** [bool(s)] for a string: non-empty. *)
Definition truthy (s : text) : bool :=
  match s with [] => false | _ :: _ => true end.

Module Str.

Definition LF : ascii := ascii_of_nat 10.
Definition CR : ascii := ascii_of_nat 13.
Definition PIPE : ascii := ascii_of_nat 124.

(** [str.isspace] on one character, for code points below 256: the
    ASCII controls 9-13 and 28-31, the space, NEL (133) and NBSP (160). *)
Definition isspace (c : ascii) : bool :=
  let n := nat_of_ascii c in
  ((9 <=? n) && (n <=? 13)) || ((28 <=? n) && (n <=? 32))
  || (n =? 133) || (n =? 160).

Fixpoint lstrip (s : text) : text :=
  match s with
  | [] => []
  | c :: s' => if isspace c then lstrip s' else s
  end.

Definition rstrip (s : text) : text := rev (lstrip (rev s)).

(** [s.strip()] *)
Definition strip (s : text) : text := rstrip (lstrip s).

(** Prepend a character to the first field of a split in progress. *)
Definition cons_head (c : ascii) (fs : list text) : list text :=
  match fs with
  | [] => [[c]]
  | f :: fs' => (c :: f) :: fs'
  end.

(** [s.split(sep)] for a one-character separator. *)
Fixpoint split (sep : ascii) (s : text) : list text :=
  match s with
  | [] => [[]]
  | c :: s' =>
      if Ascii.eqb c sep then [] :: split sep s'
      else cons_head c (split sep s')
  end.

(** [s.split(sep, maxsplit)]: at most [maxsplit] cuts, the remainder
    of the string is the last field. *)
Fixpoint splitn (sep : ascii) (s : text) (maxsplit : nat) {struct s}
  : list text :=
  match s with
  | [] => [[]]
  | c :: s' =>
      match maxsplit with
      | 0 => [s]
      | S m =>
          if Ascii.eqb c sep then [] :: splitn sep s' m
          else cons_head c (splitn sep s' (S m))
      end
  end.

(** [sep.join(parts)] *)
Fixpoint join (sep : text) (parts : list text) : text :=
  match parts with
  | [] => []
  | [p] => p
  | p :: ps => p ++ sep ++ join sep ps
  end.

(** Append a character to the last field of a split. *)
Fixpoint snoc_last (c : ascii) (fs : list text) : list text :=
  match fs with
  | [] => [[c]]
  | [f] => [f ++ [c]]
  | f :: fs' => f :: snoc_last c fs'
  end.

(** Some character is not whitespace. *)
Definition nonblank (s : text) : bool :=
  existsb (fun c => negb (isspace c)) s.

(** Number of occurrences of a character. *)
Definition count (c : ascii) (s : text) : nat :=
  List.length (filter (Ascii.eqb c) s).

End Str.

(** ** Timestamps

    A naive [datetime]; comparison is that of the field tuple. *)

Record datetime := mkDatetime {
  year : nat; month : nat; day : nat;
  hour : nat; minute : nat; second : nat; microsecond : nat
}.

(** ** Commit records

    The dict built at lines 151-159, plus the key [parsed_date] that
    [generate_logbook] adds later ([None]: the key is absent). *)

Record commit := mkCommit {
  repository : text;
  project : text;
  hash : text;
  author_name : text;
  date : text;
  subject : text;
  body : text;
  parsed_date : option datetime
}.

(** ** The line parser of [_get_commit_history] (lines 138-164) *)

Module Extractor.

(** The dict of lines 151-159, built from the fields of a line. *)
Definition record_of (repo_name repo_project : text) (parts : list text)
  : commit :=
  {| repository := repo_name;
     project := repo_project;
     hash := nth 0 parts [];
     author_name := nth 1 parts [];
     date := nth 2 parts [];
     subject := nth 3 parts [];
     body := if 4 <? List.length parts then nth 4 parts [] else [];
     parsed_date := None |}.

(** One iteration of the [for line in lines] loop: [None] stands for
    [continue], [Some c] for [commits.append(c)]. *)
Definition parse_line (repo_name repo_project line : text) : option commit :=
  if negb (truthy (Str.strip line)) then None
  else
    let parts := Str.splitn Str.PIPE line 4 in
    if List.length parts <? 4 then None
    else Some (record_of repo_name repo_project parts).

(** [lines = result.stdout.strip().split('\n')] *)
Definition lines_of (stdout : text) : list text :=
  Str.split Str.LF (Str.strip stdout).

(** The loop, appending to [commits] as the code does. *)
Definition parse_commits (repo_name repo_project stdout : text)
  : list commit :=
  fold_left
    (fun commits line =>
       match parse_line repo_name repo_project line with
       | None => commits
       | Some c => commits ++ [c]
       end)
    (lines_of stdout) [].

(** A line survives when the split yields at least 4 fields. *)
Definition survives (line : text) : bool :=
  4 <=? List.length (Str.splitn Str.PIPE line 4).

(** A well-formed line of the log format: one physical line with at
    least 4 fields whose hash and subject fields are not blank. *)
Definition well_formed (line : text) : Prop :=
  ~ In Str.LF line
  /\ survives line = true
  /\ Str.nonblank (nth 0 (Str.splitn Str.PIPE line 4) []) = true
  /\ Str.nonblank (nth 3 (Str.splitn Str.PIPE line 4) []) = true.

(** Hash and subject of a line are not blank if the line survives. *)
Definition fields_present (line : text) : Prop :=
  survives line = true ->
  Str.nonblank (nth 0 (Str.splitn Str.PIPE line 4) []) = true
  /\ Str.nonblank (nth 3 (Str.splitn Str.PIPE line 4) []) = true.

End Extractor.

(** ** Orders

    [str] and [datetime] comparisons are both lexicographic: on the code
    points of a string, and on the field tuple of a timestamp. *)

Fixpoint lex_compare (a b : list nat) : comparison :=
  match a, b with
  | [], [] => Eq
  | [], _ :: _ => Lt
  | _ :: _, [] => Gt
  | x :: a', y :: b' =>
      match Nat.compare x y with
      | Eq => lex_compare a' b'
      | c => c
      end
  end.

Definition codes (s : text) : list nat := map nat_of_ascii s.

Definition dt_fields (d : datetime) : list nat :=
  [year d; month d; day d; hour d; minute d; second d; microsecond d].

(** [a <= b] on sort keys. *)
Definition lex_le (a b : list nat) : Prop := lex_compare a b <> Gt.

(** ** [list.sort(key=..., reverse=True)]

    Python's sort is stable, and with [reverse=True] equal keys keep
    their original relative order; the result of a stable sort is
    unique, so an insertion sort that respects it is the same function. *)

Section Sorting.
Variables (A : Type) (key : A -> list nat).

Fixpoint insert_desc (x : A) (l : list A) : list A :=
  match l with
  | [] => [x]
  | y :: l' =>
      match lex_compare (key x) (key y) with
      | Lt => y :: insert_desc x l'
      | _ => x :: y :: l'
      end
  end.

Definition sort_desc (l : list A) : list A := fold_right insert_desc [] l.

(** Descending by key: every element's key is at least that of every
    later element. *)
Definition sorted_desc (l : list A) : Prop :=
  StronglySorted (fun a b => lex_le (key b) (key a)) l.
End Sorting.

(** ** [datetime.strptime(s, '%Y-%m-%d %H:%M:%S')]

    The library call, modelled after CPython's [_strptime]: the format
    becomes a regular expression whose directives are the alternations
    below, a blank in the format matches a run of whitespace, the match
    must consume the whole string, and the [datetime] constructor
    rejects out-of-range fields.  A matcher lists the ways to match a
    prefix in the order the backtracking engine tries them. *)

Module Strptime.

Definition matcher (A : Type) := text -> list (A * text).

Definition ret {A} (a : A) : matcher A := fun s => [(a, s)].

Definition bind {A B} (p : matcher A) (f : A -> matcher B) : matcher B :=
  fun s => flat_map (fun ar => f (fst ar) (snd ar)) (p s).

Definition alt {A} (p q : matcher A) : matcher A := fun s => p s ++ q s.

Definition digit (c : ascii) : option nat :=
  let n := nat_of_ascii c in
  if (48 <=? n) && (n <=? 57) then Some (n - 48) else None.

(** One literal character. *)
Definition lit (c : ascii) : matcher unit :=
  fun s =>
    match s with
    | x :: r => if Ascii.eqb x c then [(tt, r)] else []
    | [] => []
    end.
Arguments lit c%_char.

(** One digit of the class [[lo-hi]]. *)
Definition dig (lo hi : nat) : matcher nat :=
  fun s =>
    match s with
    | x :: r =>
        match digit x with
        | Some n => if (lo <=? n) && (n <=? hi) then [(n, r)] else []
        | None => []
        end
    | [] => []
    end.

Definition two (p q : matcher nat) : matcher nat :=
  bind p (fun a => bind q (fun b => ret (10 * a + b))).

(** [\s+], greedy. *)
Fixpoint spaces (s : text) : list (unit * text) :=
  match s with
  | c :: r => if Str.isspace c then spaces r ++ [(tt, r)] else []
  | [] => []
  end.

(** [%Y]: [\d\d\d\d] *)
Definition dY : matcher nat :=
  bind (two (dig 0 9) (dig 0 9)) (fun hi =>
  bind (two (dig 0 9) (dig 0 9)) (fun lo => ret (100 * hi + lo))).

(** [%m]: [1[0-2]|0[1-9]|[1-9]] *)
Definition dm : matcher nat :=
  alt (two (dig 1 1) (dig 0 2)) (alt (two (dig 0 0) (dig 1 9)) (dig 1 9)).

(** [%d]: [3[0-1]|[1-2]\d|0[1-9]|[1-9]| [1-9]] *)
Definition dd : matcher nat :=
  alt (two (dig 3 3) (dig 0 1))
 (alt (two (dig 1 2) (dig 0 9))
 (alt (two (dig 0 0) (dig 1 9))
 (alt (dig 1 9)
      (bind (lit " ") (fun _ => dig 1 9))))).

(** [%H]: [2[0-3]|[0-1]\d|\d] *)
Definition dH : matcher nat :=
  alt (two (dig 2 2) (dig 0 3)) (alt (two (dig 0 1) (dig 0 9)) (dig 0 9)).

(** [%M]: [[0-5]\d|\d] *)
Definition dM : matcher nat := alt (two (dig 0 5) (dig 0 9)) (dig 0 9).

(** [%S]: [6[0-1]|[0-5]\d|\d] *)
Definition dS : matcher nat :=
  alt (two (dig 6 6) (dig 0 1)) (alt (two (dig 0 5) (dig 0 9)) (dig 0 9)).

Definition pattern : matcher datetime :=
  bind dY (fun y => bind (lit "-") (fun _ =>
  bind dm (fun mo => bind (lit "-") (fun _ =>
  bind dd (fun d => bind spaces (fun _ =>
  bind dH (fun h => bind (lit ":") (fun _ =>
  bind dM (fun mi => bind (lit ":") (fun _ =>
  bind dS (fun sec => ret (mkDatetime y mo d h mi sec 0)))))))))))).

Definition is_leap (y : nat) : bool :=
  ((y mod 4 =? 0) && negb (y mod 100 =? 0)) || (y mod 400 =? 0).

Definition days_in_month (y m : nat) : nat :=
  match m with
  | 2 => if is_leap y then 29 else 28
  | 4 | 6 | 9 | 11 => 30
  | _ => 31
  end.

(** The range checks of the [datetime] constructor. *)
Definition valid (d : datetime) : bool :=
  (1 <=? year d) && (year d <? 100 * 100)
  && (1 <=? month d) && (month d <=? 12)
  && (1 <=? day d) && (day d <=? days_in_month (year d) (month d))
  && (hour d <=? 23) && (minute d <=? 59) && (second d <=? 59).

(** [None] stands for the [ValueError] of a failed parse. *)
Definition strptime (s : text) : option datetime :=
  match pattern s with
  | [] => None
  | (d, rest) :: _ =>
      match rest with
      | [] => if valid d then Some d else None
      | _ :: _ => None
      end
  end.

End Strptime.

(** The engine's first way to match a prefix of [s] with [p] gives
    [a] and leaves [r]. *)
Definition heads {A} (p : Strptime.matcher A) (s : text) (a : A) (r : text)
  : Prop :=
  exists rest, p s = (a, r) :: rest.

(** The [try: strptime(commit['date'][:19], ...) except: now()] of
    lines 315-318 and 269-272. *)
Definition timestamp_of (now : datetime) (c : commit) : datetime :=
  match Strptime.strptime (firstn 19 (date c)) with
  | Some d => d
  | None => now
  end.

(** ** Paths ([posixpath]) *)

Module Path.

Definition SEP : ascii := ascii_of_nat 47.

Definition startswith_sep (p : text) : bool :=
  match p with
  | c :: _ => Ascii.eqb c SEP
  | [] => false
  end.

Definition endswith_sep (p : text) : bool := startswith_sep (rev p).

(** [os.path.join(a, b)] *)
Definition join (a b : text) : text :=
  if startswith_sep b then b
  else if negb (truthy a) || endswith_sep a then a ++ b
  else a ++ SEP :: b.

(** [os.path.basename(p)] *)
Definition basename (p : text) : text := last (Str.split SEP p) [].

Fixpoint is_prefix (a b : text) : bool :=
  match a, b with
  | [], _ => true
  | x :: a', y :: b' => Ascii.eqb x y && is_prefix a' b'
  | _ :: _, [] => false
  end.

(** [p] is [dir] or lies below it. *)
Definition under (dir p : text) : bool :=
  text_eqb p dir || is_prefix (dir ++ [SEP]) p.

End Path.

(** ** Exceptions, processes, events

    [exception] lists instances of the class [Exception], which is what
    the library calls of the program raise; [KeyboardInterrupt] is not
    an [Exception] and reaches only the main thread. *)

Inductive exception :=
| TimeoutExpired
| PermissionError
| FileExistsError
| FileNotFoundError
| OSError
| ValueError
| KeyError
| OtherException (tag : nat).

Inductive raised :=
| Exc (e : exception)
| KeyboardInterrupt.

Definition is_PermissionError (e : exception) : bool :=
  match e with PermissionError => true | _ => false end.

Definition is_TimeoutExpired (e : exception) : bool :=
  match e with TimeoutExpired => true | _ => false end.

(** What [subprocess.run] does: it returns a [CompletedProcess] or it
    raises ([TimeoutExpired] when the [timeout] passes). *)
Inductive process :=
| Completed (returncode : Z) (stdout stderr : text)
| RunRaises (e : exception).

Inductive level := LInfo | LWarning | LError.

(** The messages of the [logger] calls, one constructor per call site. *)
Inductive logmsg :=
| MsgConfigError (e : exception)
| MsgCreatedTemp (dir : text)
| MsgCleaned (base : text)
| MsgCleanedWindows (base : text)
| MsgCouldNotCleanUp (base : text) (e : exception)
| MsgErrorCleaningUp (base : text) (e : exception)
| MsgGitLogFailed (repo err : text)
| MsgExtracted (n : nat) (repo : text)
| MsgLogTimeout (repo : text)
| MsgLogError (repo : text) (e : exception)
| MsgNoUrl (repo : text)
| MsgProcessing (repo : text)
| MsgCloneFailed (url err : text)
| MsgCloned (url path : text)
| MsgErrorProcessing (repo : text) (e : exception)
| MsgFiltered (before after : nat)
| MsgNoFiltering (n : nat)
| MsgNoCommitsToSave
| MsgExported (n : nat) (file : text)
| MsgNoCommitsForLogbook
| MsgCleaningUp (n : nat)
| MsgUnexpected (e : exception).

(** What a written file holds: the table text for the CSV export, and
    for the two logbooks the record sequence handed to the renderer
    (the templates are presentation and are not modelled). *)
Inductive document :=
| CsvTable (content : text)
| MarkdownLog (commits : list commit)
| HtmlLog (commits : list commit).

Inductive event :=
| EvLog (lvl : level) (m : logmsg)
| EvMakedirs (dir : text)
| EvRmtree (dir : text)
| EvRun (argv : list text) (cwd : option text) (shell : bool)
| EvWrote (path : text) (doc : document).

(** ** Configuration and arguments *)

Module RepoInfo.
(** A repository descriptor; [None] is a missing key. *)
Record t := mk {
  name : option text;
  url : option text;
  project : option text
}.
End RepoInfo.

(** The [filters] keyword arguments; [None] is a missing key. *)
Record filters := mkFilters {
  since : option text;
  until : option text;
  author : option text;
  branch : option text;
  parallel_workers : option Z
}.

Record config := mkConfig {
  repositories : option (list RepoInfo.t);
  selected_authors : option (list text);
  default_filters : option filters
}.

(** [{}] *)
Definition empty_config : config := mkConfig None None None.

(** ** The world

    [fs] is the set of existing paths, [temp_dirs] the attribute
    [self.temp_dirs], [trace] the effects so far, oldest first. *)

Record world := mkWorld {
  fs : list text;
  temp_dirs : list text;
  trace : list event
}.

(** The environment answers every call that leaves the program; each
    answer may depend on all that happened before. *)
Record env := mkEnv {
  getcwd : text;
  time_ms : world -> N;
  clock_now : world -> nat -> datetime;
  makedirs_error : world -> text -> option exception;
  rmtree_error : world -> text -> option exception;
  run_process : world -> list text -> option text -> bool -> process;
  write_error : world -> text -> option exception;
  load_json : world -> text -> exception + config;
  completion : list RepoInfo.t -> list RepoInfo.t;
  sigint : world -> nat -> bool
}.

(** ** The effect monad: state, environment and exceptions *)

Inductive result (A : Type) :=
| Ok (a : A)
| Raise (r : raised).
Arguments Ok {A} a.
Arguments Raise {A} r.

Definition M (A : Type) : Type := env -> world -> result A * world.

Definition ret {A} (a : A) : M A := fun _ w => (Ok a, w).

Definition bind {A B} (m : M A) (k : A -> M B) : M B :=
  fun E w =>
    match m E w with
    | (Ok a, w') => k a E w'
    | (Raise r, w') => (Raise r, w')
    end.

Declare Scope eff_scope.
Delimit Scope eff_scope with eff.
Notation "x <- m ;; k" := (bind m (fun x => k))
  (at level 61, m at next level, right associativity) : eff_scope.
Notation "m ;; k" := (bind m (fun _ => k))
  (at level 61, right associativity) : eff_scope.
Local Open Scope eff_scope.

Definition raise {A} (r : raised) : M A := fun _ w => (Raise r, w).

Definition get_world : M world := fun _ w => (Ok w, w).

Definition ask : M env := fun E w => (Ok E, w).

Definition emit (ev : event) : M unit :=
  fun _ w => (Ok tt, mkWorld (fs w) (temp_dirs w) (trace w ++ [ev])).

Definition log (lvl : level) (m : logmsg) : M unit := emit (EvLog lvl m).

(** [try: m except <class> as e: h e]; the handler answers [None] for
    an exception no clause matches.  A [KeyboardInterrupt] passes
    through every [except Exception]. *)
Definition try_except {A} (m : M A) (h : exception -> option (M A)) : M A :=
  fun E w =>
    match m E w with
    | (Raise (Exc e), w') =>
        match h e with
        | Some k => k E w'
        | None => (Raise (Exc e), w')
        end
    | rw => rw
    end.

(** [try: m finally: f] *)
Definition finally {A} (m : M A) (f : M unit) : M A :=
  fun E w =>
    let (r, w') := m E w in
    match f E w' with
    | (Ok _, w'') => (r, w'')
    | (Raise e, w'') => (Raise e, w'')
    end.

(** [os.path.exists] *)
Definition path_exists (files : list text) (p : text) : bool :=
  existsb (text_eqb p) files.

(** [os.makedirs(dir)] *)
Definition makedirs (dir : text) : M unit :=
  fun E w =>
    let w1 := mkWorld (fs w) (temp_dirs w) (trace w ++ [EvMakedirs dir]) in
    match makedirs_error E w dir with
    | Some e => (Raise (Exc e), w1)
    | None => (Ok tt, mkWorld (dir :: fs w1) (temp_dirs w1) (trace w1))
    end.

(** [shutil.rmtree(dir)] *)
Definition rmtree (dir : text) : M unit :=
  fun E w =>
    let w1 := mkWorld (fs w) (temp_dirs w) (trace w ++ [EvRmtree dir]) in
    match rmtree_error E w dir with
    | Some e => (Raise (Exc e), w1)
    | None =>
        (Ok tt, mkWorld (filter (fun p => negb (Path.under dir p)) (fs w1))
                        (temp_dirs w1) (trace w1))
    end.

(** [subprocess.run(argv, cwd=..., shell=...)]: the returned triple is
    [(returncode, stdout, stderr)]. *)
Definition subprocess_run (argv : list text) (cwd : option text) (shell : bool)
  : M (Z * text * text) :=
  fun E w =>
    let w1 := mkWorld (fs w) (temp_dirs w) (trace w ++ [EvRun argv cwd shell]) in
    match run_process E w argv cwd shell with
    | Completed rc out err => (Ok (rc, out, err), w1)
    | RunRaises e => (Raise (Exc e), w1)
    end.

(** Writing a whole file: opening or writing may fail, and a file that
    was written is recorded with what it holds. *)
Definition write_file (path : text) (doc : document) : M unit :=
  fun E w =>
    match write_error E w path with
    | Some e => (Raise (Exc e), w)
    | None =>
        (Ok tt, mkWorld (path :: fs w) (temp_dirs w)
                        (trace w ++ [EvWrote path doc]))
    end.

(** ** The workspace manager (lines 44-83) *)

(** The decimal digits of a non-negative integer, as an f-string
    prints it. *)
Definition dec (n : N) : text :=
  list_ascii_of_string (NilEmpty.string_of_uint (N.to_uint n)).

(** The name tried after [counter] collisions (lines 52-56). *)
Definition candidate (original : text) (counter : nat) : text :=
  match counter with
  | 0 => original
  | S _ => original ++ txt "_" ++ dec (N.of_nat counter)
  end.

(** [while os.path.exists(temp_dir): counter += 1; ...], with fuel. *)
Fixpoint free_name (fuel : nat) (files : list text) (original : text)
  (counter : nat) : option text :=
  match fuel with
  | 0 => None
  | S k =>
      let temp_dir := candidate original counter in
      if path_exists files temp_dir
      then free_name k files original (S counter)
      else Some temp_dir
  end.

(** One more round than there are paths always finds a free name
    ([free_name_total] below), so the default is never used. *)
Definition fresh_dir (files : list text) (original : text) : text :=
  match free_name (S (List.length files)) files original 0 with
  | Some d => d
  | None => original
  end.

(** [_cleanup_directory] *)
Definition _cleanup_directory (directory : text) : M unit :=
  try_except
    (w <- get_world ;;
     if path_exists (fs w) directory
     then rmtree directory ;;
          log LInfo (MsgCleaned (Path.basename directory))
     else ret tt)
    (fun e =>
       if is_PermissionError e
       then Some
         (try_except
            (subprocess_run [txt "rmdir"; txt "/s"; txt "/q"; directory]
                            None true ;;
             log LInfo (MsgCleanedWindows (Path.basename directory)))
            (fun e' => Some
               (log LWarning (MsgCouldNotCleanUp (Path.basename directory) e'))))
       else Some
         (log LWarning (MsgErrorCleaningUp (Path.basename directory) e))).

(** [self.temp_dirs.append(temp_dir)] *)
Definition push_temp_dir (temp_dir : text) : M unit :=
  fun _ w => (Ok tt, mkWorld (fs w) (temp_dirs w ++ [temp_dir]) (trace w)).

(** [with self._temp_directory() as temp_dir: body] *)
Definition _temp_directory {A} (body : text -> M A) : M A :=
  E <- ask ;;
  w <- get_world ;;
  let timestamp := time_ms E w in
  let original :=
    Path.join (getcwd E) (txt "temp_git_clone_" ++ dec timestamp) in
  let temp_dir := fresh_dir (fs w) original in
  makedirs temp_dir ;;
  push_temp_dir temp_dir ;;
  log LInfo (MsgCreatedTemp temp_dir) ;;
  finally (body temp_dir) (_cleanup_directory temp_dir).

(** ** The history extractor (lines 111-171) *)

Definition truthy_opt (o : option text) : bool :=
  match o with
  | Some s => truthy s
  | None => false
  end.

Definition get_or (o : option text) (default : text) : text :=
  match o with
  | Some s => s
  | None => default
  end.

(** [cmd.extend([flag, filters[key]])] when [filters.get(key)] is truthy. *)
Definition flag_arg (flag : text) (o : option text) : list text :=
  if truthy_opt o then [flag; get_or o []] else [].

Definition log_command (f : filters) : list text :=
  [txt "git"; txt "log"; txt "--pretty=format:%H|%an|%ad|%s|%b";
   txt "--date=iso"]
  ++ flag_arg (txt "--since") (since f)
  ++ flag_arg (txt "--until") (until f)
  ++ flag_arg (txt "--author") (author f)
  ++ (if truthy_opt (branch f) then [get_or (branch f) []] else [txt "--all"]).

Definition _get_commit_history (repo_path repo_name repo_project : text)
  (f : filters) : M (list commit) :=
  try_except
    (r <- subprocess_run (log_command f) (Some repo_path) false ;;
     let '(returncode, stdout, stderr) := r in
     if negb (returncode =? 0)%Z
     then log LError (MsgGitLogFailed repo_name stderr) ;; ret []
     else
       let commits := Extractor.parse_commits repo_name repo_project stdout in
       log LInfo (MsgExtracted (List.length commits) repo_name) ;;
       ret commits)
    (fun e =>
       if is_TimeoutExpired e
       then Some (log LError (MsgLogTimeout repo_name) ;; ret [])
       else Some (log LError (MsgLogError repo_name e) ;; ret [])).

(** ** The repository fetcher (lines 173-216) *)

(** The [try] block inside the [with] (lines 194-216). *)
Definition clone_and_extract (repo_url repo_name repo_project : text)
  (f : filters) (temp_dir : text) : M (list commit) :=
  let clone_path := Path.join temp_dir repo_name in
  try_except
    (r <- subprocess_run [txt "git"; txt "clone"; repo_url; clone_path]
                         None false ;;
     let '(returncode, _, stderr) := r in
     if negb (returncode =? 0)%Z
     then log LError (MsgCloneFailed repo_url stderr) ;; ret []
     else
       subprocess_run [txt "git"; txt "fetch"; txt "--all"]
                      (Some clone_path) false ;;
       log LInfo (MsgCloned repo_url clone_path) ;;
       _get_commit_history clone_path repo_name repo_project f)
    (fun e => Some (log LError (MsgErrorProcessing repo_name e) ;; ret [])).

Definition _process_repository (repo_info : RepoInfo.t) (f : filters)
  : M (list commit) :=
  let repo_name := get_or (RepoInfo.name repo_info) (txt "unknown") in
  let repo_url := get_or (RepoInfo.url repo_info) [] in
  let repo_project := get_or (RepoInfo.project repo_info) (txt "Unknown") in
  if negb (truthy repo_url)
  then log LError (MsgNoUrl repo_name) ;; ret []
  else
    log LInfo (MsgProcessing repo_name) ;;
    w <- get_world ;;
    if path_exists (fs w) repo_url
    then _get_commit_history repo_url repo_name repo_project f
    else
      _temp_directory
        (clone_and_extract repo_url repo_name repo_project f).

(** ** The collection orchestrator (lines 218-250)

    The pool is modelled by its barrier: every submitted task has run
    to the end when the [with] block is left, a task's exception is kept
    in its future, and [as_completed] yields the futures in an order
    the scheduler chooses ([completion]).  Tasks are run one after the
    other in that order; interleavings of their effects are not
    modelled. *)

(** A future: the task's return value or the exception it raised. *)
Definition future := result (list commit).

Definition run_task (repo : RepoInfo.t) (f : filters) : M future :=
  fun E w => let (r, w') := _process_repository repo f E w in (Ok r, w').

Fixpoint run_tasks (repos : list RepoInfo.t) (f : filters)
  : M (list (RepoInfo.t * future)) :=
  match repos with
  | [] => ret []
  | repo :: rest =>
      r <- run_task repo f ;;
      rs <- run_tasks rest f ;;
      ret ((repo, r) :: rs)
  end.

(** The main thread waits for the next future; a user interrupt
    arrives there as [KeyboardInterrupt]. *)
Definition wait_point (pending : nat) : M unit :=
  fun E w =>
    if sigint E w pending then (Raise KeyboardInterrupt, w) else (Ok tt, w).

(** [for future in as_completed(future_to_repo): ...] (lines 231-237) *)
Fixpoint collect (futures : list (RepoInfo.t * future))
  (all_commits : list commit) : M (list commit) :=
  match futures with
  | [] => ret all_commits
  | (repo, fut) :: rest =>
      wait_point (List.length futures) ;;
      match fut with
      | Ok commits => collect rest (all_commits ++ commits)
      | Raise (Exc e) =>
          log LError
            (MsgErrorProcessing (get_or (RepoInfo.name repo) (txt "unknown")) e) ;;
          collect rest all_commits
      | Raise KeyboardInterrupt => raise KeyboardInterrupt
      end
  end.

(** The allow-list in force: [Some l] when [selected_authors] is
    configured and non-empty (line 240). *)
Definition allow_list (cfg : config) : option (list text) :=
  match selected_authors cfg with
  | Some (a :: l) => Some (a :: l)
  | _ => None
  end.

(** [commit['author_name'] in selected_authors] *)
Definition author_selected (selected : list text) (c : commit) : bool :=
  existsb (text_eqb (author_name c)) selected.

(** Lines 239-246, without the log lines. *)
Definition select_authors (cfg : config) (all_commits : list commit)
  : list commit :=
  match allow_list cfg with
  | Some selected => filter (author_selected selected) all_commits
  | None => all_commits
  end.

(** [all_commits.sort(key=lambda x: x['date'], reverse=True)] *)
Definition sort_by_date (all_commits : list commit) : list commit :=
  sort_desc (fun c => codes (date c)) all_commits.

(** Lines 239-250: what [export_history] does to the merged records. *)
Definition finish (cfg : config) (all_commits : list commit) : list commit :=
  sort_by_date (select_authors cfg all_commits).

(** Lines 223-237: the records of all repositories, merged in the
    order the tasks complete. *)
Definition gather (repos : list RepoInfo.t) (f : filters) : M (list commit) :=
  E <- ask ;;
  futures <- run_tasks (completion E repos) f ;;
  collect futures [].

Definition export_history (cfg : config) (repos : list RepoInfo.t)
  (f : filters) : M (list commit) :=
  let workers := match parallel_workers f with Some n => n | None => 4%Z end in
  if (workers <=? 0)%Z then raise (Exc ValueError)
  else
    all_commits <- gather repos f ;;
    (match allow_list cfg with
     | Some _ =>
         log LInfo (MsgFiltered (List.length all_commits)
                      (List.length (select_authors cfg all_commits)))
     | None => log LInfo (MsgNoFiltering (List.length all_commits))
     end) ;;
    ret (finish cfg all_commits).

(** ** The tabular export (lines 252-265)

    [csv.DictWriter] and, for reading back, [csv.DictReader], both with
    the default dialect ([excel]: delimiter [,], the double quote as quote character,
    minimal quoting, doubled quotes, line terminator CR LF), modelled
    after CPython's [_csv] module.  The file is opened with
    [newline=''], so no newline translation takes place. *)

Module Csv.

Definition COMMA : ascii := ascii_of_nat 44.
Definition QUOTE : ascii := ascii_of_nat 34.

(** *** Writer *)

(** Minimal quoting: the characters that force quotes. *)
Definition special (c : ascii) : bool :=
  Ascii.eqb c COMMA || Ascii.eqb c QUOTE
  || Ascii.eqb c Str.CR || Ascii.eqb c Str.LF.

(** Every quote character is doubled. *)
Fixpoint escape (f : text) : text :=
  match f with
  | [] => []
  | c :: f' =>
      if Ascii.eqb c QUOTE then QUOTE :: QUOTE :: escape f'
      else c :: escape f'
  end.

Definition write_field (f : text) : text :=
  if existsb special f then QUOTE :: escape f ++ [QUOTE] else f.

(** [writer.writerow(row)]; a row that is one empty field is written
    as a pair of quotes. *)
Definition writerow (row : list text) : text :=
  match row with
  | [[]] => [QUOTE; QUOTE; Str.CR; Str.LF]
  | _ => Str.join [COMMA] (map write_field row) ++ [Str.CR; Str.LF]
  end.

(** *** Reader *)

Inductive rstate :=
| START_RECORD
| START_FIELD
| IN_FIELD
| IN_QUOTED_FIELD
| QUOTE_IN_QUOTED_FIELD
| EAT_CRNL.

Record reader := mkReader {
  state : rstate;
  field : text;
  fields : list text
}.

(** What the parser is fed: a character of the line, or the marker
    that ends each line. *)
Inductive input :=
| Ch (c : ascii)
| EOL.

Definition is_newline (i : input) : bool :=
  match i with
  | Ch c => Ascii.eqb c Str.LF || Ascii.eqb c Str.CR
  | EOL => false
  end.

Definition is_char (x : ascii) (i : input) : bool :=
  match i with
  | Ch c => Ascii.eqb c x
  | EOL => false
  end.

Definition parse_save_field (st : rstate) (r : reader) : reader :=
  mkReader st [] (fields r ++ [field r]).

Definition parse_add_char (st : rstate) (r : reader) (i : input) : reader :=
  match i with
  | Ch c => mkReader st (field r ++ [c]) (fields r)
  | EOL => mkReader st (field r) (fields r)
  end.

Definition goto (st : rstate) (r : reader) : reader :=
  mkReader st (field r) (fields r).

Definition after_line_end (i : input) : rstate :=
  match i with
  | EOL => START_RECORD
  | Ch _ => EAT_CRNL
  end.

(** [START_FIELD], which [START_RECORD] falls through to. *)
Definition start_field (r : reader) (i : input) : reader :=
  match i with
  | EOL => parse_save_field START_RECORD r
  | Ch c =>
      if is_newline i then parse_save_field EAT_CRNL r
      else if Ascii.eqb c QUOTE then goto IN_QUOTED_FIELD r
      else if Ascii.eqb c COMMA then parse_save_field START_FIELD r
      else parse_add_char IN_FIELD r i
  end.

(** [parse_process_char]; [None] is [csv.Error]. *)
Definition parse_process_char (r : reader) (i : input) : option reader :=
  match state r with
  | START_RECORD =>
      match i with
      | EOL => Some r
      | Ch _ =>
          if is_newline i then Some (goto EAT_CRNL r)
          else Some (start_field r i)
      end
  | START_FIELD => Some (start_field r i)
  | IN_FIELD =>
      match i with
      | EOL => Some (parse_save_field START_RECORD r)
      | Ch _ =>
          if is_newline i then Some (parse_save_field EAT_CRNL r)
          else if is_char COMMA i then Some (parse_save_field START_FIELD r)
          else Some (parse_add_char IN_FIELD r i)
      end
  | IN_QUOTED_FIELD =>
      match i with
      | EOL => Some r
      | Ch _ =>
          if is_char QUOTE i then Some (goto QUOTE_IN_QUOTED_FIELD r)
          else Some (parse_add_char IN_QUOTED_FIELD r i)
      end
  | QUOTE_IN_QUOTED_FIELD =>
      if is_char QUOTE i then Some (parse_add_char IN_QUOTED_FIELD r i)
      else if is_char COMMA i then Some (parse_save_field START_FIELD r)
      else
        match i with
        | EOL => Some (parse_save_field START_RECORD r)
        | Ch _ =>
            if is_newline i then Some (parse_save_field EAT_CRNL r)
            else Some (parse_add_char IN_FIELD r i)
        end
  | EAT_CRNL =>
      match i with
      | EOL => Some (goto START_RECORD r)
      | Ch _ => if is_newline i then Some r else None
      end
  end.

Fixpoint feed (r : reader) (l : list input) : option reader :=
  match l with
  | [] => Some r
  | i :: l' =>
      match parse_process_char r i with
      | Some r' => feed r' l'
      | None => None
      end
  end.

(** Iterating a text file opened with [newline='']: a line ends after
    LF, after CR LF, or after a CR that no LF follows, and keeps its
    ending; [cur] is the line read so far. *)
Fixpoint splitlines (cur s : text) : list text :=
  match s with
  | [] => match cur with [] => [] | _ :: _ => [cur] end
  | c :: s' =>
      if Ascii.eqb c Str.LF then (cur ++ [c]) :: splitlines [] s'
      else if Ascii.eqb c Str.CR then
        match s' with
        | c' :: s'' =>
            if Ascii.eqb c' Str.LF
            then (cur ++ [c; c']) :: splitlines [] s''
            else (cur ++ [c]) :: splitlines [] s'
        | [] => [cur ++ [c]]
        end
      else splitlines (cur ++ [c]) s'
  end.

Definition fresh : reader := mkReader START_RECORD [] [].

(** The rows [csv.reader] yields from the lines of a file: a row is
    complete when the parser is back in [START_RECORD] after a line;
    at the end of the input a pending field is saved. *)
Fixpoint read_rows (r : reader) (lines : list text)
  : option (list (list text)) :=
  match lines with
  | [] =>
      match field r, state r with
      | _ :: _, _ | _, IN_QUOTED_FIELD => Some [fields r ++ [field r]]
      | _, _ => Some []
      end
  | line :: rest =>
      match feed r (map Ch line ++ [EOL]) with
      | None => None
      | Some r' =>
          match state r' with
          | START_RECORD =>
              option_map (cons (fields r')) (read_rows fresh rest)
          | _ => read_rows r' rest
          end
      end
  end.

(** [list(csv.reader(f))] *)
Definition reader_rows (content : text) : option (list (list text)) :=
  read_rows fresh (splitlines [] content).

(** [list(csv.DictReader(f))]: the first row names the columns, empty
    rows are skipped, and each row is zipped with the names. *)
Definition dict_rows (content : text)
  : option (list (list (text * text))) :=
  match reader_rows content with
  | None => None
  | Some [] => Some []
  | Some (header :: rows) =>
      Some (map (combine header)
                (filter (fun row => negb (Nat.eqb (List.length row) 0)) rows))
  end.

(** [d[key]] *)
Fixpoint lookup (key : text) (d : list (text * text)) : option text :=
  match d with
  | [] => None
  | (k, v) :: d' => if text_eqb k key then Some v else lookup key d'
  end.

(** From the reader state [r], reached somewhere in a line, the rest
    [s] of the file reads as [v]. *)
Definition Reads (r : reader) (s : text) (v : option (list (list text)))
  : Prop :=
  forall r0 cur,
    feed r0 (map Ch cur) = Some r -> read_rows r0 (splitlines cur s) = v.

(** What [writerow] writes after the first field of a row. *)
Fixpoint row_tail (fs : list text) : text :=
  match fs with
  | [] => [Str.CR; Str.LF]
  | f :: fs' => COMMA :: write_field f ++ row_tail fs'
  end.

(** *** Encoding of the file ([encoding='utf-8']), for the code
    points of the model *)

Definition utf8_char (c : ascii) : list Byte.byte :=
  let n := nat_of_ascii c in
  if n <? 128 then [byte_of_ascii c]
  else [byte_of_ascii (ascii_of_nat (192 + n / 64));
        byte_of_ascii (ascii_of_nat (128 + n mod 64))].

Definition utf8_encode (s : text) : list Byte.byte := flat_map utf8_char s.

(** [None]: the bytes are not the encoding of a text of the model. *)
Fixpoint utf8_decode (bs : list Byte.byte) : option text :=
  match bs with
  | [] => Some []
  | b :: bs' =>
      let n := nat_of_ascii (ascii_of_byte b) in
      if n <? 128 then option_map (cons (ascii_of_byte b)) (utf8_decode bs')
      else
        match bs' with
        | b2 :: bs'' =>
            let m := nat_of_ascii (ascii_of_byte b2) in
            if ((n =? 194) || (n =? 195)) && (128 <=? m) && (m <? 192)
            then option_map (cons (ascii_of_nat ((n - 192) * 64 + (m - 128))))
                            (utf8_decode bs'')
            else None
        | [] => None
        end
  end.

Definition is_ascii (s : text) : Prop :=
  Forall (fun c => nat_of_ascii c < 128) s.

End Csv.

Definition fieldnames : list text :=
  [txt "repository"; txt "project"; txt "hash"; txt "author_name";
   txt "date"; txt "subject"; txt "body"].

(** The row [DictWriter] makes of a commit: its values in column order. *)
Definition row_of (c : commit) : list text :=
  [repository c; project c; hash c; author_name c; date c; subject c; body c].

(** A dict with a key outside [fieldnames] is refused
    ([extrasaction='raise']). *)
Definition has_extra_key (c : commit) : bool :=
  match parsed_date c with
  | Some _ => true
  | None => false
  end.

(** The text [writeheader] and [writerows] put in the file. *)
Definition csv_text (commits : list commit) : text :=
  Csv.writerow fieldnames ++ flat_map (fun c => Csv.writerow (row_of c)) commits.

(** The records [writerows] has written when it meets one it refuses. *)
Fixpoint rows_before_refusal (commits : list commit) : list commit :=
  match commits with
  | [] => []
  | c :: rest => if has_extra_key c then [] else c :: rows_before_refusal rest
  end.

(** The file is opened and the header written before any row is
    looked at: a refused record leaves the file with the header and the
    rows before it, and the [ValueError] leaves the [with] block. *)
Definition save_to_csv (commits : list commit) (output_file : text) : M unit :=
  match commits with
  | [] => log LWarning MsgNoCommitsToSave
  | _ :: _ =>
      (if existsb has_extra_key commits
       then
         write_file output_file
                    (CsvTable (csv_text (rows_before_refusal commits))) ;;
         raise (Exc ValueError)
       else write_file output_file (CsvTable (csv_text commits))) ;;
      log LInfo (MsgExported (List.length commits) output_file)
  end.

(** ** The sections of a logbook (lines 346-377 and 521-553)

    [_generate_markdown_log] and [_generate_html_log] run the same two
    loops: the records are grouped by month and, inside a month, by day;
    months and days are visited by descending key, and each key is
    parsed back to make its heading.  That structure is modelled here:
    the keys of the headings, the failure of a key that does not parse,
    and the order of the entries; the text of the templates is not. *)

Definition digit_char (k : nat) : ascii := ascii_of_nat (48 + k).

(** A number below 100, padded with a zero. *)
Definition two_digits (v : nat) : text :=
  [digit_char (v / 10); digit_char (v mod 10)].

(** [%Y] of [strftime] as the C library prints it: the year in decimal,
    not padded (the year 999 gives [999]); a [datetime] has a year
    from 1 to 9999. *)
Definition strftime_Y (y : nat) : text :=
  if y <? 10 then [digit_char y]
  else if y <? 100 then two_digits y
  else if y <? 1000 then digit_char (y / 100) :: two_digits (y mod 100)
  else two_digits (y / 100) ++ two_digits (y mod 100).

(** [d.strftime('%Y-%m')] and [d.strftime('%Y-%m-%d')] *)
Definition strftime_Ym (d : datetime) : text :=
  strftime_Y (year d) ++ txt "-" ++ two_digits (month d).

Definition strftime_Ymd (d : datetime) : text :=
  strftime_Ym d ++ txt "-" ++ two_digits (day d).

(** [datetime.strptime(key, '%Y-%m')] and
    [datetime.strptime(key, '%Y-%m-%d')], as [Strptime.strptime]: a
    field the format does not name is 1 (the day) or 0, and [None]
    stands for the [ValueError]. *)
Definition strptime_Ym (s : text) : option datetime :=
  match Strptime.bind Strptime.dY (fun y =>
        Strptime.bind (Strptime.lit "-") (fun _ =>
        Strptime.bind Strptime.dm (fun mo =>
        Strptime.ret (mkDatetime y mo 1 0 0 0 0)))) s with
  | [] => None
  | (d, rest) :: _ =>
      match rest with
      | [] => if Strptime.valid d then Some d else None
      | _ :: _ => None
      end
  end.

Definition strptime_Ymd (s : text) : option datetime :=
  match Strptime.bind Strptime.dY (fun y =>
        Strptime.bind (Strptime.lit "-") (fun _ =>
        Strptime.bind Strptime.dm (fun mo =>
        Strptime.bind (Strptime.lit "-") (fun _ =>
        Strptime.bind Strptime.dd (fun da =>
        Strptime.ret (mkDatetime y mo da 0 0 0 0)))))) s with
  | [] => None
  | (d, rest) :: _ =>
      match rest with
      | [] => if Strptime.valid d then Some d else None
      | _ :: _ => None
      end
  end.

Definition parses (o : option datetime) : bool :=
  match o with
  | Some _ => true
  | None => false
  end.

(** [d[k].append(x)] on a [defaultdict(list)]: the keys stay in the
    order of their first insertion. *)
Fixpoint dict_append {A} (k : text) (x : A) (d : list (text * list A))
  : list (text * list A) :=
  match d with
  | [] => [(k, [x])]
  | (k', l) :: rest =>
      if text_eqb k k' then (k', l ++ [x]) :: rest
      else (k', l) :: dict_append k x rest
  end.

(** [for x in xs: d[key(x)].append(x)], from the empty dict. *)
Definition group_by {A} (key : A -> text) (xs : list A)
  : list (text * list A) :=
  fold_left (fun d x => dict_append (key x) x d) xs [].

(** [d[k]] *)
Fixpoint dict_get {A} (k : text) (d : list (text * list A)) : list A :=
  match d with
  | [] => []
  | (k', l) :: rest => if text_eqb k k' then l else dict_get k rest
  end.

(** The elements that [d[k]] collects: those whose key is [k]. *)
Definition has_key {A} (key : A -> text) (k : text) (x : A) : bool :=
  text_eqb (key x) k.

(** [sorted(d.keys(), reverse=True)] *)
Definition sorted_keys {A} (d : list (text * list A)) : list text :=
  sort_desc codes (map fst d).

(** The groups as the loop over the sorted keys visits them. *)
Definition grouped {A} (key : A -> text) (xs : list A)
  : list (text * list A) :=
  let d := group_by key xs in
  map (fun k => (k, dict_get k d)) (sorted_keys d).

(** The records with their [parsed_date]; [None] is the [KeyError] of
    [commit['parsed_date']] for a record that has none. *)
Fixpoint with_parsed_dates (commits : list commit)
  : option (list (datetime * commit)) :=
  match commits with
  | [] => Some []
  | c :: rest =>
      match parsed_date c, with_parsed_dates rest with
      | Some d, Some xs => Some ((d, c) :: xs)
      | _, _ => None
      end
  end.

Definition month_key (x : datetime * commit) : text := strftime_Ym (fst x).

Definition day_key (x : datetime * commit) : text := strftime_Ymd (fst x).

(** The days of one month, with their records. *)
Definition daily_sections (month_commits : list (datetime * commit))
  : list (text * list commit) :=
  map (fun day => (fst day, map snd (snd day))) (grouped day_key month_commits).

(** The months of a logbook, each with its days.  The loops fail with
    [KeyError] at a record without [parsed_date] (line 349), and with
    [ValueError] at a month or day key that does not parse (lines 357
    and 372); nothing has been written then. *)
Definition log_sections (commits : list commit)
  : exception + list (text * list (text * list commit)) :=
  match with_parsed_dates commits with
  | Some xs =>
      let sections :=
        map (fun month => (fst month, daily_sections (snd month)))
            (grouped month_key xs) in
      if forallb (fun month =>
                    parses (strptime_Ym (fst month))
                    && forallb (fun day => parses (strptime_Ymd (fst day)))
                               (snd month))
                 sections
      then inr sections
      else inl ValueError
  | None => inl KeyError
  end.

(** The records in the order [_format_commit_entry] is called on them. *)
Definition entries_of (sections : list (text * list (text * list commit)))
  : list commit :=
  flat_map (fun month => flat_map snd (snd month)) sections.

(** ** The logbook (lines 307-333) *)

(** [commit['parsed_date'] = d] *)
Definition set_parsed_date (c : commit) (d : datetime) : commit :=
  mkCommit (repository c) (project c) (hash c) (author_name c)
           (date c) (subject c) (body c) (Some d).

(** Lines 314-318: the clock is read once for each record whose date
    does not parse; [i] counts the records already handled. *)
Fixpoint parse_dates (i : nat) (commits : list commit) : M (list commit) :=
  match commits with
  | [] => ret []
  | c :: rest =>
      E <- ask ;;
      w <- get_world ;;
      let c' := set_parsed_date c (timestamp_of (clock_now E w i) c) in
      rest' <- parse_dates (S i) rest ;;
      ret (c' :: rest')
  end.

(** The records after that loop, for given readings of the clock. *)
Fixpoint dated (now : nat -> datetime) (i : nat) (commits : list commit)
  : list commit :=
  match commits with
  | [] => []
  | c :: rest =>
      set_parsed_date c (timestamp_of (now i) c) :: dated now (S i) rest
  end.

(** The key [x['parsed_date']]. *)
Definition parsed_key (c : commit) : list nat :=
  match parsed_date c with
  | Some d => dt_fields d
  | None => []
  end.

(** [commits.sort(key=lambda x: x['parsed_date'], reverse=True)] *)
Definition sort_by_parsed_date (commits : list commit) : list commit :=
  sort_desc parsed_key commits.

(** [_generate_markdown_log] and [_generate_html_log] (lines 335-388
    and 390-573): the content is built first, which fails where the
    grouping fails, and then the file is written. *)
Definition _generate_markdown_log (commits : list commit) (output_file : text)
  : M text :=
  match log_sections commits with
  | inl e => raise (Exc e)
  | inr _ => write_file output_file (MarkdownLog commits) ;; ret output_file
  end.

Definition _generate_html_log (commits : list commit) (output_file : text)
  : M text :=
  match log_sections commits with
  | inl e => raise (Exc e)
  | inr _ => write_file output_file (HtmlLog commits) ;; ret output_file
  end.

Definition generate_logbook (commits : list commit) (base_name : text)
  : M (list text) :=
  match commits with
  | [] => log LWarning MsgNoCommitsForLogbook ;; ret []
  | _ :: _ =>
      dated <- parse_dates 0 commits ;;
      let sorted := sort_by_parsed_date dated in
      md_file <- _generate_markdown_log sorted (base_name ++ txt ".md") ;;
      html_file <- _generate_html_log sorted (base_name ++ txt ".html") ;;
      ret [md_file; html_file]
  end.

(** [cleanup_temp_directories] (lines 575-581) *)
Fixpoint cleanup_each (dirs : list text) : M unit :=
  match dirs with
  | [] => ret tt
  | d :: rest => _cleanup_directory d ;; cleanup_each rest
  end.

(** [self.temp_dirs.clear()] *)
Definition clear_temp_dirs : M unit :=
  fun _ w => (Ok tt, mkWorld (fs w) [] (trace w)).

Definition cleanup_temp_directories : M unit :=
  w <- get_world ;;
  (match temp_dirs w with
   | [] => ret tt
   | _ :: _ => log LInfo (MsgCleaningUp (List.length (temp_dirs w)))
   end) ;;
  cleanup_each (temp_dirs w) ;;
  clear_temp_dirs.

(** ** The entry point (lines 583-669)

    [main] is modelled from the parsed arguments on; console output is
    not modelled. *)

Record args := mkArgs {
  a_config : option text;
  a_repos : option (list text);
  a_output : text;
  a_csv : option text;
  a_since : option text;
  a_until : option text;
  a_author : option text;
  a_branch : option text;
  a_workers : Z
}.

(** [GitHistoryLogbook(args.config)]: [__init__] and [_load_config]. *)
Definition load_config (config_file : option text) : M config :=
  match config_file with
  | Some file =>
      if truthy file then
        E <- ask ;;
        w <- get_world ;;
        match load_json E w file with
        | inr cfg => ret cfg
        | inl e => log LError (MsgConfigError e) ;; ret empty_config
        end
      else ret empty_config
  | None => ret empty_config
  end.

(** Lines 602-610: [None] is the branch that prints the error. *)
Definition choose_repositories (a : args) (cfg : config)
  : option (list RepoInfo.t) :=
  match (if truthy_opt (a_config a) then repositories cfg else None) with
  | Some (r :: rs) => Some (r :: rs)
  | _ =>
      match a_repos a with
      | Some (r :: rs) =>
          Some (map (fun repo =>
                       RepoInfo.mk (Some (Path.basename repo)) (Some repo) None)
                    (r :: rs))
      | _ => None
      end
  end.

(** One CLI filter with its default from the config (lines 626-633). *)
Definition pick (cli dflt : option text) : option text :=
  if negb (truthy_opt cli) && truthy_opt dflt then dflt else cli.

(** Lines 615-636. *)
Definition build_filters (a : args) (cfg : config) : filters :=
  match (if truthy_opt (a_config a) then default_filters cfg else None) with
  | Some d =>
      mkFilters (pick (a_since a) (since d)) (pick (a_until a) (until d))
                (pick (a_author a) (author d)) (pick (a_branch a) (branch d))
                (Some (a_workers a))
  | None =>
      mkFilters (a_since a) (a_until a) (a_author a) (a_branch a)
                (Some (a_workers a))
  end.

(** The [try] block. *)
Definition main_body (a : args) (cfg : config) : M Z :=
  match choose_repositories a cfg with
  | None => ret 1%Z
  | Some repos =>
      commits <- export_history cfg repos (build_filters a cfg) ;;
      match commits with
      | [] => ret 1%Z
      | _ :: _ =>
          (if truthy_opt (a_csv a)
           then save_to_csv commits (get_or (a_csv a) [])
           else ret tt) ;;
          generate_logbook commits (a_output a) ;;
          ret 0%Z
      end
  end.

(** The [except] clauses of [main].  An interrupt raised anywhere in
    the [try] block reaches the same clause as the one raised at the
    wait for the futures.  The handler of the interrupt writes to the
    console before it returns 1; an interrupt that arrives then (no
    task is awaited any more) is not caught by the clause beside it:
    the [finally] block runs and the interrupt leaves [main]. *)
Definition main_handlers (m : M Z) : M Z :=
  fun E w =>
    match m E w with
    | (Raise KeyboardInterrupt, w') => (wait_point 0 ;; ret 1%Z) E w'
    | (Raise (Exc e), w') => (log LError (MsgUnexpected e) ;; ret 1%Z) E w'
    | rw => rw
    end.

Definition main (a : args) : M Z :=
  cfg <- load_config (a_config a) ;;
  finally (main_handlers (main_body a cfg)) cleanup_temp_directories.

(** The world a run starts in: the paths that exist, no workspace, no
    effect yet. *)
Definition initial (files : list text) : world := mkWorld files [] [].

(** ** Specifications of effectful code *)

(** [m] only adds events, and each one satisfies [P]. *)
Definition emits {A} (P : event -> Prop) (m : M A) : Prop :=
  forall E w,
    exists evs, trace (snd (m E w)) = trace w ++ evs /\ Forall P evs.

(** [m] returns a value: it raises nothing. *)
Definition returns {A} (m : M A) : Prop :=
  forall E w, exists a, fst (m E w) = Ok a.

(** Whatever [m] raises is an [Exception]. *)
Definition uninterrupted {A} (m : M A) : Prop :=
  forall E w, fst (m E w) <> Raise KeyboardInterrupt.

(** The records a future contributes to the merge. *)
Definition commits_of (fut : future) : list commit :=
  match fut with
  | Ok commits => commits
  | Raise _ => []
  end.



Definition is_warning (ev : event) : Prop :=
  match ev with
  | EvLog LWarning _ => True
  | _ => False
  end.

(** The world after more events. *)
Definition add_events (w : world) (evs : list event) : world :=
  mkWorld (fs w) (temp_dirs w) (trace w ++ evs).

(** When [m] returns a value, the value satisfies [P]. *)
Definition yields {A} (P : A -> Prop) (m : M A) : Prop :=
  forall E w,
    match fst (m E w) with
    | Ok a => P a
    | Raise _ => True
    end.

(** A record as the extractor tags it for a repository. *)
Definition tagged (repo_name repo_project : text) (c : commit) : Prop :=
  repository c = repo_name /\ project c = repo_project
  /\ parsed_date c = None.

(** A record without the key [parsed_date]. *)
Definition unparsed (c : commit) : Prop := parsed_date c = None.

(** [p] names [d] or something below [d]: it is [d], or [d] followed
    by a relative path none of whose components is [..]. *)
Definition inside (d p : text) : Prop :=
  p = d
  \/ exists rel,
       p = d ++ Path.SEP :: rel
       /\ ~ In (txt "..") (Str.split Path.SEP rel).

(** An effect that stays inside the workspace [d]: a directory that is
    created or deleted is [d] itself; a process runs in a directory at
    or below [d] or, run elsewhere, has a path at or below [d] as its
    last argument; no file is written. *)
Definition confined (d : text) (ev : event) : Prop :=
  match ev with
  | EvRun argv cwd _ =>
      exists p,
        inside d p
        /\ (cwd = Some p \/ (cwd = None /\ last argv [] = p))
  | EvMakedirs p | EvRmtree p => p = d
  | EvLog _ _ => True
  | EvWrote _ _ => False
  end.

(** ** Dates as the log command prints them

    With [--date=iso] a date is printed as [YYYY-MM-DD HH:MM:SS +ZZZZ],
    every number padded with zeros. *)

(** The 19 characters before the zone. *)
Definition iso_text (d : datetime) : text :=
  two_digits (year d / 100) ++ two_digits (year d mod 100)
  ++ txt "-" ++ two_digits (month d)
  ++ txt "-" ++ two_digits (day d)
  ++ txt " " ++ two_digits (hour d)
  ++ txt ":" ++ two_digits (minute d)
  ++ txt ":" ++ two_digits (second d).

(** The raw date of [c] starts with the ISO form of a valid time. *)
Definition iso_dated (c : commit) : Prop :=
  exists d suffix,
    date c = iso_text d ++ suffix
    /\ Strptime.valid d = true /\ microsecond d = 0.

(** The effects between two states of the world. *)
Definition new_events (w w' : world) : list event :=
  skipn (List.length (trace w)) (trace w').

(** ** Sample log output

    A commit whose message body holds a table: the second physical line
    of the output is the second row of the table. *)

Module Sample.

Definition sha : text := txt "3f2a9c1e5b7d4086a1c2e3f4a5b6c7d8e9f0a1b2".

Definition table_log : text :=
  sha ++ txt "|Alice|2024-01-05 10:00:00 +0000|Add table|| a | b | c |"
  ++ [Str.LF] ++ txt "| 1 | 2 | 3 |" ++ [Str.LF].

Definition two_lines : list text :=
  [sha ++ txt "|Alice|2024-01-05 10:00:00 +0000|Add parser|";
   sha ++ txt "|Bob|2024-01-06 09:30:00 +0000|Fix sort"].

Definition now : datetime := mkDatetime 2026 11 4 12 0 0 0.

(** An environment where every call succeeds: [git log] prints
    [two_lines] and every other process prints nothing. *)
Definition calm_env : env :=
  mkEnv (txt "/work") (fun _ => 1700000000000%N) (fun _ _ => now)
        (fun _ _ => None) (fun _ _ => None)
        (fun _ argv _ _ =>
           match argv with
           | _ :: sub :: _ =>
               if text_eqb sub (txt "log")
               then Completed 0 (Str.join [Str.LF] two_lines) []
               else Completed 0 [] []
           | _ => Completed 0 [] []
           end)
        (fun _ _ => None) (fun _ _ => inl FileNotFoundError)
        (fun repos => repos) (fun _ _ => false).

(** An environment where deleting a directory is refused and the
    fallback command ends with status 1, as [rmdir] without operands
    does under a POSIX shell. *)
Definition locked_env : env :=
  mkEnv (txt "/work") (fun _ => 1700000000000%N) (fun _ _ => now)
        (fun _ _ => None) (fun _ _ => Some PermissionError)
        (fun _ _ _ _ => Completed 1 [] (txt "rmdir: missing operand"))
        (fun _ _ => None) (fun _ _ => inl FileNotFoundError)
        (fun repos => repos) (fun _ _ => false).

(** An environment where [git clone] fails with status 128. *)
Definition offline_env : env :=
  mkEnv (txt "/work") (fun _ => 1700000000000%N) (fun _ _ => now)
        (fun _ _ => None) (fun _ _ => None)
        (fun _ argv _ _ =>
           match argv with
           | _ :: sub :: _ =>
               if text_eqb sub (txt "log")
               then Completed 0 (Str.join [Str.LF] two_lines) []
               else if text_eqb sub (txt "clone")
               then Completed 128 [] (txt "fatal: unable to access")
               else Completed 0 [] []
           | _ => Completed 0 [] []
           end)
        (fun _ _ => None) (fun _ _ => inl FileNotFoundError)
        (fun repos => repos) (fun _ _ => false).


Definition local_repo : RepoInfo.t :=
  RepoInfo.mk (Some (txt "app")) (Some (txt "/repos/app")) (Some (txt "Apps")).

Definition remote_repo : RepoInfo.t :=
  RepoInfo.mk (Some (txt "lib")) (Some (txt "https://example.org/lib.git"))
              (Some (txt "Libs")).

Definition no_filters : filters := mkFilters None None None None (Some 4%Z).

(** A record whose subject and body need quoting in the export. *)
Definition tricky : commit :=
  mkCommit (txt "app") (txt "Apps") sha (txt "O'Neil, Pat")
           (txt "2024-01-05 10:00:00 +0000")
           (txt "Say " ++ [Csv.QUOTE] ++ txt "hi" ++ [Csv.QUOTE] ++ txt ", twice")
           (txt "line one" ++ [Str.CR; Str.LF] ++ txt "line two" ++ [Str.CR])
           None.

(** A record dated in the year 999. *)
Definition old_commit : commit :=
  mkCommit (txt "app") (txt "Apps") sha (txt "Alice")
           (txt "0999-01-01 00:00:00 +0000") (txt "Lay the first stone") []
           None.

(** [--repos /repos/app] *)
Definition cli : args :=
  mkArgs None (Some [txt "/repos/app"]) (txt "commit_log") None
         None None None None 4.

Definition workspace : text := txt "/work/temp_git_clone_1700000000000".

End Sample.

(** * Properties *)

Unset Implicit Arguments.

(** ** Text primitives *)

Lemma text_eqb_eq (a b : text) : text_eqb a b = true <-> a = b.
Proof.
  unfold text_eqb. destruct (list_eq_dec ascii_dec a b); split; congruence.
Qed.

Lemma text_eqb_refl (a : text) : text_eqb a a = true.
Proof. now apply text_eqb_eq. Qed.

Lemma text_eqb_neq (a b : text) : text_eqb a b = false <-> a <> b.
Proof.
  unfold text_eqb. destruct (list_eq_dec ascii_dec a b); split; congruence.
Qed.

Module StrFacts.
Import Str.

Lemma isspace_not_pipe c : isspace c = true -> Ascii.eqb c PIPE = false.
Proof.
  intros H. destruct (Ascii.eqb_spec c PIPE) as [->|]; [discriminate H | reflexivity].
Qed.

Lemma split_nonempty sep s : split sep s <> [].
Proof.
  destruct s as [|c s]; simpl; [discriminate|].
  destruct (Ascii.eqb c sep); [discriminate|].
  destruct (split sep s); discriminate.
Qed.

Lemma splitn_nonempty sep s n : splitn sep s n <> [].
Proof.
  destruct s as [|c s]; simpl; [discriminate|].
  destruct n; [discriminate|].
  destruct (Ascii.eqb c sep); [discriminate|].
  destruct (splitn sep s (S n)); discriminate.
Qed.

Lemma length_cons_head c (L : list text) :
  L <> [] -> List.length (cons_head c L) = List.length L.
Proof. destruct L; [congruence | reflexivity]. Qed.

Lemma count_cons sep c s :
  count sep (c :: s) = (if Ascii.eqb c sep then 1 else 0) + count sep s.
Proof.
  unfold count. simpl. rewrite (Ascii.eqb_sym sep c).
  destruct (Ascii.eqb c sep); reflexivity.
Qed.

Lemma count_app sep a b : count sep (a ++ b) = count sep a + count sep b.
Proof. unfold count. now rewrite filter_app, length_app. Qed.

(** The number of fields: one more than the cuts made. *)
Lemma splitn_length sep s : forall n,
  List.length (splitn sep s n) = S (Nat.min n (count sep s)).
Proof.
  induction s as [|c s IH]; intros n.
  - simpl. now rewrite Nat.min_0_r.
  - rewrite count_cons. simpl. destruct n as [|m]; [reflexivity|].
    destruct (Ascii.eqb c sep).
    + simpl. now rewrite IH.
    + rewrite length_cons_head by apply splitn_nonempty. now rewrite IH.
Qed.

Lemma lstrip_spec s :
  exists pre, s = pre ++ lstrip s /\ Forall (fun c => isspace c = true) pre.
Proof.
  induction s as [|c s [pre [E F]]]; simpl.
  - exists []. split; [reflexivity | constructor].
  - destruct (isspace c) eqn:Hc.
    + exists (c :: pre). split; [simpl; congruence | now constructor].
    + exists []. split; [reflexivity | constructor].
Qed.

Lemma rstrip_spec s :
  exists suf, s = rstrip s ++ suf /\ Forall (fun c => isspace c = true) suf.
Proof.
  unfold rstrip. destruct (lstrip_spec (rev s)) as [pre [E F]].
  exists (rev pre). split.
  - rewrite <- rev_app_distr, <- E. now rewrite rev_involutive.
  - now apply Forall_rev.
Qed.

Lemma strip_nil_spaces s :
  strip s = [] -> Forall (fun c => isspace c = true) s.
Proof.
  unfold strip. intros H.
  destruct (lstrip_spec s) as [pre [E F]].
  destruct (rstrip_spec (lstrip s)) as [suf [E' F']].
  rewrite H in E'. simpl in E'. rewrite E, E'.
  apply Forall_app. split; assumption.
Qed.

Lemma count_pipe_spaces s :
  Forall (fun c => isspace c = true) s -> count PIPE s = 0.
Proof.
  induction 1 as [|c s Hc _ IH]; [reflexivity|].
  rewrite count_cons, IH. now rewrite (isspace_not_pipe _ Hc).
Qed.

End StrFacts.

(** ** Orders and sorting *)

Lemma lex_compare_refl a : lex_compare a a = Eq.
Proof.
  induction a as [|x a IH]; [reflexivity|]. simpl.
  now rewrite Nat.compare_refl.
Qed.

Lemma lex_compare_antisym a : forall b,
  lex_compare b a = CompOpp (lex_compare a b).
Proof.
  induction a as [|x a IH]; intros [|y b]; simpl; try reflexivity.
  rewrite (Nat.compare_antisym x y).
  destruct (Nat.compare x y); simpl; [apply IH | reflexivity | reflexivity].
Qed.

Lemma lex_le_refl a : lex_le a a.
Proof. unfold lex_le. now rewrite lex_compare_refl. Qed.

Lemma lex_le_trans a : forall b c, lex_le a b -> lex_le b c -> lex_le a c.
Proof.
  unfold lex_le. induction a as [|x a IH]; intros [|y b] [|z c]; simpl;
    try congruence.
  destruct (Nat.compare_spec x y), (Nat.compare_spec y z),
    (Nat.compare_spec x z); subst; try congruence; try lia.
  apply IH.
Qed.

(** [a >= b] when the comparison of [a] with [b] is not [Lt]. *)
Lemma lex_le_of_not_lt a b : lex_compare a b <> Lt -> lex_le b a.
Proof.
  unfold lex_le. rewrite (lex_compare_antisym a b).
  destruct (lex_compare a b); simpl; congruence.
Qed.

Section SortingFacts.
Variables (A : Type) (key : A -> list nat).

Lemma insert_desc_perm x l : Permutation (insert_desc key x l) (x :: l).
Proof.
  induction l as [|y l IH]; simpl; [reflexivity|].
  destruct (lex_compare (key x) (key y)); try reflexivity.
  rewrite IH. apply perm_swap.
Qed.

(** Sorting keeps the records: the result is a rearrangement. *)
Lemma sort_desc_perm l : Permutation (sort_desc key l) l.
Proof.
  induction l as [|x l IH]; simpl; [reflexivity|].
  rewrite insert_desc_perm. now constructor.
Qed.

Lemma insert_desc_sorted x l :
  sorted_desc key l -> sorted_desc key (insert_desc key x l).
Proof.
  unfold sorted_desc. induction 1 as [|y l Hs IH Hy]; simpl.
  - constructor; constructor.
  - destruct (lex_compare (key x) (key y)) eqn:Hc.
    + constructor; [now constructor|]. constructor.
      * apply lex_le_of_not_lt. congruence.
      * eapply Forall_impl; [|exact Hy]. intros z Hz. simpl in Hz.
        apply (lex_le_trans _ (key y)); [exact Hz|].
        apply lex_le_of_not_lt. congruence.
    + constructor; [exact IH|].
      eapply Permutation_Forall;
        [apply Permutation_sym, insert_desc_perm|].
      constructor; [|exact Hy]. unfold lex_le. congruence.
    + constructor; [now constructor|]. constructor.
      * apply lex_le_of_not_lt. congruence.
      * eapply Forall_impl; [|exact Hy]. intros z Hz. simpl in Hz.
        apply (lex_le_trans _ (key y)); [exact Hz|].
        apply lex_le_of_not_lt. congruence.
Qed.

(** The result of the sort is in descending key order. *)
Lemma sort_desc_sorted l : sorted_desc key (sort_desc key l).
Proof.
  induction l as [|x l IH]; simpl; [constructor|].
  now apply insert_desc_sorted.
Qed.

End SortingFacts.

(** ** The line parser *)

Module ExtractorFacts.
Import Str StrFacts Extractor.

Lemma survives_count l : survives l = (3 <=? count PIPE l).
Proof.
  unfold survives. rewrite splitn_length.
  destruct (Nat.leb_spec 3 (count PIPE l)); simpl.
  - destruct (count PIPE l) as [|[|[|[|n]]]]; try lia; reflexivity.
  - destruct (count PIPE l) as [|[|[|n]]]; try lia; reflexivity.
Qed.

(** The blank-line test never drops a line the field count would keep. *)
Lemma parse_line_spec r p l :
  parse_line r p l =
  if survives l then Some (record_of r p (splitn PIPE l 4)) else None.
Proof.
  unfold parse_line. destruct (strip l) eqn:Hs; simpl.
  - rewrite survives_count.
    now rewrite (count_pipe_spaces _ (strip_nil_spaces _ Hs)).
  - unfold survives.
    destruct (Nat.ltb_spec (List.length (splitn PIPE l 4)) 4);
      destruct (Nat.leb_spec 4 (List.length (splitn PIPE l 4)));
      try lia; reflexivity.
Qed.

Lemma fold_append (A B : Type) (f : A -> option B) (l : list A) :
  forall acc,
    fold_left (fun acc x => match f x with None => acc | Some b => acc ++ [b] end)
              l acc
    = acc ++ flat_map (fun x => match f x with None => [] | Some b => [b] end) l.
Proof.
  induction l as [|x l IH]; intros acc; simpl.
  - now rewrite app_nil_r.
  - rewrite IH. destruct (f x); simpl; [now rewrite <- app_assoc | reflexivity].
Qed.

Lemma parse_commits_spec r p out :
  parse_commits r p out =
  map (fun l => record_of r p (splitn PIPE l 4))
      (filter survives (lines_of out)).
Proof.
  unfold parse_commits. rewrite fold_append. simpl.
  induction (lines_of out) as [|l L IH]; simpl; [reflexivity|].
  rewrite parse_line_spec, IH. destruct (survives l); reflexivity.
Qed.

(** *** Stripping the output does not change which lines survive *)

Lemma split_snoc sep s c :
  split sep (s ++ [c]) =
  if Ascii.eqb c sep then split sep s ++ [[]] else snoc_last c (split sep s).
Proof.
  induction s as [|x s IH]; simpl.
  - destruct (Ascii.eqb c sep); reflexivity.
  - rewrite IH. pose proof (split_nonempty sep s) as Hne.
    destruct (Ascii.eqb x sep), (Ascii.eqb c sep); simpl;
      destruct (split sep s) as [|f [|g L]]; try congruence; reflexivity.
Qed.

Lemma splitn_snoc sep c : Ascii.eqb c sep = false ->
  forall s n, splitn sep (s ++ [c]) n = snoc_last c (splitn sep s n).
Proof.
  intros Hc. induction s as [|x s IH]; intros n; simpl.
  - destruct n; [reflexivity|]. now rewrite Hc.
  - destruct n as [|m]; [reflexivity|].
    destruct (Ascii.eqb x sep).
    + rewrite IH. pose proof (splitn_nonempty sep s m).
      destruct (splitn sep s m); [congruence | reflexivity].
    + rewrite IH. pose proof (splitn_nonempty sep s (S m)).
      destruct (splitn sep s (S m)) as [|f [|g L]]; try congruence; reflexivity.
Qed.

Lemma survives_cons_space c l : isspace c = true -> survives (c :: l) = survives l.
Proof.
  intros Hc. rewrite !survives_count, count_cons.
  now rewrite (isspace_not_pipe _ Hc).
Qed.

Lemma survives_snoc_space c l : isspace c = true -> survives (l ++ [c]) = survives l.
Proof.
  intros Hc. rewrite !survives_count, count_app, count_cons.
  rewrite (isspace_not_pipe _ Hc). simpl. unfold count. simpl.
  now rewrite Nat.add_0_r.
Qed.

(** The number of surviving physical lines of a text. *)
Lemma surviving_cons c s : isspace c = true ->
  List.length (filter survives (split LF (c :: s)))
  = List.length (filter survives (split LF s)).
Proof.
  intros Hc. simpl. destruct (Ascii.eqb c LF); [reflexivity|].
  pose proof (split_nonempty LF s).
  destruct (split LF s) as [|f L]; [congruence|]. simpl.
  rewrite (survives_cons_space c f Hc). destruct (survives f); reflexivity.
Qed.

Lemma filter_snoc_last c (L : list text) : isspace c = true -> L <> [] ->
  List.length (filter survives (snoc_last c L)) = List.length (filter survives L).
Proof.
  intros Hc. induction L as [|f L IH]; [congruence|]. intros _.
  destruct L as [|g L].
  - simpl. rewrite (survives_snoc_space c f Hc). destruct (survives f); reflexivity.
  - change (snoc_last c (f :: g :: L)) with (f :: snoc_last c (g :: L)).
    cbn [filter]. destruct (survives f); cbn [List.length];
      rewrite IH by discriminate; reflexivity.
Qed.

Lemma surviving_snoc c s : isspace c = true ->
  List.length (filter survives (split LF (s ++ [c])))
  = List.length (filter survives (split LF s)).
Proof.
  intros Hc. rewrite split_snoc. destruct (Ascii.eqb c LF).
  - rewrite filter_app, length_app. simpl. lia.
  - apply filter_snoc_last; [assumption | apply split_nonempty].
Qed.

Lemma surviving_app_spaces s suf :
  Forall (fun c => isspace c = true) suf ->
  List.length (filter survives (split LF (s ++ suf)))
  = List.length (filter survives (split LF s)).
Proof.
  induction suf as [|c suf IH] using rev_ind; intros F.
  - now rewrite app_nil_r.
  - apply Forall_app in F. destruct F as [F Fc].
    rewrite app_assoc, surviving_snoc by now inversion Fc.
    now apply IH.
Qed.

Lemma surviving_spaces_app pre s :
  Forall (fun c => isspace c = true) pre ->
  List.length (filter survives (split LF (pre ++ s)))
  = List.length (filter survives (split LF s)).
Proof.
  induction 1 as [|c pre Hc _ IH]; [reflexivity|].
  simpl app. now rewrite surviving_cons.
Qed.

Lemma surviving_strip s :
  List.length (filter survives (split LF (strip s)))
  = List.length (filter survives (split LF s)).
Proof.
  unfold strip.
  destruct (lstrip_spec s) as [pre [E F]].
  destruct (rstrip_spec (lstrip s)) as [suf [E' F']].
  rewrite E at 2. rewrite surviving_spaces_app by assumption.
  rewrite E' at 2. now rewrite surviving_app_spaces.
Qed.

(** *** Stripping the output keeps hash and subject from going blank *)

Lemma nonblank_cons_space c f : isspace c = true -> nonblank (c :: f) = nonblank f.
Proof. intros Hc. unfold nonblank. simpl. now rewrite Hc. Qed.

Lemma nonblank_snoc_space c f : isspace c = true -> nonblank (f ++ [c]) = nonblank f.
Proof.
  intros Hc. unfold nonblank. rewrite existsb_app. simpl. rewrite Hc.
  simpl. now rewrite orb_false_r.
Qed.

Lemma nonblank_not_nil f : nonblank f = true -> f <> [].
Proof. destruct f; [discriminate | discriminate]. Qed.

Lemma nonblank_nth_snoc_last c : isspace c = true ->
  forall (L : list text) i, L <> [] ->
    nonblank (nth i (snoc_last c L) []) = nonblank (nth i L []).
Proof.
  intros Hc. induction L as [|f L IH]; intros i Hne; [congruence|].
  destruct L as [|g L].
  - destruct i as [|[|i]]; simpl; try reflexivity.
    now apply nonblank_snoc_space.
  - change (snoc_last c (f :: g :: L)) with (f :: snoc_last c (g :: L)).
    destruct i as [|i]; [reflexivity|]. cbn [nth]. apply IH. discriminate.
Qed.

Lemma fields_present_cons c l :
  isspace c = true -> fields_present (c :: l) -> fields_present l.
Proof.
  intros Hc H Hs. unfold fields_present in H.
  rewrite (survives_cons_space c l Hc) in H. specialize (H Hs).
  change (splitn PIPE (c :: l) 4)
    with (if Ascii.eqb c PIPE then [] :: splitn PIPE l 3
          else cons_head c (splitn PIPE l 4)) in H.
  rewrite (isspace_not_pipe c Hc) in H.
  pose proof (splitn_nonempty PIPE l 4) as Hne.
  destruct (splitn PIPE l 4) as [|f L]; [congruence|].
  cbn [cons_head nth] in H. cbn [nth].
  rewrite (nonblank_cons_space c f Hc) in H. exact H.
Qed.

Lemma fields_present_snoc c l :
  isspace c = true -> fields_present (l ++ [c]) -> fields_present l.
Proof.
  intros Hc H Hs. unfold fields_present in H.
  rewrite (survives_snoc_space c l Hc) in H. specialize (H Hs).
  rewrite (splitn_snoc PIPE c (isspace_not_pipe c Hc)) in H.
  rewrite !(nonblank_nth_snoc_last c Hc) in H by apply splitn_nonempty.
  exact H.
Qed.

Lemma fields_present_nil : fields_present [].
Proof. intros H. discriminate H. Qed.

Lemma present_cons c s : isspace c = true ->
  Forall fields_present (split LF (c :: s)) -> Forall fields_present (split LF s).
Proof.
  intros Hc. simpl. destruct (Ascii.eqb c LF).
  - intros H. now inversion H.
  - pose proof (split_nonempty LF s).
    destruct (split LF s) as [|f L]; [congruence|]. simpl.
    intros H0. inversion H0; subst. constructor; [|assumption].
    now apply (fields_present_cons c).
Qed.

Lemma present_snoc_last c (L : list text) : isspace c = true -> L <> [] ->
  Forall fields_present (snoc_last c L) -> Forall fields_present L.
Proof.
  intros Hc. induction L as [|f L IH]; [congruence|]. intros _.
  destruct L as [|g L].
  - simpl. intros H. inversion H; subst. constructor; [|constructor].
    now apply (fields_present_snoc c).
  - change (snoc_last c (f :: g :: L)) with (f :: snoc_last c (g :: L)).
    intros H. inversion H; subst. constructor; [assumption|].
    apply IH; [discriminate | assumption].
Qed.

Lemma present_snoc c s : isspace c = true ->
  Forall fields_present (split LF (s ++ [c])) -> Forall fields_present (split LF s).
Proof.
  intros Hc. rewrite split_snoc. destruct (Ascii.eqb c LF).
  - intros H. apply Forall_app in H. tauto.
  - apply present_snoc_last; [assumption | apply split_nonempty].
Qed.

Lemma present_strip s :
  Forall fields_present (split LF s) -> Forall fields_present (lines_of s).
Proof.
  unfold lines_of, strip.
  destruct (lstrip_spec s) as [pre [E F]].
  destruct (rstrip_spec (lstrip s)) as [suf [E' F']].
  intros H. rewrite E in H. clear E.
  assert (H1 : Forall fields_present (split LF (lstrip s))).
  { induction F as [|c pre Hc _ IH]; [exact H|].
    apply IH. now apply (present_cons c). }
  clear H. rewrite E' in H1. clear E'.
  induction suf as [|c suf IH] using rev_ind.
  - now rewrite app_nil_r in H1.
  - apply Forall_app in F'. destruct F' as [F' Fc]. apply IH; [assumption|].
    rewrite app_assoc in H1. apply (present_snoc c); [now inversion Fc | exact H1].
Qed.

(** *** Lines joined by newlines split back into the lines *)

Lemma split_no_sep sep l : ~ In sep l -> split sep l = [l].
Proof.
  induction l as [|c l IH]; intros H; [reflexivity|]. simpl.
  destruct (Ascii.eqb_spec c sep) as [->|_].
  - exfalso. apply H. now left.
  - rewrite IH; [reflexivity|]. intros Hin. apply H. now right.
Qed.

Lemma split_app_sep sep l t :
  ~ In sep l -> split sep (l ++ sep :: t) = l :: split sep t.
Proof.
  induction l as [|c l IH]; intros H; simpl.
  - now rewrite Ascii.eqb_refl.
  - destruct (Ascii.eqb_spec c sep) as [->|_].
    + exfalso. apply H. now left.
    + rewrite IH; [reflexivity|]. intros Hin. apply H. now right.
Qed.

Lemma split_join lines :
  Forall (fun l => ~ In LF l) lines -> lines <> [] ->
  split LF (join [LF] lines) = lines.
Proof.
  induction 1 as [|l lines Hl _ IH]; [congruence|]. intros _.
  destruct lines as [|l2 rest].
  - simpl. now apply split_no_sep.
  - change (join [LF] (l :: l2 :: rest)) with (l ++ LF :: join [LF] (l2 :: rest)).
    rewrite split_app_sep by assumption. f_equal. apply IH. discriminate.
Qed.

End ExtractorFacts.

(** ** The extractor: claims on the log format *)

(** C2.  The extractor splits the (stripped) output into physical lines,
    splits each line on the delimiter into at least 1 and at most 5
    fields, drops the lines with fewer than 4 fields and makes exactly
    one record of each other line, in order, from its fields; the body
    is empty when there is no 5th field.  The number of records is also
    the number of physical lines of the unstripped output that have at
    least 4 fields. *)
Theorem extractor_one_record_per_line (repo_name repo_project stdout : text) :
  let fields_of := fun line => Str.splitn Str.PIPE line 4 in
  let lines := Str.split Str.LF (Str.strip stdout) in
  let kept := filter (fun line => 4 <=? List.length (fields_of line)) lines in
  let records := Extractor.parse_commits repo_name repo_project stdout in
  Forall (fun line => 1 <= List.length (fields_of line) <= 5) lines
  /\ records
     = map (fun line => Extractor.record_of repo_name repo_project (fields_of line))
           kept
  /\ Forall2 (fun line c =>
                repository c = repo_name /\ project c = repo_project
                /\ hash c = nth 0 (fields_of line) []
                /\ author_name c = nth 1 (fields_of line) []
                /\ date c = nth 2 (fields_of line) []
                /\ subject c = nth 3 (fields_of line) []
                /\ body c = match fields_of line with
                            | [_; _; _; _; b] => b
                            | _ => []
                            end)
             kept records
  /\ List.length records
     = List.length
         (filter (fun line => 4 <=? List.length (fields_of line))
                 (Str.split Str.LF stdout)).
Proof.
  intros fields_of lines kept records.
  assert (Hrec : records
     = map (fun line => Extractor.record_of repo_name repo_project (fields_of line))
           kept) by apply ExtractorFacts.parse_commits_spec.
  split; [|split; [exact Hrec|split]].
  - apply Forall_forall. intros line _. unfold fields_of.
    rewrite StrFacts.splitn_length. lia.
  - rewrite Hrec. clear Hrec records. subst kept.
    induction lines as [|line L IH]; [constructor|]. cbn [filter].
    destruct (4 <=? List.length (fields_of line)) eqn:Hk; [|exact IH].
    cbn [map]. constructor; [|exact IH].
    apply Nat.leb_le in Hk.
    assert (Hle : List.length (fields_of line) <= 5).
    { unfold fields_of. rewrite StrFacts.splitn_length. lia. }
    unfold Extractor.record_of. simpl.
    destruct (fields_of line) as [|a [|b [|c [|d [|e [|g m]]]]]];
      simpl in *; try lia; repeat split; reflexivity.
  - rewrite Hrec, length_map. subst kept lines.
    apply ExtractorFacts.surviving_strip.
Qed.

Lemma finish_perm cfg all_commits :
  Permutation (finish cfg all_commits) (select_authors cfg all_commits).
Proof. apply sort_desc_perm. Qed.

Lemma select_authors_In cfg all_commits c :
  In c (select_authors cfg all_commits) -> In c all_commits.
Proof.
  unfold select_authors. destruct (allow_list cfg); [|trivial].
  intros H. now apply filter_In in H.
Qed.

(** The final result holds only records that were extracted. *)
Lemma finish_In cfg all_commits c :
  In c (finish cfg all_commits) -> In c all_commits.
Proof.
  intros H. apply (select_authors_In cfg).
  now apply (Permutation_in c (finish_perm cfg all_commits)).
Qed.

(** C5, as stated, fails: the second row of a table in a commit body
    has four delimiters, so it becomes a record, and its hash is empty. *)
Lemma empty_hash_in_collection_result :
  ~ Forall (fun c => hash c <> [] /\ subject c <> [])
      (finish empty_config
         (Extractor.parse_commits (txt "repo") (txt "proj") Sample.table_log)).
Proof.
  intros H. vm_compute in H.
  inversion H as [|c1 l1 _ H1]; subst.
  inversion H1 as [|c2 l2 [Hh _] _]; subst.
  now apply Hh.
Qed.

(** C5, amended.  Every record the extractor returns carries, as hash
    and subject, the 1st and 4th field of a line that has at least 4
    fields, whatever they hold; the final result contains only such
    records, unchanged; and for an output made of N well-formed lines
    the extractor returns exactly N records, each with a non-empty hash
    and a non-empty subject. *)
Theorem extractor_records_of_wellformed_lines :
  (forall repo_name repo_project stdout,
      Forall (fun c =>
                exists line,
                  In line (Extractor.lines_of stdout)
                  /\ 4 <= List.length (Str.splitn Str.PIPE line 4)
                  /\ hash c = nth 0 (Str.splitn Str.PIPE line 4) []
                  /\ subject c = nth 3 (Str.splitn Str.PIPE line 4) [])
             (Extractor.parse_commits repo_name repo_project stdout))
  /\ (forall cfg all_commits c,
         In c (finish cfg all_commits) -> In c all_commits)
  /\ (forall repo_name repo_project lines,
         Forall Extractor.well_formed lines ->
         let records :=
           Extractor.parse_commits repo_name repo_project
             (Str.join [Str.LF] lines) in
         List.length records = List.length lines
         /\ Forall (fun c => hash c <> [] /\ subject c <> []) records).
Proof.
  split; [|split].
  - intros r p out. rewrite ExtractorFacts.parse_commits_spec.
    apply Forall_forall. intros c Hc. apply in_map_iff in Hc.
    destruct Hc as [line [<- Hl]]. apply filter_In in Hl.
    destruct Hl as [Hin Hs]. exists line. repeat split; try assumption.
    unfold Extractor.survives in Hs. now apply Nat.leb_le in Hs.
  - exact finish_In.
  - intros r p lines Hwf records. subst records.
    rewrite ExtractorFacts.parse_commits_spec.
    assert (Hall : Forall (fun l => Extractor.survives l = true) lines).
    { eapply Forall_impl; [|exact Hwf]. intros l Hl. apply Hl. }
    assert (Hfull : filter Extractor.survives lines = lines).
    { clear Hwf. induction Hall as [|l L Hl _ IH]; [reflexivity|].
      simpl. now rewrite Hl, IH. }
    split.
    + rewrite length_map. unfold Extractor.lines_of.
      rewrite ExtractorFacts.surviving_strip.
      destruct lines as [|l L]; [reflexivity|].
      rewrite ExtractorFacts.split_join; [now rewrite Hfull | | discriminate].
      eapply Forall_impl; [|exact Hwf]. intros l0 Hl0. apply Hl0.
    + assert (Hp : Forall Extractor.fields_present
                     (Extractor.lines_of (Str.join [Str.LF] lines))).
      { apply ExtractorFacts.present_strip.
        destruct lines as [|l L].
        - simpl. constructor; [apply ExtractorFacts.fields_present_nil|constructor].
        - rewrite ExtractorFacts.split_join; [| | discriminate].
          + eapply Forall_impl; [|exact Hwf]. intros l0 Hl0 _. apply Hl0.
          + eapply Forall_impl; [|exact Hwf]. intros l0 Hl0. apply Hl0. }
      apply Forall_forall. intros c Hc. apply in_map_iff in Hc.
      destruct Hc as [line [<- Hl]]. apply filter_In in Hl.
      destruct Hl as [Hin Hs].
      rewrite Forall_forall in Hp. destruct (Hp line Hin Hs) as [H0 H3].
      split; simpl; now apply ExtractorFacts.nonblank_not_nil.
Qed.

(** Two well-formed lines give two records. *)
Lemma extractor_records_of_wellformed_lines_witness :
  Forall Extractor.well_formed Sample.two_lines
  /\ List.length (Extractor.parse_commits (txt "repo") (txt "proj")
                    (Str.join [Str.LF] Sample.two_lines)) = 2.
Proof.
  assert (H : Forall Extractor.well_formed Sample.two_lines).
  { repeat constructor;
      try (intros H; vm_compute in H;
           repeat (destruct H as [H|H]; [discriminate H|]); exact H). }
  split; [exact H|].
  exact (proj1 (proj2 (proj2 extractor_records_of_wellformed_lines)
                  (txt "repo") (txt "proj") Sample.two_lines H)).
Defined.

(** ** The orchestrator: author allow-list and ordering *)

Lemma author_selected_In selected c :
  author_selected selected c = true <-> In (author_name c) selected.
Proof.
  unfold author_selected. rewrite existsb_exists. split.
  - intros [a [Hin Heq]]. apply text_eqb_eq in Heq. now subst.
  - intros H. exists (author_name c). split; [exact H | apply text_eqb_refl].
Qed.

Lemma filter_ext_perm (A : Type) (f g : A -> bool) (l : list A) :
  (forall x, f x = g x) -> filter f l = filter g l.
Proof.
  intros H. induction l as [|x l IH]; [reflexivity|]. simpl.
  now rewrite H, IH.
Qed.

(** C3.  With a non-empty allow-list configured, the result is a
    rearrangement of exactly the merged records whose author name is an
    element of the list (equality of character sequences, so case
    matters), and a record is in the result if and only if it was
    collected and its author is in the list; without a list, or with an
    empty one, the result is a rearrangement of all merged records. *)
Theorem author_allow_list_exact (cfg : config) (all_commits : list commit) :
  match selected_authors cfg with
  | Some (a :: rest) =>
      Permutation (finish cfg all_commits)
        (filter (fun c =>
                   if in_dec (list_eq_dec ascii_dec) (author_name c) (a :: rest)
                   then true else false)
                all_commits)
      /\ (forall c, In c (finish cfg all_commits)
                    <-> In c all_commits /\ In (author_name c) (a :: rest))
  | _ => Permutation (finish cfg all_commits) all_commits
  end.
Proof.
  pose proof (finish_perm cfg all_commits) as Hp.
  unfold select_authors, allow_list in Hp.
  destruct (selected_authors cfg) as [[|a rest]|]; try exact Hp.
  assert (Hf : filter (author_selected (a :: rest)) all_commits
               = filter (fun c =>
                   if in_dec (list_eq_dec ascii_dec) (author_name c) (a :: rest)
                   then true else false) all_commits).
  { apply filter_ext_perm. intros c.
    destruct (in_dec (list_eq_dec ascii_dec) (author_name c) (a :: rest)) as [Hin|Hn].
    - now apply author_selected_In.
    - destruct (author_selected (a :: rest) c) eqn:Hs; [|reflexivity].
      exfalso. apply Hn. now apply author_selected_In. }
  split.
  - now rewrite <- Hf.
  - intros c. split.
    + intros H. apply (Permutation_in c Hp) in H. apply filter_In in H.
      destruct H as [H1 H2]. split; [exact H1 | now apply author_selected_In].
    + intros [H1 H2]. apply (Permutation_in c (Permutation_sym Hp)).
      apply filter_In. split; [exact H1 | now apply author_selected_In].
Qed.

(** The allow-list [["Alice"]] keeps Alice's record and drops those of
    [Bob] and [alice]. *)
Lemma author_allow_list_exact_witness :
  let cfg := mkConfig None (Some [txt "Alice"]) None in
  let by_author := fun a d =>
    mkCommit (txt "repo") (txt "proj") Sample.sha a d
             (txt "subject") [] None in
  let all_commits :=
    [by_author (txt "Bob") (txt "2024-01-07 10:00:00 +0000");
     by_author (txt "Alice") (txt "2024-01-06 10:00:00 +0000");
     by_author (txt "alice") (txt "2024-01-05 10:00:00 +0000")] in
  finish cfg all_commits
  = [by_author (txt "Alice") (txt "2024-01-06 10:00:00 +0000")]
  /\ forall c, In c (finish cfg all_commits)
               <-> In c all_commits /\ In (author_name c) [txt "Alice"].
Proof.
  intros cfg by_author all_commits. split; [reflexivity|].
  exact (proj2 (author_allow_list_exact cfg all_commits)).
Defined.

(** C1, as stated, fails for the collection operation: it orders by the
    raw date string.  The table row of the sample has the date [" 2 "],
    which sorts last as a string but whose timestamp is the current
    time. *)
Lemma collection_not_in_timestamp_order :
  ~ sorted_desc (fun c => dt_fields (timestamp_of Sample.now c))
      (finish empty_config
         (Extractor.parse_commits (txt "repo") (txt "proj") Sample.table_log)).
Proof.
  unfold sorted_desc. intros H.
  apply StronglySorted_inv in H. destruct H as [_ H].
  apply Forall_inv in H. vm_compute in H. now apply H.
Qed.

Lemma skipn_exact (A : Type) (a b : list A) : skipn (List.length a) (a ++ b) = b.
Proof. induction a as [|x a IH]; [reflexivity | exact IH]. Qed.

Lemma new_events_app w fs' td' evs :
  new_events w (mkWorld fs' td' (trace w ++ evs)) = evs.
Proof. unfold new_events. simpl. apply skipn_exact. Qed.

Lemma new_events_same w : new_events w w = [].
Proof.
  unfold new_events. rewrite <- (app_nil_r (trace w)) at 2. apply skipn_exact.
Qed.

Lemma parse_dates_eq commits : forall i E w,
  parse_dates i commits E w = (Ok (dated (clock_now E w) i commits), w).
Proof.
  induction commits as [|c cs IH]; intros i E w; [reflexivity|].
  simpl. unfold bind, ask, get_world. rewrite IH. reflexivity.
Qed.

Lemma dated_rows now commits : forall i,
  map row_of (dated now i commits) = map row_of commits.
Proof.
  induction commits as [|c cs IH]; intros i; [reflexivity|].
  simpl. now rewrite IH.
Qed.

Lemma dated_timestamps now commits : forall i,
  Forall (fun c => exists k, parsed_date c = Some (timestamp_of (now k) c))
         (dated now i commits).
Proof.
  induction commits as [|c cs IH]; intros i; simpl; constructor.
  - exists i. reflexivity.
  - apply IH.
Qed.

(** What the renderer is handed: the records in descending order of
    their timestamps. *)
Lemma logbook_order now commits :
  let l := sort_by_parsed_date (dated now 0 commits) in
  sorted_desc parsed_key l
  /\ Forall (fun c => exists k, parsed_date c = Some (timestamp_of (now k) c)) l
  /\ Permutation (map row_of l) (map row_of commits).
Proof.
  intros l. subst l. unfold sort_by_parsed_date. split; [|split].
  - apply sort_desc_sorted.
  - eapply Permutation_Forall;
      [apply Permutation_sym, sort_desc_perm | apply dated_timestamps].
  - rewrite <- (dated_rows now commits 0).
    apply Permutation_map, sort_desc_perm.
Qed.

(** What [generate_logbook] does with at least one record: when the
    sections cannot be built it raises before anything is written. *)
Lemma generate_logbook_cases c cs base_name E w :
  let l := sort_by_parsed_date (dated (clock_now E w) 0 (c :: cs)) in
  let md_file := base_name ++ txt ".md" in
  let html_file := base_name ++ txt ".html" in
  let w1 := mkWorld (md_file :: fs w) (temp_dirs w)
                    (trace w ++ [EvWrote md_file (MarkdownLog l)]) in
  generate_logbook (c :: cs) base_name E w
  = match log_sections l with
    | inl e => (Raise (Exc e), w)
    | inr _ =>
        match write_error E w md_file with
        | Some e => (Raise (Exc e), w)
        | None =>
            match write_error E w1 html_file with
            | Some e => (Raise (Exc e), w1)
            | None =>
                (Ok [md_file; html_file],
                 mkWorld (html_file :: fs w1) (temp_dirs w1)
                         (trace w1 ++ [EvWrote html_file (HtmlLog l)]))
            end
        end
    end.
Proof.
  intros l md_file html_file w1. subst l md_file html_file w1.
  unfold generate_logbook, bind. rewrite parse_dates_eq.
  unfold _generate_markdown_log, _generate_html_log, bind.
  destruct (log_sections _) as [e|sections]; [reflexivity|].
  unfold write_file, ret. cbn [fs temp_dirs trace].
  destruct (write_error E w (base_name ++ txt ".md")) as [e|]; [reflexivity|].
  destruct (write_error E _ (base_name ++ txt ".html")) as [e|]; reflexivity.
Qed.

(** C1, amended.  The collection operation orders its result by the raw
    date string, descending; the timestamps (the first 19 characters of
    the date parsed against the pattern, the current time when that
    fails) are taken by the logbook generation, which orders the
    collected records by timestamp descending before it renders them:
    every logbook it writes holds the same records in that order. *)
Theorem collection_and_logbook_order :
  (forall cfg all_commits,
      sorted_desc (fun c => codes (date c)) (finish cfg all_commits))
  /\ (forall commits base_name E w,
         Forall (fun ev =>
                   match ev with
                   | EvWrote _ (MarkdownLog l) | EvWrote _ (HtmlLog l) =>
                       sorted_desc parsed_key l
                       /\ Forall (fun c =>
                                    exists k,
                                      parsed_date c
                                      = Some (timestamp_of (clock_now E w k) c))
                                 l
                       /\ Permutation (map row_of l) (map row_of commits)
                   | _ => True
                   end)
                (new_events w (snd (generate_logbook commits base_name E w)))).
Proof.
  split.
  - intros cfg all_commits. apply sort_desc_sorted.
  - intros commits base_name E w.
    destruct commits as [|c cs].
    + simpl. unfold bind, log, emit, ret. simpl.
      rewrite new_events_app. repeat constructor.
    + pose proof (logbook_order (clock_now E w) (c :: cs)) as Ho.
      cbv zeta in Ho.
      rewrite generate_logbook_cases.
      destruct (log_sections _) as [e|sections].
      { simpl. rewrite new_events_same. constructor. }
      destruct (write_error E w (base_name ++ txt ".md")) as [e|].
      * simpl. rewrite new_events_same. constructor.
      * match goal with
        | |- context [write_error E ?w1 ?p] => destruct (write_error E w1 p) as [e|]
        end.
        -- simpl. rewrite new_events_app. constructor; [exact Ho | constructor].
        -- simpl. rewrite <- app_assoc. rewrite new_events_app.
           constructor; [exact Ho|]. constructor; [exact Ho | constructor].
Qed.

(** ** Reasoning about effectful code *)

Module EffFacts.

Lemma emits_impl (A : Type) (P Q : event -> Prop) (m : M A) :
  (forall ev, P ev -> Q ev) -> emits P m -> emits Q m.
Proof.
  intros H Hm E w. destruct (Hm E w) as [evs [Ht Hf]].
  exists evs. split; [exact Ht | eapply Forall_impl; eauto].
Qed.

Lemma emits_pure (A : Type) (P : event -> Prop) (m : M A) :
  (forall E w, snd (m E w) = w) -> emits P m.
Proof.
  intros H E w. exists []. rewrite H, app_nil_r. split; [reflexivity | constructor].
Qed.

Lemma emits_ret (A : Type) P (a : A) : emits P (ret a).
Proof. now apply emits_pure. Qed.

Lemma emits_raise (A : Type) P r : emits P (@raise A r).
Proof. now apply emits_pure. Qed.

Lemma emits_get_world P : emits P get_world.
Proof. now apply emits_pure. Qed.

Lemma emits_ask P : emits P ask.
Proof. now apply emits_pure. Qed.

Lemma emits_emit (P : event -> Prop) ev : P ev -> emits P (emit ev).
Proof.
  intros H E w. exists [ev]. split; [reflexivity | now constructor].
Qed.

Lemma emits_log (P : event -> Prop) lvl m : P (EvLog lvl m) -> emits P (log lvl m).
Proof. apply emits_emit. Qed.

Lemma emits_bind (A B : Type) P (m : M A) (k : A -> M B) :
  emits P m -> (forall a, emits P (k a)) -> emits P (bind m k).
Proof.
  intros Hm Hk E w. unfold bind.
  destruct (Hm E w) as [evs [Ht Hf]].
  destruct (m E w) as [[a|r] w1]; simpl in *.
  - destruct (Hk a E w1) as [evs2 [Ht2 Hf2]].
    exists (evs ++ evs2). split.
    + now rewrite Ht2, Ht, app_assoc.
    + apply Forall_app. now split.
  - exists evs. now split.
Qed.

Lemma emits_try_except (A : Type) P (m : M A) h :
  emits P m -> (forall e k, h e = Some k -> emits P k) ->
  emits P (try_except m h).
Proof.
  intros Hm Hh E w. unfold try_except.
  destruct (Hm E w) as [evs [Ht Hf]].
  destruct (m E w) as [[a|[e|]] w1]; simpl in *;
    try (exists evs; now split).
  destruct (h e) as [k|] eqn:Hk; [|exists evs; now split].
  destruct (Hh e k Hk E w1) as [evs2 [Ht2 Hf2]].
  exists (evs ++ evs2). split.
  - now rewrite Ht2, Ht, app_assoc.
  - apply Forall_app. now split.
Qed.

Lemma emits_finally (A : Type) P (m : M A) f :
  emits P m -> emits P f -> emits P (finally m f).
Proof.
  intros Hm Hf E w. unfold finally.
  destruct (Hm E w) as [evs [Ht Hp]].
  destruct (m E w) as [r w1]; simpl in *.
  destruct (Hf E w1) as [evs2 [Ht2 Hp2]].
  exists (evs ++ evs2). split.
  - destruct (f E w1) as [[u|r'] w2]; simpl in *;
      now rewrite Ht2, Ht, app_assoc.
  - apply Forall_app. now split.
Qed.


Lemma emits_rmtree (P : event -> Prop) dir :
  P (EvRmtree dir) -> emits P (rmtree dir).
Proof.
  intros H E w. exists [EvRmtree dir]. split; [|now constructor].
  unfold rmtree. destruct (rmtree_error E w dir); reflexivity.
Qed.

Lemma emits_subprocess_run (P : event -> Prop) argv cwd shell :
  P (EvRun argv cwd shell) -> emits P (subprocess_run argv cwd shell).
Proof.
  intros H E w. exists [EvRun argv cwd shell]. split; [|now constructor].
  unfold subprocess_run. destruct (run_process E w argv cwd shell); reflexivity.
Qed.


Lemma emits_push_temp_dir P d : emits P (push_temp_dir d).
Proof.
  intros E w. exists []. simpl. rewrite app_nil_r. split; [reflexivity | constructor].
Qed.

(** *** Returning normally *)

Lemma returns_ret (A : Type) (a : A) : returns (ret a).
Proof. intros E w. now exists a. Qed.

Lemma returns_log lvl m : returns (log lvl m).
Proof. intros E w. now exists tt. Qed.

Lemma returns_get_world : returns get_world.
Proof. intros E w. now exists w. Qed.

Lemma returns_ask : returns ask.
Proof. intros E w. now exists E. Qed.

Lemma returns_bind (A B : Type) (m : M A) (k : A -> M B) :
  returns m -> (forall a, returns (k a)) -> returns (bind m k).
Proof.
  intros Hm Hk E w. unfold bind. destruct (Hm E w) as [a Ha].
  destruct (m E w) as [[a'|r] w1]; simpl in *; [|discriminate].
  apply Hk.
Qed.

Lemma returns_uninterrupted (A : Type) (m : M A) : returns m -> uninterrupted m.
Proof. intros H E w. destruct (H E w) as [a Ha]. rewrite Ha. discriminate. Qed.

Lemma uninterrupted_ret (A : Type) (a : A) : uninterrupted (ret a).
Proof. apply returns_uninterrupted, returns_ret. Qed.

Lemma uninterrupted_raise_exc (A : Type) e : uninterrupted (@raise A (Exc e)).
Proof. intros E w. discriminate. Qed.

Lemma uninterrupted_bind (A B : Type) (m : M A) (k : A -> M B) :
  uninterrupted m -> (forall a, uninterrupted (k a)) -> uninterrupted (bind m k).
Proof.
  intros Hm Hk E w. unfold bind. specialize (Hm E w).
  destruct (m E w) as [[a|r] w1]; simpl in *; [apply Hk|].
  intros Heq. injection Heq as ->. now apply Hm.
Qed.

Lemma uninterrupted_makedirs d : uninterrupted (makedirs d).
Proof. intros E w. unfold makedirs. destruct (makedirs_error E w d); discriminate. Qed.

Lemma uninterrupted_rmtree d : uninterrupted (rmtree d).
Proof. intros E w. unfold rmtree. destruct (rmtree_error E w d); discriminate. Qed.

Lemma uninterrupted_subprocess_run argv cwd shell :
  uninterrupted (subprocess_run argv cwd shell).
Proof.
  intros E w. unfold subprocess_run.
  destruct (run_process E w argv cwd shell); discriminate.
Qed.

Lemma uninterrupted_write_file p d : uninterrupted (write_file p d).
Proof. intros E w. unfold write_file. destruct (write_error E w p); discriminate. Qed.

Lemma uninterrupted_try_except (A : Type) (m : M A) h :
  uninterrupted m -> (forall e k, h e = Some k -> uninterrupted k) ->
  uninterrupted (try_except m h).
Proof.
  intros Hm Hh E w. unfold try_except. specialize (Hm E w).
  destruct (m E w) as [[a|[e|]] w1]; simpl in *; try discriminate.
  - destruct (h e) as [k|] eqn:Hk; [now apply (Hh e k) | discriminate].
  - congruence.
Qed.

Lemma uninterrupted_finally (A : Type) (m : M A) f :
  uninterrupted m -> returns f -> uninterrupted (finally m f).
Proof.
  intros Hm Hf E w. unfold finally. specialize (Hm E w).
  destruct (m E w) as [r w1]. destruct (Hf E w1) as [u Hu].
  destruct (f E w1) as [[u'|r'] w2]; simpl in *; [exact Hm | discriminate].
Qed.

(** An [except Exception] with a handler for every exception turns
    code that is never interrupted into code that returns. *)
Lemma returns_try_except (A : Type) (m : M A) h :
  uninterrupted m -> (forall e, exists k, h e = Some k /\ returns k) ->
  returns (try_except m h).
Proof.
  intros Hm Hh E w. unfold try_except. specialize (Hm E w).
  destruct (m E w) as [[a|[e|]] w1]; simpl in *.
  - now exists a.
  - destruct (Hh e) as [k [-> Hk]]. apply Hk.
  - congruence.
Qed.

Lemma returns_finally (A : Type) (m : M A) f :
  returns m -> returns f -> returns (finally m f).
Proof.
  intros Hm Hf E w. unfold finally. destruct (Hm E w) as [a Ha].
  destruct (m E w) as [r w1]. destruct (Hf E w1) as [u Hu].
  destruct (f E w1) as [[u'|r'] w2]; simpl in *; [now exists a | discriminate].
Qed.

End EffFacts.

Create HintDb eff.

#[local] Hint Resolve EffFacts.emits_ret EffFacts.emits_raise
  EffFacts.emits_get_world EffFacts.emits_ask EffFacts.emits_push_temp_dir
  EffFacts.returns_ret EffFacts.returns_log EffFacts.returns_get_world
  EffFacts.returns_ask EffFacts.uninterrupted_ret
  EffFacts.uninterrupted_raise_exc EffFacts.uninterrupted_makedirs
  EffFacts.uninterrupted_rmtree EffFacts.uninterrupted_subprocess_run
  EffFacts.uninterrupted_write_file : eff.

(** ** The workspace manager *)

(** What [_cleanup_directory] does, case by case. *)
Lemma cleanup_directory_cases (directory : text) (E : env) (w : world) :
  let fallback := [txt "rmdir"; txt "/s"; txt "/q"; directory] in
  let base := Path.basename directory in
  let w1 := mkWorld (fs w) (temp_dirs w) (trace w ++ [EvRmtree directory]) in
  let r := _cleanup_directory directory E w in
  fst r = Ok tt
  /\ temp_dirs (snd r) = temp_dirs w
  /\ new_events w (snd r)
     = if negb (path_exists (fs w) directory) then []
       else
         match rmtree_error E w directory with
         | None => [EvRmtree directory; EvLog LInfo (MsgCleaned base)]
         | Some PermissionError =>
             [EvRmtree directory; EvRun fallback None true;
              match run_process E w1 fallback None true with
              | Completed _ _ _ => EvLog LInfo (MsgCleanedWindows base)
              | RunRaises e' => EvLog LWarning (MsgCouldNotCleanUp base e')
              end]
         | Some e =>
             [EvRmtree directory; EvLog LWarning (MsgErrorCleaningUp base e)]
         end.
Proof.
  intros fallback base w1 r. subst r.
  unfold _cleanup_directory, try_except, bind, get_world.
  destruct (path_exists (fs w) directory) eqn:Hex; simpl.
  2:{ rewrite new_events_same. auto. }
  unfold rmtree. destruct (rmtree_error E w directory) as [e|] eqn:Hrm.
  2:{ simpl. rewrite <- app_assoc. rewrite new_events_app. auto. }
  destruct e; simpl;
    try (rewrite <- app_assoc; rewrite new_events_app; auto).
  unfold subprocess_run. simpl. fold w1. fold fallback.
  destruct (run_process E w1 fallback None true) as [rc out err|e'];
    subst w1; simpl; rewrite <- !app_assoc; simpl;
    rewrite new_events_app; auto.
Qed.

Lemma cleanup_directory_returns d : returns (_cleanup_directory d).
Proof.
  intros E w. exists tt. apply (cleanup_directory_cases d E w).
Qed.

(** C9, as stated, fails: deletion is refused, the fallback command
    fails with status 1, the directory is still there, and no warning
    is logged (the log says the directory was cleaned up). *)
Lemma failed_fallback_logs_no_warning :
  let w := initial [Sample.workspace] in
  let w' := snd (_cleanup_directory Sample.workspace Sample.locked_env w) in
  rmtree_error Sample.locked_env w Sample.workspace = Some PermissionError
  /\ path_exists (fs w') Sample.workspace = true
  /\ trace w'
     = [EvRmtree Sample.workspace;
        EvRun [txt "rmdir"; txt "/s"; txt "/q"; Sample.workspace] None true;
        EvLog LInfo (MsgCleanedWindows (txt "temp_git_clone_1700000000000"))]
  /\ ~ Exists is_warning (trace w').
Proof.
  intros w w'. split; [reflexivity|]. split; [reflexivity|].
  assert (Ht : trace w'
     = [EvRmtree Sample.workspace;
        EvRun [txt "rmdir"; txt "/s"; txt "/q"; Sample.workspace] None true;
        EvLog LInfo (MsgCleanedWindows (txt "temp_git_clone_1700000000000"))])
    by reflexivity.
  split; [exact Ht|]. rewrite Ht. intros H.
  repeat (apply Exists_cons in H; destruct H as [H|H]; [exact H|]).
  now apply Exists_nil in H.
Qed.

(** C9, amended.  The cleanup never raises: it returns normally for
    every directory, whatever the deletion does.  When the recursive
    deletion raises a permission error it runs the forced-deletion
    command once; it logs a warning when that command raises, and when
    the deletion raises any other error; the exit status of the fallback
    command is not inspected, so a fallback that completes is logged as
    a cleanup. *)
Theorem cleanup_never_fatal (directory : text) (E : env) (w : world) :
  let fallback := [txt "rmdir"; txt "/s"; txt "/q"; directory] in
  let base := Path.basename directory in
  let w1 := mkWorld (fs w) (temp_dirs w) (trace w ++ [EvRmtree directory]) in
  let r := _cleanup_directory directory E w in
  fst r = Ok tt
  /\ new_events w (snd r)
     = if negb (path_exists (fs w) directory) then []
       else
         match rmtree_error E w directory with
         | None => [EvRmtree directory; EvLog LInfo (MsgCleaned base)]
         | Some PermissionError =>
             [EvRmtree directory; EvRun fallback None true;
              match run_process E w1 fallback None true with
              | Completed _ _ _ => EvLog LInfo (MsgCleanedWindows base)
              | RunRaises e' => EvLog LWarning (MsgCouldNotCleanUp base e')
              end]
         | Some e =>
             [EvRmtree directory; EvLog LWarning (MsgErrorCleaningUp base e)]
         end.
Proof.
  intros fallback base w1 r.
  destruct (cleanup_directory_cases directory E w) as [H1 [_ H2]].
  split; assumption.
Qed.

(** ** The history extractor and the fetcher *)

(** What [_get_commit_history] does, case by case: whatever the log
    command does, a list is returned. *)
Lemma get_commit_history_cases repo_path repo_name repo_project f E w :
  let w1 := add_events w [EvRun (log_command f) (Some repo_path) false] in
  _get_commit_history repo_path repo_name repo_project f E w
  = match run_process E w (log_command f) (Some repo_path) false with
    | Completed rc out err =>
        if (rc =? 0)%Z
        then
          let commits := Extractor.parse_commits repo_name repo_project out in
          (Ok commits,
           add_events w1 [EvLog LInfo (MsgExtracted (List.length commits) repo_name)])
        else (Ok [], add_events w1 [EvLog LError (MsgGitLogFailed repo_name err)])
    | RunRaises e =>
        (Ok [],
         add_events w1
           [EvLog LError (if is_TimeoutExpired e then MsgLogTimeout repo_name
                          else MsgLogError repo_name e)])
    end.
Proof.
  intros w1. unfold _get_commit_history, try_except, bind, subprocess_run.
  destruct (run_process E w (log_command f) (Some repo_path) false)
    as [rc out err|e].
  - destruct (rc =? 0)%Z; reflexivity.
  - destruct (is_TimeoutExpired e); reflexivity.
Qed.

Lemma get_commit_history_returns p n pr f : returns (_get_commit_history p n pr f).
Proof.
  intros E w. rewrite get_commit_history_cases.
  destruct (run_process E w (log_command f) (Some p) false) as [rc out err|e].
  - destruct (rc =? 0)%Z; eexists; reflexivity.
  - eexists; reflexivity.
Qed.

(** C10.  A descriptor whose url is missing or empty is answered at
    once: the empty list is returned and the only effect is the error
    line of the log, so no clone, fetch or log command runs and no
    workspace is made; in the merge such a result adds nothing. *)
Theorem missing_url_yields_nothing
  (name project : option text) (f : filters) (E : env) (w : world) :
  let repo_name := get_or name (txt "unknown") in
  let w' := add_events w [EvLog LError (MsgNoUrl repo_name)] in
  _process_repository (RepoInfo.mk name None project) f E w = (Ok [], w')
  /\ _process_repository (RepoInfo.mk name (Some []) project) f E w = (Ok [], w')
  /\ new_events w w' = [EvLog LError (MsgNoUrl repo_name)]
  /\ (forall repo rest all_commits,
         collect ((repo, Ok []) :: rest) all_commits
         = bind (wait_point (S (List.length rest)))
                (fun _ => collect rest all_commits)).
Proof.
  intros repo_name w'. repeat split.
  - apply new_events_app.
  - intros repo rest all_commits. simpl. now rewrite app_nil_r.
Qed.

(** C8.  When the url is an existing local path, the repository is
    processed by running the log command in that path: apart from two
    lines of the log that is the only effect, so nothing is cloned, no
    directory is made and no workspace is recorded. *)
Theorem local_path_used_directly
  (name project : option text) (repo_url : text) (f : filters)
  (E : env) (w : world) :
  truthy repo_url = true ->
  path_exists (fs w) repo_url = true ->
  let repo_name := get_or name (txt "unknown") in
  let repo_project := get_or project (txt "Unknown") in
  let run := _process_repository (RepoInfo.mk name (Some repo_url) project) f E w in
  run = _get_commit_history repo_url repo_name repo_project f E
          (add_events w [EvLog LInfo (MsgProcessing repo_name)])
  /\ fs (snd run) = fs w
  /\ temp_dirs (snd run) = temp_dirs w
  /\ exists lvl m,
       new_events w (snd run)
       = [EvLog LInfo (MsgProcessing repo_name);
          EvRun (log_command f) (Some repo_url) false;
          EvLog lvl m].
Proof.
  intros Hu Hex repo_name repo_project run.
  assert (Hrun : run = _get_commit_history repo_url repo_name repo_project f E
          (add_events w [EvLog LInfo (MsgProcessing repo_name)])).
  { subst run. unfold _process_repository. cbn [RepoInfo.url RepoInfo.name
      RepoInfo.project get_or]. rewrite Hu. cbn [negb].
    unfold bind, log, emit, get_world. cbn [fs]. now rewrite Hex. }
  split; [exact Hrun|]. rewrite Hrun, get_commit_history_cases.
  match goal with
  | |- context [run_process E ?w1 ?a ?c ?s] =>
      destruct (run_process E w1 a c s) as [rc out err|e]
  end.
  - destruct (rc =? 0)%Z; unfold add_events; simpl;
      (split; [reflexivity|]; split; [reflexivity|]);
      do 2 eexists; rewrite <- !app_assoc; apply new_events_app.
  - unfold add_events; simpl.
    split; [reflexivity|]. split; [reflexivity|].
    do 2 eexists. rewrite <- !app_assoc. apply new_events_app.
Qed.

(** A local repository in a world where it exists. *)
Lemma local_path_used_directly_witness :
  let w := initial [txt "/repos/app"] in
  let run := _process_repository Sample.local_repo Sample.no_filters
               Sample.calm_env w in
  List.length (commits_of (fst run)) = 2
  /\ temp_dirs (snd run) = []
  /\ exists lvl m,
       trace (snd run)
       = [EvLog LInfo (MsgProcessing (txt "app"));
          EvRun (log_command Sample.no_filters) (Some (txt "/repos/app")) false;
          EvLog lvl m].
Proof.
  intros w run.
  destruct (local_path_used_directly (Some (txt "app")) (Some (txt "Apps"))
              (txt "/repos/app") Sample.no_filters Sample.calm_env w
              eq_refl eq_refl) as [_ [_ [Ht Hev]]].
  split; [reflexivity|]. split; [exact Ht | exact Hev].
Defined.

(** *** Exceptions stay inside the task *)

Ltac eff_step :=
  match goal with
  | |- ?G =>
      lazymatch G with
      | returns _ => fail
      | uninterrupted _ => fail
      | forall _, _ => intro
      end
  | |- uninterrupted (bind _ _) => apply EffFacts.uninterrupted_bind
  | |- returns (bind _ _) => apply EffFacts.returns_bind
  | |- uninterrupted (if ?b then _ else _) => destruct b
  | |- returns (if ?b then _ else _) => destruct b
  | |- uninterrupted (match ?x with _ => _ end) => destruct x
  | |- returns (match ?x with _ => _ end) => destruct x
  | |- uninterrupted _ => solve [auto with eff]
  | |- uninterrupted _ =>
      apply EffFacts.returns_uninterrupted; solve [auto with eff]
  | |- returns _ => solve [auto with eff]
  end.

Lemma uninterrupted_log lvl m : uninterrupted (log lvl m).
Proof. apply EffFacts.returns_uninterrupted, EffFacts.returns_log. Qed.

#[local] Hint Resolve uninterrupted_log get_commit_history_returns
  cleanup_directory_returns : eff.

Lemma clone_and_extract_returns url name proj f tmp :
  returns (clone_and_extract url name proj f tmp).
Proof.
  unfold clone_and_extract. apply EffFacts.returns_try_except.
  - repeat eff_step.
  - intros e. eexists. split; [reflexivity|]. repeat eff_step.
Qed.

(** What the task of a remote repository gives, by the outcome of the
    clone and of the fetch: a clone that raises or ends with a non-zero
    status and a fetch that raises give the empty list (the status of a
    fetch that ends is not looked at); otherwise the result is that of
    the log command in the clone. *)
Lemma clone_and_extract_cases url name proj f tmp E w :
  let clone_path := Path.join tmp name in
  let clone := [txt "git"; txt "clone"; url; clone_path] in
  let fetch := [txt "git"; txt "fetch"; txt "--all"] in
  let w1 := add_events w [EvRun clone None false] in
  let w2 := add_events w1 [EvRun fetch (Some clone_path) false] in
  clone_and_extract url name proj f tmp E w
  = match run_process E w clone None false with
    | Completed rc _ err =>
        if (rc =? 0)%Z
        then
          match run_process E w1 fetch (Some clone_path) false with
          | Completed _ _ _ =>
              _get_commit_history clone_path name proj f E
                (add_events w2 [EvLog LInfo (MsgCloned url clone_path)])
          | RunRaises e =>
              (Ok [], add_events w2 [EvLog LError (MsgErrorProcessing name e)])
          end
        else (Ok [], add_events w1 [EvLog LError (MsgCloneFailed url err)])
    | RunRaises e =>
        (Ok [], add_events w1 [EvLog LError (MsgErrorProcessing name e)])
    end.
Proof.
  intros clone_path clone fetch w1 w2.
  unfold clone_and_extract. fold clone_path. fold clone. fold fetch.
  unfold try_except, bind at 1, subprocess_run at 1.
  fold (add_events w [EvRun clone None false]). fold w1.
  destruct (run_process E w clone None false) as [rc out err|e];
    [|reflexivity].
  destruct (rc =? 0)%Z; cbn [negb]; [|reflexivity].
  unfold bind at 1, subprocess_run.
  fold (add_events w1 [EvRun fetch (Some clone_path) false]). fold w2.
  destruct (run_process E w1 fetch (Some clone_path) false) as [rc' out' err'|e];
    [|reflexivity].
  unfold bind, log, emit. cbn [fs temp_dirs trace].
  fold (add_events w2 [EvLog LInfo (MsgCloned url clone_path)]).
  destruct (get_commit_history_returns clone_path name proj f E
              (add_events w2 [EvLog LInfo (MsgCloned url clone_path)]))
    as [l Hl].
  destruct (_get_commit_history clone_path name proj f E _) as [r w3].
  cbn [fst] in Hl. now subst r.
Qed.

Lemma temp_directory_uninterrupted (A : Type) (body : text -> M A) :
  (forall d, uninterrupted (body d)) -> uninterrupted (_temp_directory body).
Proof.
  intros Hb. unfold _temp_directory. repeat eff_step.
  - apply EffFacts.returns_uninterrupted. intros E w. now exists tt.
  - apply EffFacts.uninterrupted_finally; [apply Hb | auto with eff].
Qed.

Lemma process_repository_uninterrupted repo f :
  uninterrupted (_process_repository repo f).
Proof.
  unfold _process_repository. repeat eff_step.
  apply temp_directory_uninterrupted. intros d.
  apply EffFacts.returns_uninterrupted, clone_and_extract_returns.
Qed.

Lemma temp_directory_run
  (A : Type) (body : text -> M A) (E : env) (w : world) :
  let d := fresh_dir (fs w)
             (Path.join (getcwd E) (txt "temp_git_clone_" ++ dec (time_ms E w))) in
  _temp_directory body E w
  = match makedirs_error E w d with
    | Some e => (Raise (Exc e), add_events w [EvMakedirs d])
    | None =>
        finally (body d) (_cleanup_directory d) E
          (mkWorld (d :: fs w) (temp_dirs w ++ [d])
                   (trace w ++ [EvMakedirs d; EvLog LInfo (MsgCreatedTemp d)]))
    end.
Proof.
  intros d. unfold _temp_directory, bind, ask, get_world. fold d.
  unfold makedirs. destruct (makedirs_error E w d) as [e|]; [reflexivity|].
  unfold push_temp_dir, log, emit. cbn [fs temp_dirs trace].
  now rewrite <- app_assoc.
Qed.

(** What a task gives, by the kind of repository. *)
Lemma process_repository_result repo f E w :
  let name := get_or (RepoInfo.name repo) (txt "unknown") in
  let url := get_or (RepoInfo.url repo) [] in
  let proj := get_or (RepoInfo.project repo) (txt "Unknown") in
  let w0 := add_events w [EvLog LInfo (MsgProcessing name)] in
  let d := fresh_dir (fs w0)
             (Path.join (getcwd E)
                (txt "temp_git_clone_" ++ dec (time_ms E w0))) in
  let w1 := mkWorld (d :: fs w0) (temp_dirs w0 ++ [d])
              (trace w0 ++ [EvMakedirs d; EvLog LInfo (MsgCreatedTemp d)]) in
  fst (_process_repository repo f E w)
  = if negb (truthy url) then Ok []
    else if path_exists (fs w) url
    then fst (_get_commit_history url name proj f E w0)
    else match makedirs_error E w0 d with
         | Some e => Raise (Exc e)
         | None => fst (clone_and_extract url name proj f d E w1)
         end.
Proof.
  intros name url proj w0 d w1.
  unfold _process_repository. fold name url proj.
  destruct (truthy url); cbn [negb]; [|reflexivity].
  unfold bind at 1, log at 1, emit.
  fold (add_events w [EvLog LInfo (MsgProcessing name)]). fold w0.
  unfold bind at 1, get_world. change (fs w0) with (fs w).
  destruct (path_exists (fs w) url); [reflexivity|].
  rewrite temp_directory_run. fold d.
  destruct (makedirs_error E w0 d) as [e|]; [reflexivity|].
  fold w1. unfold finally.
  destruct (clone_and_extract url name proj f d E w1) as [r w2].
  destruct (cleanup_directory_returns d E w2) as [[] Hc].
  destruct (_cleanup_directory d E w2) as [rc w3]. cbn [fst] in Hc.
  now subst rc.
Qed.

(** *** Merging the futures *)

Lemma run_tasks_spec repos f : forall E w,
  exists futures w',
    run_tasks repos f E w = (Ok futures, w')
    /\ map fst futures = repos
    /\ Forall (fun rf => snd rf <> Raise KeyboardInterrupt) futures.
Proof.
  induction repos as [|repo rest IH]; intros E w.
  - exists [], w. repeat split; constructor.
  - simpl. unfold bind, run_task.
    pose proof (process_repository_uninterrupted repo f E w) as Hu.
    destruct (_process_repository repo f E w) as [r w1]. simpl in Hu.
    destruct (IH E w1) as [futures [w' [Hrun [Hm Hf]]]].
    rewrite Hrun. exists ((repo, r) :: futures), w'.
    repeat split; [simpl; now rewrite Hm | now constructor].
Qed.

Lemma run_tasks_unroll repo rest f E w :
  exists rs w2,
    run_tasks rest f E (snd (_process_repository repo f E w)) = (Ok rs, w2)
    /\ run_tasks (repo :: rest) f E w
       = (Ok ((repo, fst (_process_repository repo f E w)) :: rs), w2).
Proof.
  destruct (run_tasks_spec rest f E (snd (_process_repository repo f E w)))
    as [rs [w2 [Hrun _]]].
  exists rs, w2. split; [exact Hrun|].
  cbn [run_tasks]. unfold bind at 1, run_task.
  destruct (_process_repository repo f E w) as [r w1]. cbn [fst snd] in *.
  unfold bind. now rewrite Hrun.
Qed.

Lemma run_tasks_outcomes repos f E : forall w futures w',
  run_tasks repos f E w = (Ok futures, w') ->
  Forall (fun rf => exists w0,
            snd rf = fst (_process_repository (fst rf) f E w0)) futures.
Proof.
  induction repos as [|repo rest IH]; intros w futures w' Hrun.
  - cbn in Hrun. injection Hrun as <- _. constructor.
  - destruct (run_tasks_unroll repo rest f E w) as [rs [w2 [Hrest Hall]]].
    rewrite Hall in Hrun. injection Hrun as <- _.
    constructor; [now exists w | exact (IH _ _ _ Hrest)].
Qed.

(** Without an interrupt the merge returns what the successful tasks
    returned, in completion order: a failed task adds nothing. *)
Lemma collect_spec E : (forall w n, sigint E w n = false) ->
  forall futures all_commits w,
    Forall (fun rf => snd rf <> Raise KeyboardInterrupt) futures ->
    exists w',
      collect futures all_commits E w
      = (Ok (all_commits ++ flat_map (fun rf => commits_of (snd rf)) futures), w').
Proof.
  intros Hs. induction futures as [|[repo fut] rest IH]; intros acc w Hf.
  - exists w. simpl. now rewrite app_nil_r.
  - inversion Hf as [|x l Hx Hrest]; subst. simpl in Hx.
    simpl. unfold bind, wait_point. rewrite Hs.
    destruct fut as [commits|[e|]]; [| |congruence].
    + destruct (IH (acc ++ commits) w Hrest) as [w' Hw'].
      exists w'. rewrite Hw'. simpl. now rewrite app_assoc.
    + simpl.
      match goal with
      | |- context [collect rest acc E ?w1] =>
          destruct (IH acc w1 Hrest) as [w' Hw']
      end.
      exists w'. exact Hw'.
Qed.

Lemma gather_spec repos f E w : (forall w n, sigint E w n = false) ->
  exists futures w1 w',
    run_tasks (completion E repos) f E w = (Ok futures, w1)
    /\ map fst futures = completion E repos
    /\ gather repos f E w
       = (Ok (flat_map (fun rf => commits_of (snd rf)) futures), w').
Proof.
  intros Hs.
  destruct (run_tasks_spec (completion E repos) f E w)
    as [futures [w1 [Hrun [Hm Hf]]]].
  destruct (collect_spec E Hs futures [] w1 Hf) as [w' Hc].
  exists futures, w1, w'. repeat split; try assumption.
  unfold gather, bind, ask. now rewrite Hrun, Hc.
Qed.

Lemma export_history_spec cfg repos f E w :
  (forall w n, sigint E w n = false) ->
  (0 < match parallel_workers f with Some n => n | None => 4 end)%Z ->
  exists futures w1 w',
    run_tasks (completion E repos) f E w = (Ok futures, w1)
    /\ map fst futures = completion E repos
    /\ export_history cfg repos f E w
       = (Ok (finish cfg (flat_map (fun rf => commits_of (snd rf)) futures)), w').
Proof.
  intros Hs Hw.
  destruct (gather_spec repos f E w Hs) as [futures [w1 [w2 [Hrun [Hm Hg]]]]].
  unfold export_history.
  destruct (Z.leb_spec (match parallel_workers f with Some n => n | None => 4 end) 0);
    [lia|].
  unfold bind. rewrite Hg.
  destruct (allow_list cfg); simpl; do 3 eexists; repeat split; eassumption.
Qed.

(** C4.  A repository whose log command times out, raises or ends with
    a non-zero status gives the empty list; for a repository that is
    cloned, a clone that raises or ends with a non-zero status and a
    fetch that raises give the empty list, and otherwise the result is
    that of the log command in the clone.  A task gives the empty list
    for a missing url, the result of the log command for a local path,
    and for a remote repository either the exception raised when the
    workspace is made or the result of the clone and the log command;
    no task passes anything but an [Exception] to the collector.  The
    pool keeps for every repository what its task gave; the collector
    adds nothing for a task that raised and goes on with the others, so
    the collection returns normally with the records of the
    repositories that succeeded. *)
Theorem repository_failures_contained :
  (forall repo_path repo_name repo_project f E w,
      exists l w',
        _get_commit_history repo_path repo_name repo_project f E w = (Ok l, w')
        /\ match run_process E w (log_command f) (Some repo_path) false with
           | Completed rc out _ =>
               if (rc =? 0)%Z
               then l = Extractor.parse_commits repo_name repo_project out
               else l = []
           | RunRaises _ => l = []
           end)
  /\ (forall repo_url repo_name repo_project f temp_dir E w,
         let clone_path := Path.join temp_dir repo_name in
         let clone := [txt "git"; txt "clone"; repo_url; clone_path] in
         let fetch := [txt "git"; txt "fetch"; txt "--all"] in
         let w1 := add_events w [EvRun clone None false] in
         let w2 := add_events w1 [EvRun fetch (Some clone_path) false] in
         clone_and_extract repo_url repo_name repo_project f temp_dir E w
         = match run_process E w clone None false with
           | Completed rc _ err =>
               if (rc =? 0)%Z
               then
                 match run_process E w1 fetch (Some clone_path) false with
                 | Completed _ _ _ =>
                     _get_commit_history clone_path repo_name repo_project f E
                       (add_events w2 [EvLog LInfo (MsgCloned repo_url clone_path)])
                 | RunRaises e =>
                     (Ok [],
                      add_events w2
                        [EvLog LError (MsgErrorProcessing repo_name e)])
                 end
               else
                 (Ok [], add_events w1 [EvLog LError (MsgCloneFailed repo_url err)])
           | RunRaises e =>
               (Ok [],
                add_events w1 [EvLog LError (MsgErrorProcessing repo_name e)])
           end)
  /\ (forall repo f E w,
         let repo_name := get_or (RepoInfo.name repo) (txt "unknown") in
         let repo_url := get_or (RepoInfo.url repo) [] in
         let repo_project := get_or (RepoInfo.project repo) (txt "Unknown") in
         let w0 := add_events w [EvLog LInfo (MsgProcessing repo_name)] in
         let temp_dir :=
           fresh_dir (fs w0)
             (Path.join (getcwd E)
                (txt "temp_git_clone_" ++ dec (time_ms E w0))) in
         let w1 :=
           mkWorld (temp_dir :: fs w0) (temp_dirs w0 ++ [temp_dir])
             (trace w0
              ++ [EvMakedirs temp_dir; EvLog LInfo (MsgCreatedTemp temp_dir)]) in
         fst (_process_repository repo f E w)
         = if negb (truthy repo_url) then Ok []
           else if path_exists (fs w) repo_url
           then fst (_get_commit_history repo_url repo_name repo_project f E w0)
           else match makedirs_error E w0 temp_dir with
                | Some e => Raise (Exc e)
                | None =>
                    fst (clone_and_extract repo_url repo_name repo_project f
                           temp_dir E w1)
                end)
  /\ (forall repo f, uninterrupted (_process_repository repo f))
  /\ (forall f E w, run_tasks [] f E w = (Ok [], w))
  /\ (forall repo rest f E w,
         exists futures w',
           run_tasks rest f E (snd (_process_repository repo f E w))
           = (Ok futures, w')
           /\ run_tasks (repo :: rest) f E w
              = (Ok ((repo, fst (_process_repository repo f E w)) :: futures),
                 w'))
  /\ (forall E futures all_commits w,
         (forall w n, sigint E w n = false) ->
         Forall (fun rf => snd rf <> Raise KeyboardInterrupt) futures ->
         exists w',
           collect futures all_commits E w
           = (Ok (all_commits
                  ++ flat_map (fun rf => commits_of (snd rf)) futures), w'))
  /\ (forall cfg repos f E w,
         (forall w n, sigint E w n = false) ->
         (0 < match parallel_workers f with Some n => n | None => 4 end)%Z ->
         exists futures w1 w',
           run_tasks (completion E repos) f E w = (Ok futures, w1)
           /\ map fst futures = completion E repos
           /\ Forall (fun rf =>
                        exists w0,
                          snd rf = fst (_process_repository (fst rf) f E w0))
                     futures
           /\ export_history cfg repos f E w
              = (Ok (finish cfg
                       (flat_map (fun rf => commits_of (snd rf)) futures)), w')).
Proof.
  split; [|split; [|split; [|split; [|split; [|split; [|split]]]]]].
  - intros p n pr f E w. rewrite get_commit_history_cases.
    destruct (run_process E w (log_command f) (Some p) false) as [rc out err|e].
    + destruct (rc =? 0)%Z; do 2 eexists; split; reflexivity.
    + do 2 eexists; split; reflexivity.
  - intros. apply clone_and_extract_cases.
  - intros. apply process_repository_result.
  - exact process_repository_uninterrupted.
  - reflexivity.
  - intros. apply run_tasks_unroll.
  - intros E futures acc w Hs Hf. now apply collect_spec.
  - intros cfg repos f E w Hs Hw.
    destruct (export_history_spec cfg repos f E w Hs Hw)
      as [futures [w1 [w' [Hrun [Hm He]]]]].
    exists futures, w1, w'. split; [exact Hrun|]. split; [exact Hm|].
    split; [exact (run_tasks_outcomes _ _ _ _ _ _ Hrun) | exact He].
Qed.

(** The clone of the remote repository fails; the local one still
    gives its two records. *)
Lemma repository_failures_contained_witness :
  let w := initial [txt "/repos/app"] in
  let run := export_history empty_config
               [Sample.remote_repo; Sample.local_repo] Sample.no_filters
               Sample.offline_env w in
  List.length (commits_of (fst run)) = 2
  /\ exists futures w1 w',
       run_tasks [Sample.remote_repo; Sample.local_repo] Sample.no_filters
                 Sample.offline_env w = (Ok futures, w1)
       /\ map fst futures = [Sample.remote_repo; Sample.local_repo]
       /\ Forall (fun rf =>
                    exists w0,
                      snd rf = fst (_process_repository (fst rf)
                                      Sample.no_filters Sample.offline_env w0))
                 futures
       /\ run = (Ok (finish empty_config
                       (flat_map (fun rf => commits_of (snd rf)) futures)), w').
Proof.
  intros w run. split; [vm_compute; reflexivity|].
  exact (proj2 (proj2 (proj2 (proj2 (proj2 (proj2
           (proj2 repository_failures_contained))))))
           empty_config [Sample.remote_repo; Sample.local_repo]
           Sample.no_filters Sample.offline_env w
           (fun _ _ => eq_refl) eq_refl).
Defined.

(** ** Which events a run can add *)


Section Emits.
Variable P : event -> Prop.
Hypothesis P_log : forall lvl m, P (EvLog lvl m).
Hypothesis P_makedirs : forall d, P (EvMakedirs d).
Hypothesis P_rmtree : forall d, P (EvRmtree d).
Hypothesis P_run : forall argv cwd shell, P (EvRun argv cwd shell).















End Emits.

(** ** The entry point *)



Lemma cleanup_each_returns dirs : returns (cleanup_each dirs).
Proof.
  induction dirs as [|d rest IH]; simpl; [auto with eff|].
  apply EffFacts.returns_bind; [apply cleanup_directory_returns | auto].
Qed.


Lemma sorted_rows_nonempty now c cs :
  sort_by_parsed_date (dated now 0 (c :: cs)) <> [].
Proof.
  intros H. pose proof (logbook_order now (c :: cs)) as [_ [_ Hp]].
  cbv zeta in Hp. rewrite H in Hp. apply Permutation_length in Hp.
  discriminate Hp.
Qed.








(** ** The search for a workspace name ends *)

Lemma dec_inj n m : dec n = dec m -> n = m.
Proof.
  unfold dec. intros H.
  apply (f_equal string_of_list_ascii) in H.
  rewrite !string_of_list_ascii_of_string in H.
  apply (f_equal NilEmpty.uint_of_string) in H.
  rewrite !NilEmpty.usu in H. injection H as H.
  apply (f_equal N.of_uint) in H.
  now rewrite !DecimalN.Unsigned.of_to in H.
Qed.

Lemma candidate_inj original i j :
  candidate original i = candidate original j -> i = j.
Proof.
  destruct i as [|i], j as [|j]; simpl; intros H.
  - reflexivity.
  - apply (f_equal (@List.length ascii)) in H.
    rewrite length_app in H. simpl in H. lia.
  - apply (f_equal (@List.length ascii)) in H.
    rewrite length_app in H. simpl in H. lia.
  - apply app_inv_head in H. injection H as H.
    apply dec_inj in H. lia.
Qed.

Lemma free_name_none fuel files original : forall counter,
  free_name fuel files original counter = None ->
  forall i, i < fuel -> In (candidate original (counter + i)) files.
Proof.
  induction fuel as [|k IH]; intros counter H i Hi; [lia|].
  simpl in H.
  destruct (path_exists files (candidate original counter)) eqn:Hex;
    [|discriminate H].
  destruct i as [|i].
  - rewrite Nat.add_0_r. unfold path_exists in Hex.
    apply existsb_exists in Hex. destruct Hex as [p [Hin Heq]].
    apply text_eqb_eq in Heq. now subst.
  - replace (counter + S i) with (S counter + i) by lia.
    apply IH; [exact H | lia].
Qed.

(** [free_name_total]: with one more round than there are paths, the
    loop of lines 54-56 finds a name that does not exist. *)
Lemma free_name_total files original :
  exists d,
    free_name (S (List.length files)) files original 0 = Some d
    /\ path_exists files d = false.
Proof.
  destruct (free_name (S (List.length files)) files original 0) as [d|] eqn:H.
  - exists d. split; [reflexivity|].
    clear -H. revert H. generalize 0 as counter.
    induction (S (List.length files)) as [|k IH]; intros counter H;
      [discriminate H|].
    simpl in H.
    destruct (path_exists files (candidate original counter)) eqn:Hex.
    + now apply (IH (S counter)).
    + now injection H as <-.
  - exfalso.
    pose proof (free_name_none _ _ _ _ H) as Hall. simpl in Hall.
    assert (Hincl : incl (map (candidate original)
                            (seq 0 (S (List.length files)))) files).
    { intros p Hp. apply in_map_iff in Hp. destruct Hp as [i [<- Hi]].
      apply in_seq in Hi. apply Hall. lia. }
    assert (Hnd : NoDup (map (candidate original)
                           (seq 0 (S (List.length files))))).
    { apply Injective_map_NoDup; [|apply seq_NoDup].
      intros i j. apply candidate_inj. }
    pose proof (NoDup_incl_length Hnd Hincl) as Hlen.
    rewrite length_map, length_seq in Hlen. lia.
Qed.

(** ** The tabular export *)

Module CsvFacts.
Import Csv.

Lemma feed_app r a : forall b,
  feed r (a ++ b) = match feed r a with
                    | Some r' => feed r' b
                    | None => None
                    end.
Proof.
  revert r. induction a as [|i a IH]; intros r b; [reflexivity|].
  simpl. destruct (parse_process_char r i); [apply IH | reflexivity].
Qed.

Lemma feed_line r0 cur r l :
  feed r0 (map Ch cur) = Some r ->
  feed r0 (map Ch (cur ++ l) ++ [EOL]) = feed r (map Ch l ++ [EOL]).
Proof.
  intros H. now rewrite map_app, <- app_assoc, feed_app, H.
Qed.

Lemma splitlines_plain cur c s :
  Ascii.eqb c Str.LF = false -> Ascii.eqb c Str.CR = false ->
  splitlines cur (c :: s) = splitlines (cur ++ [c]) s.
Proof. intros H1 H2. simpl. now rewrite H1, H2. Qed.

Lemma splitlines_cr_other cur c s :
  Ascii.eqb c Str.LF = false ->
  splitlines cur (Str.CR :: c :: s) = (cur ++ [Str.CR]) :: splitlines [] (c :: s).
Proof.
  intros H. change (splitlines cur (Str.CR :: c :: s))
    with (if Ascii.eqb c Str.LF
          then (cur ++ [Str.CR; c]) :: splitlines [] s
          else (cur ++ [Str.CR]) :: splitlines [] (c :: s)).
  now rewrite H.
Qed.

(** A character that ends no line is fed to the parser when its line
    is. *)
Lemma Reads_plain c r r' s v :
  Ascii.eqb c Str.LF = false -> Ascii.eqb c Str.CR = false ->
  parse_process_char r (Ch c) = Some r' ->
  Reads r' s v -> Reads r (c :: s) v.
Proof.
  intros H1 H2 Hstep H r0 cur Hfeed.
  rewrite splitlines_plain by assumption. apply H.
  rewrite map_app, feed_app, Hfeed. simpl. now rewrite Hstep.
Qed.

(** Inside a quoted field the end of a line changes nothing but the
    field. *)
Lemma Reads_line_end_quoted fld flds nl s v :
  nl = [Str.LF] \/ nl = [Str.CR] \/ nl = [Str.CR; Str.LF] ->
  (forall cur, splitlines cur (nl ++ s) = (cur ++ nl) :: splitlines [] s) ->
  Reads (mkReader IN_QUOTED_FIELD (fld ++ nl) flds) s v ->
  Reads (mkReader IN_QUOTED_FIELD fld flds) (nl ++ s) v.
Proof.
  intros Hnl Hsplit H r0 cur Hfeed. rewrite Hsplit.
  cbn [read_rows]. rewrite (feed_line r0 cur _ nl Hfeed).
  assert (Hf : feed (mkReader IN_QUOTED_FIELD fld flds) (map Ch nl ++ [EOL])
               = Some (mkReader IN_QUOTED_FIELD (fld ++ nl) flds)).
  { destruct Hnl as [->|[->| ->]]; simpl; try reflexivity.
    now rewrite <- app_assoc. }
  rewrite Hf. cbn [state]. apply (H _ []). reflexivity.
Qed.

Lemma Reads_lf_quoted fld flds s v :
  Reads (mkReader IN_QUOTED_FIELD (fld ++ [Str.LF]) flds) s v ->
  Reads (mkReader IN_QUOTED_FIELD fld flds) (Str.LF :: s) v.
Proof.
  apply (Reads_line_end_quoted fld flds [Str.LF]); [now left|reflexivity].
Qed.

Lemma Reads_crlf_quoted fld flds s v :
  Reads (mkReader IN_QUOTED_FIELD (fld ++ [Str.CR; Str.LF]) flds) s v ->
  Reads (mkReader IN_QUOTED_FIELD fld flds) (Str.CR :: Str.LF :: s) v.
Proof.
  apply (Reads_line_end_quoted fld flds [Str.CR; Str.LF]);
    [now right; right | reflexivity].
Qed.

Lemma Reads_cr_quoted fld flds c s v :
  Ascii.eqb c Str.LF = false ->
  Reads (mkReader IN_QUOTED_FIELD (fld ++ [Str.CR]) flds) (c :: s) v ->
  Reads (mkReader IN_QUOTED_FIELD fld flds) (Str.CR :: c :: s) v.
Proof.
  intros Hc. apply (Reads_line_end_quoted fld flds [Str.CR] (c :: s));
    [now right; left|].
  intros cur. now apply splitlines_cr_other.
Qed.

Lemma escape_head_not_lf c f tail :
  Ascii.eqb c Str.LF = false ->
  exists c' s', escape (c :: f) ++ tail = c' :: s'
                /\ Ascii.eqb c' Str.LF = false.
Proof.
  intros Hc. simpl. destruct (Ascii.eqb c QUOTE).
  - exists QUOTE, (QUOTE :: escape f ++ tail). split; reflexivity.
  - exists c, (escape f ++ tail). split; [reflexivity | exact Hc].
Qed.

(** The body of a quoted field is read back as the field. *)
Lemma Reads_quoted_body n : forall f, List.length f <= n ->
  forall fld flds tail v,
    Reads (mkReader IN_QUOTED_FIELD (fld ++ f) flds) (QUOTE :: tail) v ->
    Reads (mkReader IN_QUOTED_FIELD fld flds) (escape f ++ QUOTE :: tail) v.
Proof.
  induction n as [|n IH]; intros f Hlen fld flds tail v H.
  - destruct f; [|simpl in Hlen; lia]. now rewrite app_nil_r in H.
  - destruct f as [|c f]; [now rewrite app_nil_r in H|].
    simpl in Hlen.
    assert (Hnext : forall x, (fld ++ [x]) ++ f = fld ++ x :: f)
      by (intros x; now rewrite <- app_assoc).
    destruct (Ascii.eqb c QUOTE) eqn:Hq.
    { apply Ascii.eqb_eq in Hq. subst c. simpl.
      apply (Reads_plain QUOTE _ (mkReader QUOTE_IN_QUOTED_FIELD fld flds));
        try reflexivity.
      apply (Reads_plain QUOTE _ (mkReader IN_QUOTED_FIELD (fld ++ [QUOTE]) flds));
        try reflexivity.
      apply IH; [lia|]. now rewrite Hnext. }
    destruct (Ascii.eqb c Str.LF) eqn:Hlf.
    { apply Ascii.eqb_eq in Hlf. subst c. simpl.
      apply Reads_lf_quoted. apply IH; [lia|]. now rewrite Hnext. }
    destruct (Ascii.eqb c Str.CR) eqn:Hcr.
    { apply Ascii.eqb_eq in Hcr. subst c.
      change (escape (Str.CR :: f)) with (Str.CR :: escape f).
      destruct f as [|c2 f2].
      - simpl. apply Reads_cr_quoted; [reflexivity|]. exact H.
      - destruct (Ascii.eqb c2 Str.LF) eqn:H2.
        + apply Ascii.eqb_eq in H2. subst c2. simpl.
          apply Reads_crlf_quoted. simpl in Hlen.
          apply IH; [lia|]. rewrite <- app_assoc. exact H.
        + destruct (escape_head_not_lf c2 f2 (QUOTE :: tail) H2)
            as [c' [s' [Heq Hc']]].
          cbn [app]. rewrite Heq. apply Reads_cr_quoted; [exact Hc'|].
          rewrite <- Heq. apply IH; [lia|]. now rewrite Hnext. }
    change (escape (c :: f))
      with (if Ascii.eqb c QUOTE then QUOTE :: QUOTE :: escape f
            else c :: escape f).
    rewrite Hq.
    apply (Reads_plain c _ (mkReader IN_QUOTED_FIELD (fld ++ [c]) flds));
      try assumption.
    + cbn [parse_process_char state is_char]. now rewrite Hq.
    + apply IH; [lia|]. now rewrite Hnext.
Qed.

Lemma special_false c :
  special c = false ->
  Ascii.eqb c COMMA = false /\ Ascii.eqb c QUOTE = false
  /\ Ascii.eqb c Str.CR = false /\ Ascii.eqb c Str.LF = false.
Proof.
  unfold special. intros H.
  destruct (Ascii.eqb c COMMA), (Ascii.eqb c QUOTE), (Ascii.eqb c Str.CR),
    (Ascii.eqb c Str.LF); try discriminate H; auto.
Qed.

(** The rest of an unquoted field is read back as written. *)
Lemma Reads_unquoted f : forall fld flds tail v,
  existsb special f = false ->
  Reads (mkReader IN_FIELD (fld ++ f) flds) tail v ->
  Reads (mkReader IN_FIELD fld flds) (f ++ tail) v.
Proof.
  induction f as [|c f IH]; intros fld flds tail v Hs H.
  - now rewrite app_nil_r in H.
  - simpl in Hs. apply orb_false_iff in Hs. destruct Hs as [Hc Hf].
    destruct (special_false c Hc) as [H1 [H2 [H3 H4]]].
    cbn [app].
    apply (Reads_plain c _ (mkReader IN_FIELD (fld ++ [c]) flds));
      try assumption.
    + cbn [parse_process_char state is_newline is_char]. now rewrite H4, H3, H1.
    + apply IH; [exact Hf|]. now rewrite <- app_assoc.
Qed.

(** A field is read back from the start of a field; at the end the
    parser is in a state from which a delimiter saves [f]. *)
Lemma Reads_field st f flds tail v :
  st = START_RECORD \/ st = START_FIELD ->
  (forall st',
      st' = IN_FIELD \/ st' = QUOTE_IN_QUOTED_FIELD \/ (st' = st /\ f = []) ->
      Reads (mkReader st' f flds) tail v) ->
  Reads (mkReader st [] flds) (write_field f ++ tail) v.
Proof.
  intros Hst K. unfold write_field.
  destruct (existsb special f) eqn:Hs.
  - cbn [app]. rewrite <- app_assoc. cbn [app].
    apply (Reads_plain QUOTE _ (mkReader IN_QUOTED_FIELD [] flds));
      try reflexivity.
    { destruct Hst as [-> | ->]; reflexivity. }
    apply (Reads_quoted_body (List.length f) f (Nat.le_refl _) []).
    cbn [app].
    apply (Reads_plain QUOTE _ (mkReader QUOTE_IN_QUOTED_FIELD f flds));
      try reflexivity.
    apply K. now right; left.
  - destruct f as [|c f].
    + apply K. right; right. now split.
    + simpl in Hs. apply orb_false_iff in Hs. destruct Hs as [Hc Hf].
      destruct (special_false c Hc) as [H1 [H2 [H3 H4]]].
      cbn [app].
      apply (Reads_plain c _ (mkReader IN_FIELD [c] flds)); try assumption.
      * destruct Hst as [-> | ->];
          cbn [parse_process_char state is_newline start_field];
          now rewrite ?H4, ?H3, ?H2, ?H1.
      * apply (Reads_unquoted f [c]); [exact Hf|]. apply K. now left.
Qed.

(** The end of a row completes the record. *)
Lemma Reads_end_row st f flds s :
  st = IN_FIELD \/ st = QUOTE_IN_QUOTED_FIELD \/ st = START_FIELD ->
  Reads (mkReader st f flds) (Str.CR :: Str.LF :: s)
        (option_map (cons (flds ++ [f])) (read_rows fresh (splitlines [] s))).
Proof.
  intros Hst r0 cur Hfeed.
  change (splitlines cur (Str.CR :: Str.LF :: s))
    with ((cur ++ [Str.CR; Str.LF]) :: splitlines [] s).
  cbn [read_rows]. rewrite (feed_line r0 cur _ [Str.CR; Str.LF] Hfeed).
  destruct Hst as [-> | [-> | ->]]; reflexivity.
Qed.

Lemma Reads_row_tail fs : forall st f flds s,
  st = IN_FIELD \/ st = QUOTE_IN_QUOTED_FIELD \/ st = START_FIELD
  \/ (st = START_RECORD /\ fs <> []) ->
  Reads (mkReader st f flds) (row_tail fs ++ s)
        (option_map (cons (flds ++ f :: fs))
                    (read_rows fresh (splitlines [] s))).
Proof.
  induction fs as [|g fs IH]; intros st f flds s Hst.
  - apply Reads_end_row. destruct Hst as [H|[H|[H|[_ H]]]]; auto. congruence.
  - cbn [row_tail app]. rewrite <- app_assoc.
    apply (Reads_plain COMMA _ (mkReader START_FIELD [] (flds ++ [f])));
      try reflexivity.
    { destruct Hst as [-> |[-> |[-> |[-> _]]]]; reflexivity. }
    apply Reads_field; [now right|]. intros st' Hst'.
    replace (flds ++ f :: g :: fs) with ((flds ++ [f]) ++ g :: fs)
      by now rewrite <- app_assoc.
    apply IH. destruct Hst' as [H|[H|[H _]]]; auto.
Qed.

Lemma writerow_row_tail f g fs :
  writerow (f :: g :: fs) = write_field f ++ row_tail (g :: fs).
Proof.
  unfold writerow.
  assert (H : forall a l, Str.join [COMMA] (map write_field (a :: l))
                          ++ [Str.CR; Str.LF]
                          = write_field a ++ row_tail l).
  { intros a l. revert a. induction l as [|b l IH]; intros a.
    - reflexivity.
    - change (Str.join [COMMA] (map write_field (a :: b :: l)))
        with (write_field a ++ [COMMA]
              ++ Str.join [COMMA] (map write_field (b :: l))).
      rewrite <- !app_assoc. rewrite IH. reflexivity. }
  destruct f; apply H.
Qed.

(** A written row with at least two fields, followed by the rest of
    the file, reads as that row followed by the rows of the rest. *)
Lemma Reads_row f g fs s :
  Reads fresh (writerow (f :: g :: fs) ++ s)
        (option_map (cons (f :: g :: fs)) (read_rows fresh (splitlines [] s))).
Proof.
  rewrite writerow_row_tail, <- app_assoc.
  apply Reads_field; [now left|]. intros st' Hst'.
  apply (Reads_row_tail (g :: fs) st' f []).
  destruct Hst' as [H|[H|[H _]]]; auto.
  right; right; right. split; [exact H | discriminate].
Qed.

(** What was written is read back, row by row. *)
Theorem reader_rows_written rows :
  Forall (fun row => 2 <= List.length row) rows ->
  reader_rows (flat_map writerow rows) = Some rows.
Proof.
  unfold reader_rows. induction 1 as [|row rows Hrow _ IH]; [reflexivity|].
  destruct row as [|f [|g fs]]; simpl in Hrow; try lia.
  cbn [flat_map]. rewrite (Reads_row f g fs _ fresh [] eq_refl).
  now rewrite IH.
Qed.

Lemma utf8_char_decoded c bs :
  utf8_decode (utf8_char c ++ bs) = option_map (cons c) (utf8_decode bs).
Proof.
  destruct c as [[] [] [] [] [] [] [] []]; reflexivity.
Qed.

(** Decoding inverts encoding. *)
Lemma utf8_round_trip s : utf8_decode (utf8_encode s) = Some s.
Proof.
  induction s as [|c s IH]; [reflexivity|].
  unfold utf8_encode. cbn [flat_map]. rewrite utf8_char_decoded.
  fold (utf8_encode s). now rewrite IH.
Qed.

End CsvFacts.

Lemma csv_text_rows commits :
  csv_text commits = flat_map Csv.writerow (fieldnames :: map row_of commits).
Proof.
  unfold csv_text. cbn [flat_map]. f_equal.
  induction commits as [|c cs IH]; [reflexivity|].
  cbn [flat_map map]. now rewrite IH.
Qed.

(** C6.  A non-empty list of commit records (as the extractor makes
    them, with ASCII field values) is written as one file whose first
    line is the column header repository, project, hash, author_name,
    date, subject, body; decoding that file and reading it back with the
    reader of the same dialect gives the header row followed by one row
    per record holding the record's 7 field values unchanged, and as
    dicts keyed by the header each row gives back every field of its
    record. *)
Theorem csv_export_round_trip
  (commits : list commit) (output_file : text) (E : env) (w : world) :
  commits <> [] ->
  Forall (fun c => parsed_date c = None /\ Forall Csv.is_ascii (row_of c))
         commits ->
  write_error E w output_file = None ->
  let content := csv_text commits in
  new_events w (snd (save_to_csv commits output_file E w))
  = [EvWrote output_file (CsvTable content);
     EvLog LInfo (MsgExported (List.length commits) output_file)]
  /\ (exists rest,
         content
         = txt "repository,project,hash,author_name,date,subject,body"
           ++ [Str.CR; Str.LF] ++ rest)
  /\ Csv.utf8_decode (Csv.utf8_encode content) = Some content
  /\ Csv.reader_rows content = Some (fieldnames :: map row_of commits)
  /\ Csv.dict_rows content
     = Some (map (fun c => combine fieldnames (row_of c)) commits)
  /\ Forall (fun c =>
               let d := combine fieldnames (row_of c) in
               Csv.lookup (txt "repository") d = Some (repository c)
               /\ Csv.lookup (txt "project") d = Some (project c)
               /\ Csv.lookup (txt "hash") d = Some (hash c)
               /\ Csv.lookup (txt "author_name") d = Some (author_name c)
               /\ Csv.lookup (txt "date") d = Some (date c)
               /\ Csv.lookup (txt "subject") d = Some (subject c)
               /\ Csv.lookup (txt "body") d = Some (body c))
            commits.
Proof.
  intros Hne Hall Hw content.
  assert (Hrows : Csv.reader_rows content
                  = Some (fieldnames :: map row_of commits)).
  { subst content. rewrite csv_text_rows.
    apply CsvFacts.reader_rows_written. constructor.
    - simpl. lia.
    - apply Forall_forall. intros row Hrow. apply in_map_iff in Hrow.
      destruct Hrow as [c [<- _]]. simpl. lia. }
  split; [|split; [|split; [|split; [|split]]]].
  - unfold save_to_csv. destruct commits as [|c cs]; [congruence|].
    assert (Hx : existsb has_extra_key (c :: cs) = false).
    { clear -Hall. induction Hall as [|c0 l [Hp _] _ IH]; [reflexivity|].
      simpl. unfold has_extra_key at 1. now rewrite Hp, IH. }
    rewrite Hx. unfold bind, write_file. rewrite Hw.
    unfold log, emit. cbn [fst snd trace fs temp_dirs].
    rewrite <- app_assoc. apply new_events_app.
  - subst content. unfold csv_text. eexists. reflexivity.
  - apply CsvFacts.utf8_round_trip.
  - exact Hrows.
  - unfold Csv.dict_rows. rewrite Hrows. f_equal.
    assert (Hf : forall p,
               (forall c, p (row_of c) = true) ->
               filter p (map row_of commits) = map row_of commits).
    { intros p Hp. clear -Hp. induction commits as [|c cs IH]; [reflexivity|].
      cbn [map filter]. now rewrite Hp, IH. }
    rewrite Hf by reflexivity. apply map_map.
  - apply Forall_forall. intros c _. repeat split.
Qed.

(** A record with commas, quotes and line ends in its fields. *)
Lemma csv_export_round_trip_witness :
  Csv.reader_rows (csv_text [Sample.tricky])
  = Some [fieldnames; row_of Sample.tricky]
  /\ Csv.dict_rows (csv_text [Sample.tricky])
     = Some [combine fieldnames (row_of Sample.tricky)].
Proof.
  assert (Hascii : Forall (fun c => parsed_date c = None
                                    /\ Forall Csv.is_ascii (row_of c))
                          [Sample.tricky]).
  { constructor; [|constructor]. split; [reflexivity|].
    repeat (constructor;
            [repeat (constructor; [apply Nat.ltb_lt; reflexivity|]);
             constructor|]).
    constructor. }
  destruct (csv_export_round_trip [Sample.tricky] (txt "out.csv")
              Sample.calm_env (initial [])
              ltac:(discriminate) Hascii eq_refl)
    as [_ [_ [_ [Hr [Hd _]]]]].
  split; [exact Hr | exact Hd].
Defined.

(** * More on the extractor *)

Module ExtractorMore.
Import Str StrFacts Extractor.

(** The fields before the last possible cut hold no separator. *)
Lemma splitn_cut_fields sep s : forall n i,
  i < n -> ~ In sep (nth i (splitn sep s n) []).
Proof.
  induction s as [|c s IH]; intros n i Hi.
  - destruct i as [|[|i]]; simpl; tauto.
  - destruct n as [|m]; [lia|]. simpl.
    destruct (Ascii.eqb_spec c sep) as [->|Hc].
    + destruct i as [|j]; simpl; [tauto|]. apply IH. lia.
    + pose proof (splitn_nonempty sep s (S m)) as Hne.
      specialize (IH (S m)).
      destruct (splitn sep s (S m)) as [|f L]; [congruence|].
      destruct i as [|j]; simpl.
      * intros [H|H]; [congruence|]. apply (IH 0); [lia | exact H].
      * apply (IH (S j)). lia.
Qed.

(** Every character of a field is a character of the line. *)
Lemma splitn_chars sep s : forall n f x,
  In f (splitn sep s n) -> In x f -> In x s.
Proof.
  induction s as [|c s IH]; intros n f x Hf Hx.
  - simpl in Hf. destruct Hf as [<-|[]]. exact Hx.
  - destruct n as [|m]; simpl in Hf.
    + destruct Hf as [<-|[]]. exact Hx.
    + destruct (Ascii.eqb c sep).
      * destruct Hf as [<-|Hf]; [destruct Hx|]. right. eapply IH; eauto.
      * pose proof (splitn_nonempty sep s (S m)) as Hne.
        specialize (IH (S m)).
        destruct (splitn sep s (S m)) as [|g L]; [congruence|].
        simpl in Hf. destruct Hf as [<-|Hf].
        -- destruct Hx as [<-|Hx]; [now left|]. right.
           apply (IH g x); [now left | exact Hx].
        -- right. apply (IH f x); [now right | exact Hx].
Qed.

Lemma nth_chars (parts : list text) i x line :
  (forall f y, In f parts -> In y f -> In y line) ->
  In x (nth i parts []) -> In x line.
Proof.
  intros H Hx. destruct (Nat.lt_ge_cases i (List.length parts)) as [Hi|Hi].
  - apply (H (nth i parts [])); [now apply nth_In | exact Hx].
  - rewrite nth_overflow in Hx by exact Hi. destruct Hx.
Qed.

Lemma split_lines_no_sep sep s : Forall (fun l => ~ In sep l) (split sep s).
Proof.
  induction s as [|c s IH]; simpl.
  - constructor; [tauto | constructor].
  - destruct (Ascii.eqb_spec c sep) as [->|Hc].
    + constructor; [tauto | exact IH].
    + destruct (split sep s) as [|f L]; simpl.
      * constructor; [|constructor]. intros [H|[]]. congruence.
      * inversion IH; subst. constructor; [|assumption].
        intros [H|H]; [congruence | tauto].
Qed.

(** Joining the fields with the separator gives the line back. *)
Lemma join_splitn sep s : forall n, join [sep] (splitn sep s n) = s.
Proof.
  induction s as [|c s IH]; intros n; [reflexivity|].
  destruct n as [|m]; [reflexivity|]. simpl.
  destruct (Ascii.eqb_spec c sep) as [->|Hc].
  - pose proof (splitn_nonempty sep s m) as Hne. specialize (IH m).
    destruct (splitn sep s m) as [|f L]; [congruence|].
    simpl in *. now rewrite IH.
  - pose proof (splitn_nonempty sep s (S m)) as Hne. specialize (IH (S m)).
    destruct (splitn sep s (S m)) as [|f [|g L]]; [congruence| |].
    + simpl in *. now rewrite IH.
    + simpl in *. now rewrite IH.
Qed.

End ExtractorMore.

(** X1.  In every record the extractor returns, hash, author name,
    date and subject hold no delimiter: a delimiter typed in a subject
    cuts the subject there, and what follows goes to the body. *)
Theorem first_fields_hold_no_delimiter (repo_name repo_project stdout : text) :
  Forall (fun c =>
            ~ In Str.PIPE (hash c) /\ ~ In Str.PIPE (author_name c)
            /\ ~ In Str.PIPE (date c) /\ ~ In Str.PIPE (subject c))
         (Extractor.parse_commits repo_name repo_project stdout).
Proof.
  rewrite ExtractorFacts.parse_commits_spec. apply Forall_forall.
  intros c Hc. apply in_map_iff in Hc. destruct Hc as [line [<- _]].
  unfold Extractor.record_of. simpl.
  repeat split; apply ExtractorMore.splitn_cut_fields; lia.
Qed.

(** X2.  No field taken from the log output holds a newline: the
    parser is line-oriented, so of a body of several lines only the
    part on the commit's own line is kept. *)
Theorem record_fields_are_single_line (repo_name repo_project stdout : text) :
  Forall (fun c =>
            ~ In Str.LF (hash c) /\ ~ In Str.LF (author_name c)
            /\ ~ In Str.LF (date c) /\ ~ In Str.LF (subject c)
            /\ ~ In Str.LF (body c))
         (Extractor.parse_commits repo_name repo_project stdout).
Proof.
  rewrite ExtractorFacts.parse_commits_spec. apply Forall_forall.
  intros c Hc. apply in_map_iff in Hc. destruct Hc as [line [<- Hl]].
  apply filter_In in Hl. destruct Hl as [Hin _].
  pose proof (ExtractorMore.split_lines_no_sep Str.LF (Str.strip stdout))
    as Hno.
  rewrite Forall_forall in Hno. specialize (Hno line Hin).
  assert (Hch : forall i, ~ In Str.LF (nth i (Str.splitn Str.PIPE line 4) [])).
  { intros i Hx. apply Hno.
    apply (ExtractorMore.nth_chars (Str.splitn Str.PIPE line 4) i); [|exact Hx].
    intros f y Hf Hy. eapply ExtractorMore.splitn_chars; eauto. }
  unfold Extractor.record_of. simpl.
  repeat split; try apply Hch.
  destruct (4 <? List.length (Str.splitn Str.PIPE line 4)); [apply Hch | tauto].
Qed.

(** X3.  Within a line nothing is lost: the fields of a record, joined
    by the delimiter, give back the line it was made from (with or
    without the body, which is empty both when the line has no 5th
    field and when that field is empty). *)
Theorem record_fields_rebuild_line (repo_name repo_project stdout : text) :
  Forall2 (fun line c =>
             line = Str.join [Str.PIPE]
                      [hash c; author_name c; date c; subject c]
             \/ line = Str.join [Str.PIPE]
                         [hash c; author_name c; date c; subject c; body c])
          (filter Extractor.survives (Extractor.lines_of stdout))
          (Extractor.parse_commits repo_name repo_project stdout).
Proof.
  rewrite ExtractorFacts.parse_commits_spec.
  assert (Hs : Forall (fun l => Extractor.survives l = true)
                 (filter Extractor.survives (Extractor.lines_of stdout))).
  { apply Forall_forall. intros l Hl. now apply filter_In in Hl. }
  induction Hs as [|line L Hline _ IH]; [constructor|].
  cbn [map]. constructor; [|exact IH].
  pose proof (ExtractorMore.join_splitn Str.PIPE line 4) as Hj.
  assert (Hlen : List.length (Str.splitn Str.PIPE line 4) <= 5).
  { rewrite StrFacts.splitn_length. lia. }
  unfold Extractor.survives in Hline. apply Nat.leb_le in Hline.
  unfold Extractor.record_of. cbn [hash author_name date subject body].
  destruct (Str.splitn Str.PIPE line 4) as [|a [|b [|c [|d [|e [|g m]]]]]];
    simpl in Hlen, Hline; try lia.
  - left. exact (eq_sym Hj).
  - right. exact (eq_sym Hj).
Qed.

(** * More on the fetcher and the orchestrator *)

Module YieldFacts.

Lemma yields_ret (A : Type) (P : A -> Prop) a : P a -> yields P (ret a).
Proof. intros H E w. exact H. Qed.

Lemma yields_bind (A B : Type) (P : B -> Prop) (m : M A) (k : A -> M B) :
  (forall a, yields P (k a)) -> yields P (bind m k).
Proof.
  intros Hk E w. unfold bind. destruct (m E w) as [[a|r] w1]; [apply Hk | exact I].
Qed.

Lemma yields_try_except (A : Type) (P : A -> Prop) (m : M A) h :
  yields P m -> (forall e k, h e = Some k -> yields P k) ->
  yields P (try_except m h).
Proof.
  intros Hm Hh E w. unfold try_except. specialize (Hm E w).
  destruct (m E w) as [[a|[e|]] w1]; simpl in *; try exact Hm.
  destruct (h e) as [k|] eqn:Hk; [now apply (Hh e k) | exact I].
Qed.

Lemma yields_finally (A : Type) (P : A -> Prop) (m : M A) f :
  yields P m -> yields P (finally m f).
Proof.
  intros Hm E w. unfold finally. specialize (Hm E w).
  destruct (m E w) as [r w1]. destruct (f E w1) as [[u|r'] w2]; simpl in *;
    [exact Hm | exact I].
Qed.

Lemma yields_temp_directory (A : Type) (P : A -> Prop) (body : text -> M A) :
  (forall d, yields P (body d)) -> yields P (_temp_directory body).
Proof.
  intros Hb. unfold _temp_directory.
  repeat (apply yields_bind; intro). apply yields_finally, Hb.
Qed.

End YieldFacts.

Lemma parse_commits_tagged repo_name repo_project stdout :
  Forall (tagged repo_name repo_project)
         (Extractor.parse_commits repo_name repo_project stdout).
Proof.
  rewrite ExtractorFacts.parse_commits_spec. apply Forall_forall.
  intros c Hc. apply in_map_iff in Hc. destruct Hc as [line [<- _]].
  repeat split.
Qed.

Lemma get_commit_history_tagged repo_path repo_name repo_project f :
  yields (Forall (tagged repo_name repo_project))
         (_get_commit_history repo_path repo_name repo_project f).
Proof.
  intros E w. rewrite get_commit_history_cases.
  destruct (run_process E w (log_command f) (Some repo_path) false)
    as [rc out err|e].
  - destruct (rc =? 0)%Z; simpl; [apply parse_commits_tagged | constructor].
  - simpl. constructor.
Qed.

Lemma clone_and_extract_tagged repo_url repo_name repo_project f d :
  yields (Forall (tagged repo_name repo_project))
         (clone_and_extract repo_url repo_name repo_project f d).
Proof.
  unfold clone_and_extract. apply YieldFacts.yields_try_except.
  - apply YieldFacts.yields_bind. intros [[rc out] err].
    destruct (negb (rc =? 0)%Z).
    + apply YieldFacts.yields_bind. intros _.
      apply YieldFacts.yields_ret. constructor.
    + repeat (apply YieldFacts.yields_bind; intro).
      apply get_commit_history_tagged.
  - intros e k Hk. injection Hk as <-.
    apply YieldFacts.yields_bind. intros _.
    apply YieldFacts.yields_ret. constructor.
Qed.

Lemma process_repository_tagged repo_info f :
  yields (Forall (tagged (get_or (RepoInfo.name repo_info) (txt "unknown"))
                         (get_or (RepoInfo.project repo_info) (txt "Unknown"))))
         (_process_repository repo_info f).
Proof.
  unfold _process_repository.
  destruct (negb (truthy (get_or (RepoInfo.url repo_info) []))).
  - apply YieldFacts.yields_bind. intros _.
    apply YieldFacts.yields_ret. constructor.
  - apply YieldFacts.yields_bind. intros _.
    apply YieldFacts.yields_bind. intros w0.
    destruct (path_exists (fs w0) (get_or (RepoInfo.url repo_info) [])).
    + apply get_commit_history_tagged.
    + apply YieldFacts.yields_temp_directory. intros d.
      apply clone_and_extract_tagged.
Qed.

Lemma yields_commits_of (P : commit -> Prop) (m : M (list commit)) E w :
  yields (Forall P) m -> Forall P (commits_of (fst (m E w))).
Proof.
  intros H. specialize (H E w).
  destruct (fst (m E w)); simpl; [exact H | constructor].
Qed.

(** X4.  Every record a repository's task returns is tagged with that
    repository: its [repository] field is the descriptor's name
    ([unknown] when the name is missing), its [project] field the
    descriptor's project ([Unknown] when missing), and it has no
    [parsed_date] yet. *)
Theorem records_carry_their_repository
  (repo_info : RepoInfo.t) (f : filters) (E : env) (w : world) :
  Forall (tagged (get_or (RepoInfo.name repo_info) (txt "unknown"))
                 (get_or (RepoInfo.project repo_info) (txt "Unknown")))
         (commits_of (fst (_process_repository repo_info f E w))).
Proof.
  apply yields_commits_of, process_repository_tagged.
Qed.

Module PathFacts.
Import Path.

Lemma basename_no_sep p : ~ In SEP (basename p).
Proof.
  unfold basename.
  pose proof (ExtractorMore.split_lines_no_sep SEP p) as H.
  pose proof (StrFacts.split_nonempty SEP p) as Hne.
  rewrite Forall_forall in H. apply H.
  destruct (exists_last Hne) as [l [x Hx]]. rewrite Hx, last_last.
  apply in_or_app. right. now left.
Qed.

Lemma basename_trailing_sep p : basename (p ++ [SEP]) = [].
Proof.
  unfold basename. rewrite ExtractorFacts.split_snoc.
  rewrite Ascii.eqb_refl. apply last_last.
Qed.

End PathFacts.

(** X5.  Repositories given on the command line get the last path
    component as name, which holds no slash and is empty for a path
    that ends with a slash; they get no project, so their records carry
    the project [Unknown]. *)
Theorem command_line_repositories (a : args) (cfg : config) (p : text)
  (ps : list text) :
  a_config a = None ->
  a_repos a = Some (p :: ps) ->
  choose_repositories a cfg
  = Some (map (fun repo =>
                 RepoInfo.mk (Some (Path.basename repo)) (Some repo) None)
              (p :: ps))
  /\ Forall (fun repo => ~ In Path.SEP (Path.basename repo)) (p :: ps)
  /\ Path.basename (p ++ [Path.SEP]) = []
  /\ forall repo f E w,
       In repo (p :: ps) ->
       Forall (tagged (Path.basename repo) (txt "Unknown"))
              (commits_of
                 (fst (_process_repository
                         (RepoInfo.mk (Some (Path.basename repo)) (Some repo) None)
                         f E w))).
Proof.
  intros Hc Hr. split; [|split; [|split]].
  - unfold choose_repositories. now rewrite Hc, Hr.
  - apply Forall_forall. intros repo _. apply PathFacts.basename_no_sep.
  - apply PathFacts.basename_trailing_sep.
  - intros repo f E w _.
    apply yields_commits_of.
    apply (process_repository_tagged
             (RepoInfo.mk (Some (Path.basename repo)) (Some repo) None)).
Qed.

(** [--repos /repos/app/] names the repository with the empty string. *)
Lemma command_line_repositories_witness :
  choose_repositories
    (mkArgs None (Some [txt "/repos/app/"]) (txt "commit_log") None
            None None None None 4) empty_config
  = Some [RepoInfo.mk (Some []) (Some (txt "/repos/app/")) None].
Proof.
  exact (proj1 (command_line_repositories
                  (mkArgs None (Some [txt "/repos/app/"]) (txt "commit_log")
                          None None None None None 4)
                  empty_config (txt "/repos/app/") [] eq_refl eq_refl)).
Defined.

(** * More on ordering *)

Lemma lex_compare_eq a : forall b, lex_compare a b = Eq <-> a = b.
Proof.
  induction a as [|x a IH]; intros [|y b]; simpl; split; intros H;
    try discriminate; try reflexivity.
  - destruct (Nat.compare_spec x y); try discriminate.
    subst. f_equal. now apply IH.
  - injection H as -> ->. rewrite Nat.compare_refl. now apply IH.
Qed.

Lemma codes_inj a : forall b, codes a = codes b -> a = b.
Proof.
  induction a as [|x a IH]; intros [|y b] H; simpl in H; try discriminate;
    [reflexivity|].
  injection H as Hx Hr. f_equal; [|now apply IH].
  rewrite <- (ascii_nat_embedding x), <- (ascii_nat_embedding y).
  now rewrite Hx.
Qed.

Section SortingMore.
Variables (A : Type) (key : A -> list nat).

Lemma insert_desc_stable k x l :
  filter (fun y => match lex_compare (key y) k with Eq => true | _ => false end)
         (insert_desc key x l)
  = filter (fun y => match lex_compare (key y) k with Eq => true | _ => false end)
           (x :: l).
Proof.
  induction l as [|y l IH]; [reflexivity|].
  cbn [insert_desc]. destruct (lex_compare (key x) (key y)) eqn:Hxy;
    try reflexivity.
  cbn [filter] in *. rewrite IH.
  destruct (lex_compare (key x) k) eqn:Hx; try reflexivity.
  apply lex_compare_eq in Hx. rewrite <- Hx.
  rewrite (lex_compare_antisym (key x) (key y)), Hxy. reflexivity.
Qed.

(** The sort is stable: elements with one key keep their order. *)
Lemma sort_desc_stable k l :
  filter (fun y => match lex_compare (key y) k with Eq => true | _ => false end)
         (sort_desc key l)
  = filter (fun y => match lex_compare (key y) k with Eq => true | _ => false end)
           l.
Proof.
  induction l as [|x l IH]; [reflexivity|].
  cbn [sort_desc fold_right]. fold (sort_desc key l).
  rewrite insert_desc_stable. cbn [filter]. now rewrite IH.
Qed.

(** Sorting a list that is in order changes nothing. *)
Lemma sort_desc_of_sorted l : sorted_desc key l -> sort_desc key l = l.
Proof.
  unfold sorted_desc. induction 1 as [|x l Hs IH Hx]; [reflexivity|].
  cbn [sort_desc fold_right]. fold (sort_desc key l). rewrite IH.
  destruct l as [|y l']; [reflexivity|].
  cbn [insert_desc]. apply Forall_inv in Hx. unfold lex_le in Hx.
  rewrite (lex_compare_antisym (key y) (key x)).
  destruct (lex_compare (key y) (key x)); simpl; congruence.
Qed.

End SortingMore.

(** X6.  The order of the collection result is stable: records with
    the same raw date appear in the order in which they were merged. *)
Theorem equal_dates_keep_merge_order
  (cfg : config) (all_commits : list commit) (d : text) :
  filter (fun c => text_eqb (date c) d) (finish cfg all_commits)
  = filter (fun c => text_eqb (date c) d) (select_authors cfg all_commits).
Proof.
  assert (Hf : forall l,
             filter (fun c => text_eqb (date c) d) l
             = filter (fun c => match lex_compare (codes (date c)) (codes d) with
                                | Eq => true
                                | _ => false
                                end) l).
  { intros l. apply filter_ext_perm. intros c. cbv beta.
    destruct (lex_compare (codes (date c)) (codes d)) eqn:Hc.
    - apply lex_compare_eq, codes_inj in Hc. rewrite Hc. apply text_eqb_refl.
    - apply text_eqb_neq. intros Heq. rewrite Heq in Hc.
      now rewrite lex_compare_refl in Hc.
    - apply text_eqb_neq. intros Heq. rewrite Heq in Hc.
      now rewrite lex_compare_refl in Hc. }
  rewrite !Hf. unfold finish, sort_by_date.
  apply (sort_desc_stable commit (fun c => codes (date c)) (codes d)).
Qed.

(** ** Dates in ISO form parse to themselves *)

Module IsoFacts.
Import Strptime.

Lemma heads_bind (A B : Type) (p : matcher A) (f : A -> matcher B) s a r b r' :
  heads p s a r -> heads (f a) r b r' -> heads (bind p f) s b r'.
Proof.
  intros [rest Hp] [rest' Hf]. unfold heads, bind. rewrite Hp. simpl.
  rewrite Hf.
  eexists. reflexivity.
Qed.

Lemma heads_ret (A : Type) (a : A) s : heads (ret a) s a s.
Proof. exists []. reflexivity. Qed.

Lemma heads_lit c r : heads (lit c) (c :: r) tt r.
Proof. exists []. unfold lit. now rewrite Ascii.eqb_refl. Qed.

Tactic Notation "below" integer(n) ident(v) :=
  do n (destruct v as [|v]; [first [lia | eexists; reflexivity]|]).

Lemma heads_dY y r : y < 100 * 100 ->
  heads dY (two_digits (y / 100) ++ two_digits (y mod 100) ++ r) y r.
Proof.
  intros Hy.
  assert (Hd : forall v r', v < 100 ->
             two (dig 0 9) (dig 0 9) (two_digits v ++ r') = [(v, r')]).
  { intros v r' Hv.
    assert (Hq : v / 10 < 10) by (apply Nat.Div0.div_lt_upper_bound; lia).
    assert (Hr : v mod 10 < 10) by (apply Nat.mod_upper_bound; lia).
    assert (Hdig : forall k s, k < 10 -> dig 0 9 (digit_char k :: s) = [(k, s)]).
    { intros k s Hk. do 10 (destruct k as [|k]; [reflexivity|]). lia. }
    unfold two, bind, two_digits. cbn [app].
    rewrite (Hdig _ _ Hq). cbn [flat_map fst snd app].
    rewrite (Hdig _ _ Hr). cbn [flat_map fst snd app]. unfold ret.
    rewrite app_nil_r. do 2 f_equal.
    rewrite (Nat.div_mod_eq v 10) at 3. reflexivity. }
  assert (Hhi : y / 100 < 100) by (apply Nat.Div0.div_lt_upper_bound; lia).
  assert (Hlo : y mod 100 < 100) by (apply Nat.mod_upper_bound; lia).
  exists []. unfold dY, bind. rewrite (Hd _ _ Hhi). cbn [flat_map fst snd app].
  rewrite (Hd _ _ Hlo). cbn [flat_map fst snd app]. unfold ret.
  do 2 f_equal. rewrite (Nat.div_mod_eq y 100) at 3. reflexivity.
Qed.

Lemma heads_dm v r : 1 <= v <= 12 -> heads dm (two_digits v ++ r) v r.
Proof. intros Hv. unfold heads. below 13 v. lia. Qed.

Lemma heads_dd v r : 1 <= v <= 31 -> heads dd (two_digits v ++ r) v r.
Proof. intros Hv. unfold heads. below 32 v. lia. Qed.

Lemma heads_dH v r : v <= 23 -> heads dH (two_digits v ++ r) v r.
Proof. intros Hv. unfold heads. below 24 v. lia. Qed.

Lemma heads_dM v r : v <= 59 -> heads dM (two_digits v ++ r) v r.
Proof. intros Hv. unfold heads. below 60 v. lia. Qed.

Lemma heads_dS v r : v <= 59 -> heads dS (two_digits v ++ r) v r.
Proof. intros Hv. unfold heads. below 60 v. lia. Qed.

Lemma heads_spaces v r : v <= 23 ->
  heads spaces (" "%char :: two_digits v ++ r) tt (two_digits v ++ r).
Proof. intros Hv. unfold heads. below 24 v. lia. Qed.

Lemma days_in_month_le y m : days_in_month y m <= 31.
Proof.
  unfold days_in_month.
  do 12 (destruct m as [|m]; [try destruct (is_leap y); lia|]). lia.
Qed.

(** The pattern reads the ISO form of a valid time as that time. *)
Lemma strptime_iso d :
  valid d = true -> microsecond d = 0 -> strptime (iso_text d) = Some d.
Proof.
  intros Hv Hus. pose proof Hv as Hv'. unfold valid in Hv'.
  repeat (apply andb_prop in Hv'; destruct Hv' as [Hv' ?]).
  repeat match goal with
         | H : (_ <=? _) = true |- _ => apply Nat.leb_le in H
         | H : (_ <? _) = true |- _ => apply Nat.ltb_lt in H
         end.
  pose proof (days_in_month_le (year d) (month d)).
  assert (Hp : heads pattern (iso_text d)
                 (mkDatetime (year d) (month d) (day d) (hour d) (minute d)
                             (second d) 0) []).
  { unfold pattern, iso_text, txt. cbn [list_ascii_of_string app].
    eapply heads_bind; [apply heads_dY; assumption|].
    eapply heads_bind; [apply heads_lit|].
    eapply heads_bind; [apply heads_dm; lia|].
    eapply heads_bind; [apply heads_lit|].
    eapply heads_bind; [apply heads_dd; lia|].
    eapply heads_bind; [apply heads_spaces; lia|].
    eapply heads_bind; [apply heads_dH; lia|].
    eapply heads_bind; [apply heads_lit|].
    eapply heads_bind; [apply heads_dM; lia|].
    eapply heads_bind; [apply heads_lit|].
    rewrite <- (app_nil_r (two_digits (second d))).
    eapply heads_bind; [apply heads_dS; lia|].
    apply heads_ret. }
  destruct Hp as [rest Hp]. unfold strptime. rewrite Hp.
  replace (mkDatetime (year d) (month d) (day d) (hour d) (minute d)
                      (second d) 0) with d
    by (destruct d; simpl in *; now subst).
  now rewrite Hv.
Qed.

Lemma iso_text_length d : List.length (iso_text d) = 19.
Proof. reflexivity. Qed.

End IsoFacts.

Module IsoOrder.

Lemma code_digit k : k < 10 -> nat_of_ascii (digit_char k) = 48 + k.
Proof. intros H. unfold digit_char. apply nat_ascii_embedding. lia. Qed.

Lemma cmp_sep c x y :
  lex_compare (codes (c :: x)) (codes (c :: y)) = lex_compare (codes x) (codes y).
Proof. simpl. now rewrite Nat.compare_refl. Qed.

(** Two digits compare as the number they write. *)
Lemma cmp_two a b x y : a < 100 -> b < 100 ->
  lex_compare (codes (two_digits a ++ x)) (codes (two_digits b ++ y))
  = match a ?= b with
    | Eq => lex_compare (codes x) (codes y)
    | c => c
    end.
Proof.
  intros Ha Hb.
  assert (a / 10 < 10) by (apply Nat.Div0.div_lt_upper_bound; lia).
  assert (b / 10 < 10) by (apply Nat.Div0.div_lt_upper_bound; lia).
  assert (a mod 10 < 10) by (apply Nat.mod_upper_bound; lia).
  assert (b mod 10 < 10) by (apply Nat.mod_upper_bound; lia).
  unfold two_digits, codes. cbn [app map lex_compare].
  rewrite !code_digit by assumption.
  pose proof (Nat.div_mod_eq a 10). pose proof (Nat.div_mod_eq b 10).
  destruct (Nat.compare_spec (48 + a / 10) (48 + b / 10)),
    (Nat.compare_spec (48 + a mod 10) (48 + b mod 10)),
    (Nat.compare_spec a b); try reflexivity; lia.
Qed.

Lemma cmp_year y1 y2 (X : comparison) : y1 < 100 * 100 -> y2 < 100 * 100 ->
  match y1 / 100 ?= y2 / 100 with
  | Eq => match y1 mod 100 ?= y2 mod 100 with Eq => X | c => c end
  | c => c
  end
  = match y1 ?= y2 with Eq => X | c => c end.
Proof.
  intros H1 H2.
  pose proof (Nat.div_mod_eq y1 100). pose proof (Nat.div_mod_eq y2 100).
  assert (y1 mod 100 < 100) by (apply Nat.mod_upper_bound; lia).
  assert (y2 mod 100 < 100) by (apply Nat.mod_upper_bound; lia).
  destruct (Nat.compare_spec (y1 / 100) (y2 / 100)),
    (Nat.compare_spec (y1 mod 100) (y2 mod 100)),
    (Nat.compare_spec y1 y2); try reflexivity; lia.
Qed.

Lemma valid_bounds d : Strptime.valid d = true ->
  year d < 100 * 100 /\ month d < 100 /\ day d < 100
  /\ hour d < 100 /\ minute d < 100 /\ second d < 100.
Proof.
  intros Hv. unfold Strptime.valid in Hv.
  repeat (apply andb_prop in Hv; destruct Hv as [Hv ?]).
  repeat match goal with
         | H : (_ <=? _) = true |- _ => apply Nat.leb_le in H
         | H : (_ <? _) = true |- _ => apply Nat.ltb_lt in H
         end.
  pose proof (IsoFacts.days_in_month_le (year d) (month d)). lia.
Qed.

(** Dates in ISO form compare, as strings, the way their times do; the
    rest of the string decides between equal times. *)
Lemma cmp_iso d1 d2 s1 s2 :
  Strptime.valid d1 = true -> Strptime.valid d2 = true ->
  microsecond d1 = 0 -> microsecond d2 = 0 ->
  lex_compare (codes (iso_text d1 ++ s1)) (codes (iso_text d2 ++ s2))
  = match lex_compare (dt_fields d1) (dt_fields d2) with
    | Eq => lex_compare (codes s1) (codes s2)
    | c => c
    end.
Proof.
  intros V1 V2 U1 U2.
  destruct (valid_bounds d1 V1) as [? [? [? [? [? ?]]]]].
  destruct (valid_bounds d2 V2) as [? [? [? [? [? ?]]]]].
  assert (year d1 / 100 < 100) by (apply Nat.Div0.div_lt_upper_bound; lia).
  assert (year d2 / 100 < 100) by (apply Nat.Div0.div_lt_upper_bound; lia).
  assert (year d1 mod 100 < 100) by (apply Nat.mod_upper_bound; lia).
  assert (year d2 mod 100 < 100) by (apply Nat.mod_upper_bound; lia).
  unfold iso_text, txt. cbn [list_ascii_of_string]. rewrite <- !app_assoc.
  cbn [app].
  rewrite cmp_two by assumption. rewrite cmp_two by assumption.
  rewrite cmp_sep. rewrite cmp_two by assumption.
  rewrite cmp_sep. rewrite cmp_two by assumption.
  rewrite cmp_sep. rewrite cmp_two by assumption.
  rewrite cmp_sep. rewrite cmp_two by assumption.
  rewrite cmp_sep. rewrite cmp_two by assumption.
  rewrite cmp_year by assumption.
  unfold dt_fields. cbn [lex_compare]. rewrite U1, U2.
  destruct (year d1 ?= year d2); try reflexivity.
  destruct (month d1 ?= month d2); try reflexivity.
  destruct (day d1 ?= day d2); try reflexivity.
  destruct (hour d1 ?= hour d2); try reflexivity.
  destruct (minute d1 ?= minute d2); try reflexivity.
  destruct (second d1 ?= second d2); reflexivity.
Qed.

End IsoOrder.

Lemma timestamp_of_iso now c d suffix :
  date c = iso_text d ++ suffix ->
  Strptime.valid d = true -> microsecond d = 0 ->
  timestamp_of now c = d.
Proof.
  intros Hd Hv Hus. unfold timestamp_of. rewrite Hd.
  rewrite firstn_app, (IsoFacts.iso_text_length d).
  rewrite firstn_all2 by (rewrite IsoFacts.iso_text_length; lia).
  cbn [Nat.sub firstn]. rewrite app_nil_r.
  now rewrite IsoFacts.strptime_iso.
Qed.

(** X7.  A raw date that starts with the ISO form of a valid time gets
    that time as its timestamp, whatever follows the 19th character (the
    zone is not used) and whatever the clock says: the fallback to the
    current time is not taken. *)
Theorem iso_date_gives_its_time (now : datetime) (c : commit) (d : datetime)
  (suffix : text) :
  date c = iso_text d ++ suffix ->
  Strptime.valid d = true ->
  microsecond d = 0 ->
  timestamp_of now c = d.
Proof. apply timestamp_of_iso. Qed.

(** The first record of the sample log, read in 2026. *)
Lemma iso_date_gives_its_time_witness :
  timestamp_of Sample.now
    (mkCommit (txt "repo") (txt "proj") Sample.sha (txt "Alice")
              (txt "2024-01-05 10:00:00 +0000") (txt "Add table") [] None)
  = mkDatetime 2024 1 5 10 0 0 0.
Proof.
  exact (iso_date_gives_its_time Sample.now
           (mkCommit (txt "repo") (txt "proj") Sample.sha (txt "Alice")
                     (txt "2024-01-05 10:00:00 +0000") (txt "Add table") [] None)
           (mkDatetime 2024 1 5 10 0 0 0) (txt " +0000")
           eq_refl eq_refl eq_refl).
Defined.

Lemma iso_key_order now a b :
  iso_dated a -> iso_dated b ->
  lex_le (codes (date b)) (codes (date a)) ->
  lex_le (dt_fields (timestamp_of now b)) (dt_fields (timestamp_of now a)).
Proof.
  intros [da [sa [Ha [Va Ua]]]] [db [sb [Hb [Vb Ub]]]] Hle.
  rewrite (timestamp_of_iso now a da sa Ha Va Ua).
  rewrite (timestamp_of_iso now b db sb Hb Vb Ub).
  unfold lex_le in *. rewrite Hb, Ha in Hle.
  rewrite (IsoOrder.cmp_iso db da sb sa Vb Va Ub Ua) in Hle.
  destruct (lex_compare (dt_fields db) (dt_fields da)); congruence.
Qed.

Lemma sorted_by_date_sorted_by_time now l :
  Forall iso_dated l ->
  sorted_desc (fun c => codes (date c)) l ->
  sorted_desc (fun c => dt_fields (timestamp_of now c)) l.
Proof.
  unfold sorted_desc. intros Hiso Hs.
  induction Hs as [|a l Hs IH Ha]; [constructor|].
  inversion Hiso as [|? ? Hia Hil]; subst.
  constructor; [now apply IH|].
  rewrite Forall_forall in *. intros b Hb.
  apply iso_key_order; auto.
Qed.

Lemma finish_iso_dated cfg all_commits :
  Forall iso_dated all_commits -> Forall iso_dated (finish cfg all_commits).
Proof.
  intros H. rewrite Forall_forall in *. intros c Hc.
  apply H. now apply (finish_In cfg).
Qed.

(** X8.  When every merged record has a raw date in ISO form, the
    collection result, ordered by the raw date strings, is also in
    descending order of the timestamps. *)
Theorem iso_dates_order_by_time
  (cfg : config) (all_commits : list commit) (now : datetime) :
  Forall iso_dated all_commits ->
  sorted_desc (fun c => dt_fields (timestamp_of now c)) (finish cfg all_commits).
Proof.
  intros H. apply sorted_by_date_sorted_by_time.
  - now apply finish_iso_dated.
  - apply sort_desc_sorted.
Qed.

Lemma two_lines_iso_dated :
  Forall iso_dated
    (Extractor.parse_commits (txt "repo") (txt "proj")
       (Str.join [Str.LF] Sample.two_lines)).
Proof.
  constructor; [|constructor; [|constructor]].
  - exists (mkDatetime 2024 1 5 10 0 0 0), (txt " +0000").
    repeat split; reflexivity.
  - exists (mkDatetime 2024 1 6 9 30 0 0), (txt " +0000").
    repeat split; reflexivity.
Defined.

(** Two records with ISO dates, newest first. *)
Lemma iso_dates_order_by_time_witness :
  let all_commits :=
    Extractor.parse_commits (txt "repo") (txt "proj")
      (Str.join [Str.LF] Sample.two_lines) in
  Forall iso_dated all_commits
  /\ sorted_desc (fun c => dt_fields (timestamp_of Sample.now c))
                 (finish empty_config all_commits).
Proof.
  intros all_commits. split; [exact two_lines_iso_dated|].
  exact (iso_dates_order_by_time empty_config all_commits Sample.now
           two_lines_iso_dated).
Defined.

Lemma dated_In now l : forall i c',
  In c' (dated now i l) ->
  exists c k, In c l /\ c' = set_parsed_date c (timestamp_of (now k) c).
Proof.
  induction l as [|c l IH]; intros i c' H; [destruct H|].
  simpl in H. destruct H as [<-|H].
  - exists c, i. split; [now left | reflexivity].
  - destruct (IH (S i) c' H) as [c0 [k [Hin Heq]]].
    exists c0, k. split; [now right | exact Heq].
Qed.

Lemma dated_sorted now n0 l :
  Forall iso_dated l ->
  sorted_desc (fun c => dt_fields (timestamp_of n0 c)) l ->
  forall i, sorted_desc parsed_key (dated now i l).
Proof.
  unfold sorted_desc. intros Hiso Hs.
  induction Hs as [|a l Hs IH Ha]; intros i; [constructor|].
  inversion Hiso as [|? ? Hia Hil]; subst.
  cbn [dated]. constructor; [now apply IH|].
  apply Forall_forall. intros c' Hc'.
  destruct (dated_In now l (S i) c' Hc') as [c [k [Hin ->]]].
  rewrite Forall_forall in Ha, Hil. specialize (Ha c Hin).
  destruct Hia as [da [sa [Hda [Va Ua]]]].
  destruct (Hil c Hin) as [dc [sc [Hdc [Vc Uc]]]].
  unfold parsed_key, set_parsed_date. cbn [parsed_date].
  rewrite (timestamp_of_iso (now k) c dc sc Hdc Vc Uc).
  rewrite (timestamp_of_iso (now i) a da sa Hda Va Ua).
  rewrite (timestamp_of_iso n0 c dc sc Hdc Vc Uc) in Ha.
  rewrite (timestamp_of_iso n0 a da sa Hda Va Ua) in Ha.
  exact Ha.
Qed.

(** X9.  When every merged record has a raw date in ISO form, the sort
    of the logbook generation moves nothing: both logbooks list the
    records in the order of the collection result, which is the order of
    the rows of the tabular export. *)
Theorem iso_dates_logbook_keeps_order
  (cfg : config) (all_commits : list commit) (base_name : text)
  (E : env) (w : world) :
  Forall iso_dated all_commits ->
  Forall (fun ev =>
            match ev with
            | EvWrote _ (MarkdownLog l) | EvWrote _ (HtmlLog l) =>
                map row_of l = map row_of (finish cfg all_commits)
            | _ => True
            end)
         (new_events w
            (snd (generate_logbook (finish cfg all_commits) base_name E w))).
Proof.
  intros Hiso.
  pose proof (finish_iso_dated cfg all_commits Hiso) as Hf.
  pose proof (sorted_by_date_sorted_by_time Sample.now _ Hf
                (sort_desc_sorted _ _ _)) as Hs.
  fold (sort_by_date (select_authors cfg all_commits)) in Hs.
  fold (finish cfg all_commits) in Hs.
  destruct (finish cfg all_commits) as [|c cs].
  - simpl. unfold bind, log, emit, ret. simpl.
    rewrite new_events_app. repeat constructor.
  - assert (Hl : map row_of (sort_by_parsed_date
                               (dated (clock_now E w) 0 (c :: cs)))
                 = map row_of (c :: cs)).
    { unfold sort_by_parsed_date.
      rewrite (sort_desc_of_sorted commit parsed_key _
                 (dated_sorted (clock_now E w) Sample.now (c :: cs) Hf Hs 0)).
      apply dated_rows. }
    rewrite generate_logbook_cases.
    destruct (log_sections _) as [e|sections].
    { simpl. rewrite new_events_same. constructor. }
    destruct (write_error E w (base_name ++ txt ".md")) as [e|].
    + simpl. rewrite new_events_same. constructor.
    + match goal with
      | |- context [write_error E ?w1 ?p] => destruct (write_error E w1 p) as [e|]
      end.
      * simpl. rewrite new_events_app. constructor; [exact Hl | constructor].
      * simpl. rewrite <- app_assoc. rewrite new_events_app.
        constructor; [exact Hl|]. constructor; [exact Hl | constructor].
Qed.

(** The same two records: the logbooks keep their order. *)
Lemma iso_dates_logbook_keeps_order_witness :
  let all_commits :=
    Extractor.parse_commits (txt "repo") (txt "proj")
      (Str.join [Str.LF] Sample.two_lines) in
  Forall (fun ev =>
            match ev with
            | EvWrote _ (MarkdownLog l) | EvWrote _ (HtmlLog l) =>
                map row_of l = map row_of (finish empty_config all_commits)
            | _ => True
            end)
         (trace (snd (generate_logbook (finish empty_config all_commits)
                        (txt "commit_log") Sample.calm_env (initial [])))).
Proof.
  intros all_commits.
  exact (iso_dates_logbook_keeps_order empty_config all_commits
           (txt "commit_log") Sample.calm_env (initial [])
           two_lines_iso_dated).
Defined.

(** * More on the workspace manager *)

Lemma free_name_first fuel files original : forall counter d,
  free_name fuel files original counter = Some d ->
  exists k,
    d = candidate original (counter + k) /\ k < fuel
    /\ path_exists files d = false
    /\ forall j, j < k ->
         path_exists files (candidate original (counter + j)) = true.
Proof.
  induction fuel as [|n IH]; intros counter d H; [discriminate H|].
  simpl in H.
  destruct (path_exists files (candidate original counter)) eqn:Hex.
  - destruct (IH (S counter) d H) as [k [Hd [Hk [Hf Hall]]]].
    exists (S k). split; [now rewrite Nat.add_succ_r|].
    split; [lia|]. split; [exact Hf|].
    intros [|j] Hj; [now rewrite Nat.add_0_r|].
    rewrite Nat.add_succ_r. apply (Hall j). lia.
  - injection H as <-. exists 0. rewrite Nat.add_0_r.
    split; [reflexivity|]. split; [lia|]. split; [exact Hex|].
    intros j Hj. lia.
Qed.

(** The name chosen is the first of [original], [original_1],
    [original_2], ... that does not exist. *)
Lemma fresh_dir_first files original :
  exists k,
    fresh_dir files original = candidate original k
    /\ k <= List.length files
    /\ path_exists files (candidate original k) = false
    /\ forall j, j < k -> path_exists files (candidate original j) = true.
Proof.
  unfold fresh_dir.
  destruct (free_name_total files original) as [d [Hd _]]. rewrite Hd.
  destruct (free_name_first _ _ _ _ _ Hd) as [k [Hk [Hlt [Hf Hall]]]].
  simpl in Hk. exists k. split; [exact Hk|]. split; [lia|].
  split; [now rewrite <- Hk | exact Hall].
Qed.

(** X10.  The workspace is the first of the names [original],
    [original_1], [original_2], ... that does not exist, where
    [original] is [temp_git_clone_<milliseconds>] in the current
    directory; the search needs no more steps than there are existing
    paths.  The directory is created before the body of the [with]
    block runs: when the creation fails its error is raised at once,
    the body is not run and nothing is recorded or deleted; otherwise
    the directory is recorded in [temp_dirs], the creation is logged,
    and the body runs with the cleanup of that directory as its
    [finally]. *)
Theorem workspace_is_first_free_name
  (A : Type) (body : text -> M A) (E : env) (w : world) :
  let original :=
    Path.join (getcwd E) (txt "temp_git_clone_" ++ dec (time_ms E w)) in
  exists k,
    k <= List.length (fs w)
    /\ path_exists (fs w) (candidate original k) = false
    /\ (forall j, j < k -> path_exists (fs w) (candidate original j) = true)
    /\ _temp_directory body E w
       = let d := candidate original k in
         match makedirs_error E w d with
         | Some e => (Raise (Exc e), add_events w [EvMakedirs d])
         | None =>
             finally (body d) (_cleanup_directory d) E
               (mkWorld (d :: fs w) (temp_dirs w ++ [d])
                  (trace w ++ [EvMakedirs d; EvLog LInfo (MsgCreatedTemp d)]))
         end.
Proof.
  intros original.
  destruct (fresh_dir_first (fs w) original) as [k [Hk [Hle [Hf Hall]]]].
  exists k. split; [exact Hle|]. split; [exact Hf|]. split; [exact Hall|].
  cbv zeta. rewrite <- Hk. apply temp_directory_run.
Qed.

Lemma under_self d : Path.under d d = true.
Proof. unfold Path.under. now rewrite text_eqb_refl. Qed.

Lemma path_exists_In files p : path_exists files p = true <-> In p files.
Proof.
  unfold path_exists. rewrite existsb_exists. split.
  - intros [q [Hin Heq]]. apply text_eqb_eq in Heq. now subst.
  - intros Hin. exists p. split; [exact Hin | apply text_eqb_refl].
Qed.

Lemma path_exists_not_In files p : path_exists files p = false <-> ~ In p files.
Proof.
  rewrite <- path_exists_In. destruct (path_exists files p); split; congruence.
Qed.

(** What a deletion that does not fail leaves. *)
Lemma cleanup_directory_removes d E w :
  rmtree_error E w d = None ->
  let w' := snd (_cleanup_directory d E w) in
  path_exists (fs w') d = false
  /\ fs w' = (if path_exists (fs w) d
              then filter (fun p => negb (Path.under d p)) (fs w)
              else fs w)
  /\ temp_dirs w' = temp_dirs w.
Proof.
  intros Hrm. unfold _cleanup_directory, try_except, bind, get_world.
  destruct (path_exists (fs w) d) eqn:Hex.
  - unfold rmtree. rewrite Hrm. cbn. split; [|split; reflexivity].
    apply path_exists_not_In. intros Hin. apply filter_In in Hin.
    destruct Hin as [_ Hn]. now rewrite under_self in Hn.
  - cbn. rewrite Hex. auto.
Qed.

(** X11.  When the workspace was created and its deletion does not
    fail, then on every way out of the [with] block (the body returns,
    raises, or is interrupted) the workspace does not exist afterwards,
    the cleanup has added no path, and the outcome of the block is the
    outcome of its body; the directory stays recorded in [temp_dirs]. *)
Theorem workspace_removed_on_exit
  (A : Type) (body : text -> M A) (E : env) (w : world) :
  let d := fresh_dir (fs w)
             (Path.join (getcwd E) (txt "temp_git_clone_" ++ dec (time_ms E w))) in
  let w1 := mkWorld (d :: fs w) (temp_dirs w ++ [d])
              (trace w ++ [EvMakedirs d; EvLog LInfo (MsgCreatedTemp d)]) in
  makedirs_error E w d = None ->
  rmtree_error E (snd (body d E w1)) d = None ->
  let r := _temp_directory body E w in
  fst r = fst (body d E w1)
  /\ path_exists (fs (snd r)) d = false
  /\ incl (fs (snd r)) (fs (snd (body d E w1)))
  /\ temp_dirs (snd r) = temp_dirs (snd (body d E w1)).
Proof.
  intros d w1 Hmk Hrm r. subst r.
  rewrite temp_directory_run. fold d. rewrite Hmk. fold w1.
  unfold finally. destruct (body d E w1) as [res w2]. cbn [fst snd] in *.
  destruct (cleanup_directory_removes d E w2 Hrm) as [Hgone [Hfs Htd]].
  destruct (cleanup_directory_returns d E w2) as [u Hu].
  destruct (_cleanup_directory d E w2) as [r3 w3]. cbn [fst snd] in *.
  subst r3. cbn [fst snd].
  split; [reflexivity|]. split; [exact Hgone|]. split; [|exact Htd].
  rewrite Hfs. destruct (path_exists (fs w2) d).
  - intros p Hp. now apply filter_In in Hp.
  - apply incl_refl.
Qed.

(** A clone that fails: the task returns no records and the workspace
    is gone. *)
Lemma workspace_removed_on_exit_witness :
  let body := clone_and_extract (txt "https://example.org/lib.git") (txt "lib")
                (txt "Libs") Sample.no_filters in
  let r := _temp_directory body Sample.offline_env (initial []) in
  fst r = Ok [] /\ path_exists (fs (snd r)) Sample.workspace = false.
Proof.
  intros body r.
  destruct (workspace_removed_on_exit (list commit) body Sample.offline_env
              (initial []) eq_refl eq_refl) as [H1 [H2 _]].
  split; [exact H1 | exact H2].
Defined.

(** * More on the final sweep *)

Lemma cleanup_directory_shrinks d E w :
  incl (fs (snd (_cleanup_directory d E w))) (fs w).
Proof.
  unfold _cleanup_directory, try_except, bind, get_world.
  destruct (path_exists (fs w) d); [|apply incl_refl].
  unfold rmtree. destruct (rmtree_error E w d) as [e|].
  - cbn [is_PermissionError]. destruct (is_PermissionError e).
    + unfold try_except, bind, subprocess_run. cbn [fs temp_dirs trace].
      match goal with
      | |- context [run_process E ?w1 ?c ?d0 ?s] =>
          destruct (run_process E w1 c d0 s)
      end; apply incl_refl.
    + apply incl_refl.
  - cbn. intros p Hp. now apply filter_In in Hp.
Qed.

Lemma cleanup_each_sweeps E : (forall w d, rmtree_error E w d = None) ->
  forall dirs w,
    let w' := snd (cleanup_each dirs E w) in
    Forall (fun d => path_exists (fs w') d = false) dirs
    /\ temp_dirs w' = temp_dirs w.
Proof.
  intros Hrm. induction dirs as [|d rest IH]; intros w w'.
  - split; [constructor | reflexivity].
  - subst w'. cbn [cleanup_each]. unfold bind.
    destruct (cleanup_directory_removes d E w (Hrm w d)) as [Hgone [_ Htd]].
    destruct (cleanup_directory_returns d E w) as [u Hu].
    destruct (_cleanup_directory d E w) as [r1 w1]. cbn [fst snd] in *.
    subst r1. destruct (IH w1) as [Hall Htd'].
    split; [|congruence]. constructor; [|exact Hall].
    apply path_exists_not_In. intros Hin.
    apply path_exists_not_In in Hgone. apply Hgone.
    clear -Hin. revert w1 Hin. induction rest as [|d' rest IH]; intros w1 Hin.
    + exact Hin.
    + cbn [cleanup_each] in Hin. unfold bind in Hin.
      pose proof (cleanup_directory_shrinks d' E w1) as Hs.
      destruct (cleanup_directory_returns d' E w1) as [u Hu].
      destruct (_cleanup_directory d' E w1) as [r2 w2]. cbn [fst snd] in *.
      subst r2. apply Hs. now apply IH.
Qed.

Lemma cleanup_each_shrinks E dirs : forall w,
  incl (fs (snd (cleanup_each dirs E w))) (fs w).
Proof.
  induction dirs as [|d rest IH]; intros w; [apply incl_refl|].
  cbn [cleanup_each]. unfold bind.
  pose proof (cleanup_directory_shrinks d E w) as Hs.
  destruct (cleanup_directory_returns d E w) as [u Hu].
  destruct (_cleanup_directory d E w) as [r1 w1]. cbn [fst snd] in *.
  subst r1. intros p Hp. apply Hs. now apply IH.
Qed.

Lemma cleanup_temp_directories_run E w :
  exists evs,
    cleanup_temp_directories E w
    = bind (cleanup_each (temp_dirs w)) (fun _ => clear_temp_dirs)
           E (add_events w evs).
Proof.
  destruct w as [f td tr]. destruct td as [|d ds].
  - exists []. unfold add_events. cbn [fs temp_dirs trace].
    rewrite app_nil_r. reflexivity.
  - exists [EvLog LInfo (MsgCleaningUp (List.length (d :: ds)))]. reflexivity.
Qed.

(** X12.  When deletion does not fail, the final sweep returns normally,
    leaves none of the recorded directories in existence, creates no
    path, and empties the record. *)
Theorem sweep_removes_recorded_workspaces (E : env) (w : world) :
  (forall w0 d, rmtree_error E w0 d = None) ->
  let r := cleanup_temp_directories E w in
  fst r = Ok tt
  /\ temp_dirs (snd r) = []
  /\ Forall (fun d => path_exists (fs (snd r)) d = false) (temp_dirs w)
  /\ incl (fs (snd r)) (fs w).
Proof.
  intros Hrm r. subst r.
  destruct (cleanup_temp_directories_run E w) as [evs ->]. unfold bind.
  destruct (cleanup_each_sweeps E Hrm (temp_dirs w) (add_events w evs))
    as [Hall _].
  pose proof (cleanup_each_shrinks E (temp_dirs w) (add_events w evs)) as Hs.
  destruct (cleanup_each_returns (temp_dirs w) E (add_events w evs)) as [u Hu].
  destruct (cleanup_each (temp_dirs w) E (add_events w evs)) as [r1 w1].
  cbn [fst snd] in *. subst r1. unfold clear_temp_dirs.
  cbn [fst snd fs temp_dirs].
  split; [reflexivity|]. split; [reflexivity|]. split; assumption.
Qed.

(** A workspace left with a clone in it, beside a local repository. *)
Lemma sweep_removes_recorded_workspaces_witness :
  let w := mkWorld [Sample.workspace; Sample.workspace ++ txt "/lib"; txt "/repos/app"]
                   [Sample.workspace] [] in
  let r := cleanup_temp_directories Sample.calm_env w in
  fs (snd r) = [txt "/repos/app"] /\ temp_dirs (snd r) = [].
Proof.
  intros w r.
  destruct (sweep_removes_recorded_workspaces Sample.calm_env w
              (fun _ _ => eq_refl)) as [_ [H _]].
  split; [reflexivity | exact H].
Defined.

(** * More on the entry point *)

(** X13.  A configuration file that cannot be loaded costs one error
    line in the log; after it the run goes on exactly as if [--config]
    had not been given: repositories and filters come from the command
    line alone. *)
Theorem unreadable_config_is_ignored
  (a : args) (file : text) (e : exception) (E : env) (w : world) :
  a_config a = Some file ->
  truthy file = true ->
  load_json E w file = inl e ->
  main a E w
  = main (mkArgs None (a_repos a) (a_output a) (a_csv a) (a_since a)
                 (a_until a) (a_author a) (a_branch a) (a_workers a))
         E (add_events w [EvLog LError (MsgConfigError e)]).
Proof.
  intros Hc Ht Hl.
  set (a' := mkArgs None (a_repos a) (a_output a) (a_csv a) (a_since a)
                    (a_until a) (a_author a) (a_branch a) (a_workers a)).
  assert (Hbody : main_body a empty_config = main_body a' empty_config).
  { unfold main_body, choose_repositories, build_filters. subst a'.
    cbn [a_config a_repos a_output a_csv a_since a_until a_author a_branch
         a_workers truthy_opt repositories default_filters empty_config].
    destruct (truthy_opt (a_config a)); reflexivity. }
  unfold main. rewrite Hc. subst a'. cbn [a_config].
  unfold bind, load_config. rewrite Ht. unfold bind, ask, get_world.
  rewrite Hl. unfold log, emit, ret, add_events. rewrite Hbody. reflexivity.
Qed.

(** [--config missing.json --repos /repos/app] *)
Lemma unreadable_config_is_ignored_witness :
  let a := mkArgs (Some (txt "missing.json")) (Some [txt "/repos/app"])
                  (txt "commit_log") None None None None None 4 in
  main a Sample.calm_env (initial [txt "/repos/app"])
  = main Sample.cli Sample.calm_env
         (add_events (initial [txt "/repos/app"])
                     [EvLog LError (MsgConfigError FileNotFoundError)]).
Proof.
  intros a.
  exact (unreadable_config_is_ignored a (txt "missing.json") FileNotFoundError
           Sample.calm_env (initial [txt "/repos/app"])
           eq_refl eq_refl eq_refl).
Defined.

Lemma build_filters_workers a cfg :
  parallel_workers (build_filters a cfg) = Some (a_workers a).
Proof.
  unfold build_filters.
  destruct (if truthy_opt (a_config a) then default_filters cfg else None);
    reflexivity.
Qed.

Lemma load_config_world c E w cfg w1 :
  load_config c E w = (Ok cfg, w1) ->
  fs w1 = fs w /\ temp_dirs w1 = temp_dirs w.
Proof.
  unfold load_config. destruct c as [file|].
  - destruct (truthy file).
    + unfold bind, ask, get_world. destruct (load_json E w file) as [e|c0].
      * unfold log, emit, ret. intros H. injection H as _ <-. now split.
      * unfold ret. intros H. injection H as _ <-. now split.
    + unfold ret. intros H. injection H as _ <-. now split.
  - unfold ret. intros H. injection H as _ <-. now split.
Qed.

(** X14.  With [--workers] zero or negative and at least one repository
    to process, the pool refuses to start: the run logs that one error
    and returns 1, and nothing else happens (no repository is
    processed, no process is run, no directory or file is created). *)
Theorem no_workers_no_run
  (a : args) (E : env) (files : list text) (cfg : config) (w1 : world)
  (repos : list RepoInfo.t) :
  load_config (a_config a) E (initial files) = (Ok cfg, w1) ->
  choose_repositories a cfg = Some repos ->
  (a_workers a <= 0)%Z ->
  main a E (initial files)
  = (Ok 1%Z, add_events w1 [EvLog LError (MsgUnexpected ValueError)]).
Proof.
  intros Hload Hch Hw.
  destruct (load_config_world _ _ _ _ _ Hload) as [_ Htd]. simpl in Htd.
  unfold main, bind. rewrite Hload. unfold finally, main_handlers.
  unfold main_body. rewrite Hch. unfold bind, export_history.
  rewrite build_filters_workers.
  destruct (Z.leb_spec (a_workers a) 0) as [_|Hgt]; [|lia].
  unfold raise, log, emit, ret.
  destruct w1 as [f td tr]. cbn [temp_dirs] in Htd. subst td.
  reflexivity.
Qed.

(** [--repos /repos/app --workers 0] *)
Lemma no_workers_no_run_witness :
  let a := mkArgs None (Some [txt "/repos/app"]) (txt "commit_log") None
                  None None None None 0 in
  main a Sample.calm_env (initial [txt "/repos/app"])
  = (Ok 1%Z,
     mkWorld [txt "/repos/app"] []
             [EvLog LError (MsgUnexpected ValueError)]).
Proof.
  intros a.
  exact (no_workers_no_run a Sample.calm_env [txt "/repos/app"] empty_config
           (initial [txt "/repos/app"])
           [RepoInfo.mk (Some (txt "app")) (Some (txt "/repos/app")) None]
           eq_refl eq_refl ltac:(discriminate)).
Defined.

(** * More on the tabular export *)


Lemma run_tasks_unparsed repos f :
  yields (Forall (fun rf => Forall unparsed (commits_of (snd rf))))
         (run_tasks repos f).
Proof.
  induction repos as [|repo rest IH]; intros E w; [constructor|].
  cbn [run_tasks]. unfold bind, run_task.
  pose proof (yields_commits_of _ _ E w (process_repository_tagged repo f)) as Ht.
  destruct (_process_repository repo f E w) as [r w1]. cbn [fst] in Ht.
  specialize (IH E w1). destruct (run_tasks rest f E w1) as [[futures|r'] w2];
    cbn [fst] in *; [|exact I].
  constructor; [|exact IH]. cbn [snd].
  eapply Forall_impl; [|exact Ht]. intros c [_ [_ H]]. exact H.
Qed.

Lemma collect_unparsed futures : forall acc,
  Forall (fun rf => Forall unparsed (commits_of (snd rf))) futures ->
  Forall unparsed acc ->
  yields (Forall unparsed) (collect futures acc).
Proof.
  induction futures as [|[repo fut] rest IH]; intros acc Hf Ha E w.
  - exact Ha.
  - inversion Hf as [|x l Hx Hrest]; subst. cbn [snd] in Hx.
    cbn [collect]. unfold bind, wait_point.
    destruct (sigint E w (List.length ((repo, fut) :: rest))); [exact I|].
    destruct fut as [commits|[e|]].
    + apply IH; [exact Hrest|]. apply Forall_app. now split.
    + unfold log, emit. apply IH; assumption.
    + exact I.
Qed.

Lemma export_history_unparsed cfg repos f :
  yields (Forall unparsed) (export_history cfg repos f).
Proof.
  intros E w. unfold export_history.
  destruct (_ <=? 0)%Z; [exact I|].
  unfold bind at 1.
  assert (Hg : yields (Forall unparsed) (gather repos f)).
  { intros E0 w0. unfold gather, bind, ask.
    pose proof (run_tasks_unparsed (completion E0 repos) f E0 w0) as Hr.
    destruct (run_tasks (completion E0 repos) f E0 w0) as [[futures|r] w1];
      cbn [fst] in *; [|exact I].
    apply collect_unparsed; [exact Hr | constructor]. }
  specialize (Hg E w). destruct (gather repos f E w) as [[all|r] w1];
    cbn [fst] in *; [|exact I].
  assert (Hfin : Forall unparsed (finish cfg all)).
  { rewrite Forall_forall in *. intros c Hc. apply Hg.
    now apply (finish_In cfg). }
  unfold bind. destruct (allow_list cfg); exact Hfin.
Qed.

Lemma no_extra_key commits :
  Forall unparsed commits -> existsb has_extra_key commits = false.
Proof.
  induction 1 as [|c l Hc _ IH]; [reflexivity|].
  cbn [existsb]. unfold has_extra_key at 1. unfold unparsed in Hc.
  now rewrite Hc, IH.
Qed.

(** X15.  In a run with [--csv], when records were collected and the
    file can be written, the table is written first, before the
    logbooks, and it holds exactly the records [export_history]
    returned, in that order: the writer never refuses a record for an
    extra key, since no record has a [parsed_date] yet. *)
Theorem csv_holds_the_collection
  (a : args) (cfg : config) (E : env) (w w2 : world)
  (repos : list RepoInfo.t) (c : commit) (cs : list commit) (file : text) :
  choose_repositories a cfg = Some repos ->
  export_history cfg repos (build_filters a cfg) E w = (Ok (c :: cs), w2) ->
  a_csv a = Some file ->
  truthy file = true ->
  write_error E w2 file = None ->
  exists rest,
    new_events w2 (snd (main_body a cfg E w))
    = EvWrote file (CsvTable (csv_text (c :: cs)))
      :: EvLog LInfo (MsgExported (List.length (c :: cs)) file)
      :: rest.
Proof.
  intros Hch Hexp Hcsv Ht Hw.
  pose proof (export_history_unparsed cfg repos (build_filters a cfg) E w) as Hu.
  rewrite Hexp in Hu. cbn [fst] in Hu.
  unfold main_body. rewrite Hch. unfold bind at 1. rewrite Hexp.
  rewrite Hcsv. cbn [truthy_opt get_or]. rewrite Ht.
  unfold bind at 1. unfold save_to_csv. rewrite (no_extra_key _ Hu).
  unfold bind at 1. unfold write_file at 1. rewrite Hw.
  unfold log at 1, emit. cbn [fs temp_dirs trace].
  unfold bind. rewrite generate_logbook_cases. cbn [fs temp_dirs trace].
  destruct (log_sections _) as [e0|sections];
    [cbn [snd]; rewrite <- ?app_assoc; cbn [app];
     rewrite new_events_app; eexists; reflexivity|].
  repeat match goal with
         | |- context [write_error E ?w0 ?p] =>
             destruct (write_error E w0 p) as [?e|]
         end;
    unfold ret; cbn [snd]; rewrite <- ?app_assoc; cbn [app];
    rewrite new_events_app; eexists; reflexivity.
Qed.

(** [--repos /repos/app --csv out.csv] *)
Lemma csv_holds_the_collection_witness :
  let a := mkArgs None (Some [txt "/repos/app"]) (txt "commit_log")
                  (Some (txt "out.csv")) None None None None 4 in
  let w := initial [txt "/repos/app"] in
  match export_history empty_config
          [RepoInfo.mk (Some (txt "app")) (Some (txt "/repos/app")) None]
          (build_filters a empty_config) Sample.calm_env w with
  | (Ok (c :: cs), w2) =>
      exists rest,
        new_events w2 (snd (main_body a empty_config Sample.calm_env w))
        = EvWrote (txt "out.csv") (CsvTable (csv_text (c :: cs)))
          :: EvLog LInfo (MsgExported (List.length (c :: cs)) (txt "out.csv"))
          :: rest
  | _ => False
  end.
Proof.
  intros a w.
  pose proof (fun w2 c cs H =>
                csv_holds_the_collection a empty_config Sample.calm_env w w2
                  [RepoInfo.mk (Some (txt "app")) (Some (txt "/repos/app")) None]
                  c cs (txt "out.csv") eq_refl H eq_refl eq_refl eq_refl) as H.
  destruct (export_history empty_config
              [RepoInfo.mk (Some (txt "app")) (Some (txt "/repos/app")) None]
              (build_filters a empty_config) Sample.calm_env w)
    as [[[|c cs]|r] w2] eqn:Hexp; try (vm_compute in Hexp; discriminate Hexp).
  exact (H w2 c cs eq_refl).
Defined.

(** * The sections of a logbook *)

Section GroupFacts.
Variables (A : Type) (key : A -> text).


Lemma dict_get_append k x (d : list (text * list A)) k' :
  dict_get k' (dict_append k x d)
  = if text_eqb k' k then dict_get k d ++ [x] else dict_get k' d.
Proof.
  induction d as [|[k0 l] rest IH]; cbn [dict_append dict_get].
  - destruct (text_eqb k' k); reflexivity.
  - destruct (text_eqb k k0) eqn:Hk0; cbn [dict_get].
    + apply text_eqb_eq in Hk0. subst k0.
      destruct (text_eqb k' k); reflexivity.
    + destruct (text_eqb k' k0) eqn:Hk'.
      * apply text_eqb_eq in Hk'. subst k0.
        destruct (text_eqb k' k) eqn:Hkk; [|reflexivity].
        apply text_eqb_eq in Hkk. subst k'.
        now rewrite text_eqb_refl in Hk0.
      * exact IH.
Qed.

Lemma keys_append k x (d : list (text * list A)) :
  map fst (dict_append k x d)
  = if existsb (text_eqb k) (map fst d) then map fst d else map fst d ++ [k].
Proof.
  induction d as [|[k0 l] rest IH]; cbn [dict_append map existsb fst];
    [reflexivity|].
  destruct (text_eqb k k0); cbn [map fst orb]; [reflexivity|].
  rewrite IH. now destruct (existsb (text_eqb k) (map fst rest)).
Qed.

Lemma group_by_snoc xs x :
  group_by key (xs ++ [x]) = dict_append (key x) x (group_by key xs).
Proof. unfold group_by. now rewrite fold_left_app. Qed.

(** A group holds the elements with its key, in their original order. *)
Lemma dict_get_group_by k xs :
  dict_get k (group_by key xs) = filter (has_key key k) xs.
Proof.
  induction xs as [|x xs IH] using rev_ind; [reflexivity|].
  rewrite group_by_snoc, dict_get_append, filter_app, IH. cbn [filter].
  destruct (text_eqb k (key x)) eqn:Hk.
  - apply text_eqb_eq in Hk. subst k. unfold has_key at 2.
    now rewrite text_eqb_refl, IH.
  - apply text_eqb_neq in Hk.
    assert (Hk' : has_key key k x = false)
      by (apply text_eqb_neq; congruence).
    rewrite Hk'. now rewrite app_nil_r.
Qed.

Lemma existsb_text_In k l : existsb (text_eqb k) l = true <-> In k l.
Proof.
  rewrite existsb_exists. split.
  - intros [q [Hin Heq]]. apply text_eqb_eq in Heq. now subst.
  - intros Hin. exists k. split; [exact Hin | apply text_eqb_refl].
Qed.

Lemma keys_group_by xs :
  NoDup (map fst (group_by key xs))
  /\ forall k, In k (map fst (group_by key xs)) <-> In k (map key xs).
Proof.
  induction xs as [|x xs [IHn IHk]] using rev_ind.
  - split; [constructor | reflexivity].
  - rewrite group_by_snoc, keys_append, map_app. cbn [map].
    destruct (existsb (text_eqb (key x)) (map fst (group_by key xs))) eqn:Hex.
    + apply existsb_text_In in Hex. split; [exact IHn|].
      intros k. rewrite in_app_iff, <- IHk. cbn [In]. split; [tauto|].
      intros [H|[<-|[]]]; assumption.
    + split.
      * apply NoDup_app; [exact IHn | repeat constructor; intros [] |].
        intros k Hk [<-|[]]. apply existsb_text_In in Hk. congruence.
      * intros k. rewrite !in_app_iff, <- IHk. reflexivity.
Qed.

Lemma filter_other_key k k' xs : k <> k' ->
  filter (has_key key k') (filter (fun x => negb (has_key key k x)) xs)
  = filter (has_key key k') xs.
Proof.
  intros Hne. induction xs as [|x xs IH]; [reflexivity|].
  cbn [filter]. destruct (has_key key k x) eqn:Hk; cbn [negb filter].
  - unfold has_key in Hk. apply text_eqb_eq in Hk.
    assert (Hk' : has_key key k' x = false)
      by (apply text_eqb_neq; congruence).
    now rewrite Hk'.
  - destruct (has_key key k' x); [now rewrite IH | exact IH].
Qed.

Lemma flat_map_other_key k ks xs : ~ In k ks ->
  flat_map (fun k' =>
              filter (has_key key k')
                     (filter (fun x => negb (has_key key k x)) xs))
           ks
  = flat_map (fun k' => filter (has_key key k') xs) ks.
Proof.
  intros Hn. induction ks as [|k' ks IH]; [reflexivity|].
  cbn [flat_map]. rewrite filter_other_key by (intros ->; apply Hn; now left).
  rewrite IH; [reflexivity|]. intros H. apply Hn. now right.
Qed.

Lemma filter_split_perm (p : A -> bool) xs :
  Permutation (filter p xs ++ filter (fun x => negb (p x)) xs) xs.
Proof.
  induction xs as [|x xs IH]; [constructor|].
  cbn [filter]. destruct (p x); cbn [negb app].
  - now constructor.
  - apply Permutation_sym, Permutation_cons_app, Permutation_sym, IH.
Qed.

(** Visiting every key once visits every element once. *)
Lemma groups_partition ks : NoDup ks -> forall xs,
  (forall x, In x xs -> In (key x) ks) ->
  Permutation (flat_map (fun k => filter (has_key key k) xs) ks) xs.
Proof.
  induction 1 as [|k ks Hk Hnd IH]; intros xs Hin.
  - destruct xs as [|x xs]; [constructor|]. destruct (Hin x (or_introl eq_refl)).
  - cbn [flat_map]. rewrite <- (flat_map_other_key k ks xs Hk).
    eapply Permutation_trans; [|apply (filter_split_perm (has_key key k))].
    apply Permutation_app_head. apply IH.
    intros x Hx. apply filter_In in Hx. destruct Hx as [Hx Hne].
    destruct (Hin x Hx) as [Heq|H]; [|exact H].
    unfold has_key in Hne. rewrite Heq, text_eqb_refl in Hne.
    discriminate Hne.
Qed.

Lemma grouped_spec xs :
  grouped key xs
  = map (fun k => (k, filter (has_key key k) xs))
        (sorted_keys (group_by key xs)).
Proof.
  unfold grouped. apply map_ext. intros k. now rewrite dict_get_group_by.
Qed.

Lemma sorted_keys_spec xs :
  NoDup (sorted_keys (group_by key xs))
  /\ (forall k, In k (sorted_keys (group_by key xs)) <-> In k (map key xs))
  /\ sorted_desc codes (sorted_keys (group_by key xs)).
Proof.
  destruct (keys_group_by xs) as [Hn Hk]. unfold sorted_keys.
  pose proof (sort_desc_perm _ codes (map fst (group_by key xs))) as Hp.
  split; [|split].
  - eapply Permutation_NoDup; [apply Permutation_sym, Hp | exact Hn].
  - intros k. rewrite <- Hk. split; apply Permutation_in;
      [exact Hp | apply Permutation_sym, Hp].
  - apply sort_desc_sorted.
Qed.

Lemma flat_map_grouped xs :
  flat_map snd (grouped key xs)
  = flat_map (fun k => filter (has_key key k) xs)
             (sorted_keys (group_by key xs)).
Proof.
  rewrite grouped_spec.
  now rewrite flat_map_concat_map, map_map, <- flat_map_concat_map.
Qed.

(** No element is lost and none is repeated. *)
Lemma grouped_perm xs : Permutation (flat_map snd (grouped key xs)) xs.
Proof.
  rewrite flat_map_grouped.
  destruct (sorted_keys_spec xs) as [Hn [Hk _]].
  apply groups_partition; [exact Hn|].
  intros x Hx. apply Hk. now apply in_map.
Qed.

End GroupFacts.

Section GroupOrder.
Variables (A : Type) (key : A -> text).

Lemma lex_le_antisym a b : lex_le a b -> lex_le b a -> a = b.
Proof.
  unfold lex_le. intros H1 H2. apply lex_compare_eq.
  rewrite (lex_compare_antisym a b) in H2.
  destruct (lex_compare a b); simpl in *; congruence.
Qed.

Lemma sorted_filter (k : A -> list nat) (p : A -> bool) xs :
  sorted_desc k xs -> sorted_desc k (filter p xs).
Proof.
  unfold sorted_desc. induction 1 as [|x xs Hs IH Hx]; [constructor|].
  cbn [filter]. destruct (p x); [|exact IH].
  constructor; [exact IH|]. rewrite Forall_forall in *.
  intros y Hy. apply filter_In in Hy. now apply Hx.
Qed.

Lemma filter_none (p : A -> bool) xs :
  Forall (fun x => p x = false) xs ->
  filter p xs = [] /\ filter (fun x => negb (p x)) xs = xs.
Proof.
  induction 1 as [|x xs Hx _ [IH1 IH2]]; [now split|].
  cbn [filter]. rewrite Hx. cbn [negb]. now rewrite IH1, IH2.
Qed.

(** In a list in descending key order the elements with the greatest
    key come first. *)
Lemma greatest_key_first k xs : sorted_desc (fun x => codes (key x)) xs ->
  Forall (fun x => lex_le (codes (key x)) (codes k)) xs ->
  filter (has_key key k) xs ++ filter (fun x => negb (has_key key k x)) xs = xs.
Proof.
  unfold sorted_desc. induction 1 as [|x xs Hs IH Hx]; intros Hle; [reflexivity|].
  inversion Hle as [|? ? Hxk Hrest]; subst.
  cbn [filter]. destruct (has_key key k x) eqn:Hk; cbn [negb app].
  - now rewrite IH.
  - assert (Hnone : Forall (fun y => has_key key k y = false) xs).
    { rewrite Forall_forall in *. intros y Hy.
      destruct (has_key key k y) eqn:Hky; [|reflexivity].
      unfold has_key in Hky, Hk. apply text_eqb_eq in Hky.
      apply text_eqb_neq in Hk. exfalso. apply Hk.
      apply codes_inj. apply lex_le_antisym; [exact Hxk|].
      rewrite <- Hky. now apply Hx. }
    destruct (filter_none (has_key key k) xs Hnone) as [-> ->]. reflexivity.
Qed.

Lemma groups_in_order ks : NoDup ks -> sorted_desc codes ks -> forall xs,
  (forall x, In x xs -> In (key x) ks) ->
  sorted_desc (fun x => codes (key x)) xs ->
  flat_map (fun k => filter (has_key key k) xs) ks = xs.
Proof.
  induction 1 as [|k ks Hk Hnd IH]; intros Hs xs Hin Hxs.
  - destruct xs as [|x xs]; [reflexivity|]. destruct (Hin x (or_introl eq_refl)).
  - unfold sorted_desc in Hs. inversion Hs as [|? ? Hs' Hall]; subst.
    cbn [flat_map]. rewrite <- (flat_map_other_key A key k ks xs Hk).
    rewrite IH.
    + apply greatest_key_first; [exact Hxs|].
      apply Forall_forall. intros x Hx.
      destruct (Hin x Hx) as [<-|H]; [apply lex_le_refl|].
      rewrite Forall_forall in Hall. now apply Hall.
    + exact Hs'.
    + intros x Hx. apply filter_In in Hx. destruct Hx as [Hx Hne].
      destruct (Hin x Hx) as [Heq|H]; [|exact H].
      unfold has_key in Hne. rewrite Heq, text_eqb_refl in Hne.
      discriminate Hne.
    + now apply sorted_filter.
Qed.

(** Grouping a list that is in descending key order and visiting the
    groups by descending key gives the list back. *)
Lemma grouped_in_order xs :
  sorted_desc (fun x => codes (key x)) xs ->
  flat_map snd (grouped key xs) = xs.
Proof.
  intros Hxs. rewrite flat_map_grouped.
  destruct (sorted_keys_spec A key xs) as [Hn [Hk Hs]].
  apply groups_in_order; try assumption.
  intros x Hx. apply Hk. now apply in_map.
Qed.

End GroupOrder.

(** ** The keys of the headings *)

Lemma strftime_Y_four y :
  1000 <= y -> strftime_Y y = two_digits (y / 100) ++ two_digits (y mod 100).
Proof.
  intros Hy. unfold strftime_Y.
  destruct (Nat.ltb_spec y 10); [lia|].
  destruct (Nat.ltb_spec y 100); [lia|].
  destruct (Nat.ltb_spec y 1000); [lia | reflexivity].
Qed.

Lemma cmp_Ym d1 d2 s1 s2 :
  1000 <= year d1 < 100 * 100 -> 1000 <= year d2 < 100 * 100 ->
  month d1 < 100 -> month d2 < 100 ->
  lex_compare (codes (strftime_Ym d1 ++ s1)) (codes (strftime_Ym d2 ++ s2))
  = match year d1 ?= year d2 with
    | Eq => match month d1 ?= month d2 with
            | Eq => lex_compare (codes s1) (codes s2)
            | c => c
            end
    | c => c
    end.
Proof.
  intros Y1 Y2 M1 M2.
  assert (year d1 / 100 < 100) by (apply Nat.Div0.div_lt_upper_bound; lia).
  assert (year d2 / 100 < 100) by (apply Nat.Div0.div_lt_upper_bound; lia).
  assert (year d1 mod 100 < 100) by (apply Nat.mod_upper_bound; lia).
  assert (year d2 mod 100 < 100) by (apply Nat.mod_upper_bound; lia).
  unfold strftime_Ym. rewrite !strftime_Y_four by lia.
  unfold txt. cbn [list_ascii_of_string]. rewrite <- !app_assoc.
  cbn [app].
  rewrite IsoOrder.cmp_two by assumption.
  rewrite IsoOrder.cmp_two by assumption.
  rewrite IsoOrder.cmp_sep. rewrite IsoOrder.cmp_two by assumption.
  rewrite IsoOrder.cmp_year by lia. reflexivity.
Qed.

Lemma cmp_Ymd d1 d2 :
  1000 <= year d1 < 100 * 100 -> 1000 <= year d2 < 100 * 100 ->
  month d1 < 100 -> month d2 < 100 -> day d1 < 100 -> day d2 < 100 ->
  lex_compare (codes (strftime_Ymd d1)) (codes (strftime_Ymd d2))
  = match year d1 ?= year d2 with
    | Eq => match month d1 ?= month d2 with
            | Eq => day d1 ?= day d2
            | c => c
            end
    | c => c
    end.
Proof.
  intros Y1 Y2 M1 M2 D1 D2. unfold strftime_Ymd.
  rewrite cmp_Ym by assumption. unfold txt. cbn [list_ascii_of_string app].
  rewrite IsoOrder.cmp_sep.
  rewrite <- (app_nil_r (two_digits (day d1))).
  rewrite <- (app_nil_r (two_digits (day d2))).
  rewrite IsoOrder.cmp_two by assumption.
  cbn [codes map lex_compare]. now destruct (day d1 ?= day d2).
Qed.

(** For years of four digits the keys follow the timestamps. *)
Lemma keys_follow_time d1 d2 :
  Strptime.valid d1 = true -> Strptime.valid d2 = true ->
  1000 <= year d1 -> 1000 <= year d2 ->
  lex_le (dt_fields d1) (dt_fields d2) ->
  lex_le (codes (strftime_Ym d1)) (codes (strftime_Ym d2))
  /\ lex_le (codes (strftime_Ymd d1)) (codes (strftime_Ymd d2)).
Proof.
  intros V1 V2 Y1 Y2 Hle.
  destruct (IsoOrder.valid_bounds d1 V1) as [? [? [? _]]].
  destruct (IsoOrder.valid_bounds d2 V2) as [? [? [? _]]].
  unfold lex_le in *.
  rewrite <- (app_nil_r (strftime_Ym d1)), <- (app_nil_r (strftime_Ym d2)).
  rewrite cmp_Ym, cmp_Ymd by (assumption || lia).
  unfold dt_fields in Hle. cbn [lex_compare] in Hle.
  destruct (year d1 ?= year d2); try (split; congruence).
  destruct (month d1 ?= month d2); try (split; congruence).
  split; [discriminate|].
  destruct (day d1 ?= day d2); congruence.
Qed.

(** The keys of a valid time of a year of four digits parse. *)
Lemma keys_parse d :
  Strptime.valid d = true -> 1000 <= year d ->
  parses (strptime_Ym (strftime_Ym d)) = true
  /\ parses (strptime_Ymd (strftime_Ymd d)) = true.
Proof.
  intros Hv Hy. pose proof Hv as Hv'. unfold Strptime.valid in Hv'.
  repeat (apply andb_prop in Hv'; destruct Hv' as [Hv' ?]).
  repeat match goal with
         | H : (_ <=? _) = true |- _ => apply Nat.leb_le in H
         | H : (_ <? _) = true |- _ => apply Nat.ltb_lt in H
         end.
  pose proof (IsoFacts.days_in_month_le (year d) (month d)).
  assert (Hday : forall y m, 28 <= Strptime.days_in_month y m).
  { intros y m. unfold Strptime.days_in_month.
    do 12 (destruct m as [|m]; [try destruct (Strptime.is_leap y); lia|]).
    lia. }
  specialize (Hday (year d) (month d)).
  split.
  - assert (Hp : heads
                   (Strptime.bind Strptime.dY (fun y =>
                    Strptime.bind (Strptime.lit "-") (fun _ =>
                    Strptime.bind Strptime.dm (fun mo =>
                    Strptime.ret (mkDatetime y mo 1 0 0 0 0)))))
                   (strftime_Ym d)
                   (mkDatetime (year d) (month d) 1 0 0 0 0) []).
    { unfold strftime_Ym. rewrite strftime_Y_four by assumption.
      unfold txt. cbn [list_ascii_of_string app]. rewrite <- app_assoc.
      eapply IsoFacts.heads_bind; [apply IsoFacts.heads_dY; assumption|].
      eapply IsoFacts.heads_bind; [apply IsoFacts.heads_lit|].
      rewrite <- (app_nil_r (two_digits (month d))).
      eapply IsoFacts.heads_bind; [apply IsoFacts.heads_dm; lia|].
      apply IsoFacts.heads_ret. }
    destruct Hp as [rest Hp]. unfold strptime_Ym. rewrite Hp.
    assert (Hv1 : Strptime.valid (mkDatetime (year d) (month d) 1 0 0 0 0)
                  = true).
    { unfold Strptime.valid. cbn [year month day hour minute second].
      repeat (apply andb_true_intro; split);
        first [apply Nat.leb_le; lia | apply Nat.ltb_lt; lia]. }
    now rewrite Hv1.
  - assert (Hp : heads
                   (Strptime.bind Strptime.dY (fun y =>
                    Strptime.bind (Strptime.lit "-") (fun _ =>
                    Strptime.bind Strptime.dm (fun mo =>
                    Strptime.bind (Strptime.lit "-") (fun _ =>
                    Strptime.bind Strptime.dd (fun da =>
                    Strptime.ret (mkDatetime y mo da 0 0 0 0)))))))
                   (strftime_Ymd d)
                   (mkDatetime (year d) (month d) (day d) 0 0 0 0) []).
    { unfold strftime_Ymd, strftime_Ym. rewrite strftime_Y_four by assumption.
      unfold txt. cbn [list_ascii_of_string app]. rewrite <- !app_assoc.
      cbn [app].
      eapply IsoFacts.heads_bind; [apply IsoFacts.heads_dY; assumption|].
      eapply IsoFacts.heads_bind; [apply IsoFacts.heads_lit|].
      eapply IsoFacts.heads_bind; [apply IsoFacts.heads_dm; lia|].
      eapply IsoFacts.heads_bind; [apply IsoFacts.heads_lit|].
      rewrite <- (app_nil_r (two_digits (day d))).
      eapply IsoFacts.heads_bind; [apply IsoFacts.heads_dd; lia|].
      apply IsoFacts.heads_ret. }
    destruct Hp as [rest Hp]. unfold strptime_Ymd. rewrite Hp.
    assert (Hv1 : Strptime.valid
                    (mkDatetime (year d) (month d) (day d) 0 0 0 0) = true).
    { unfold Strptime.valid. cbn [year month day hour minute second].
      repeat (apply andb_true_intro; split);
        first [apply Nat.leb_le; lia | apply Nat.ltb_lt; lia]. }
    now rewrite Hv1.
Qed.

(** The key of a year before 1000 has fewer than four digits and does
    not parse. *)
Lemma short_year_fails y r :
  y < 1000 -> Strptime.dY (strftime_Y y ++ "-"%char :: r) = [].
Proof.
  intros Hy.
  assert (Hdig : forall k s, k < 10 ->
             Strptime.dig 0 9 (digit_char k :: s) = [(k, s)]).
  { intros k s Hk. do 10 (destruct k as [|k]; [reflexivity|]). lia. }
  assert (Hsep : forall s, Strptime.dig 0 9 ("-"%char :: s) = [])
    by reflexivity.
  assert (Hq : forall v, v < 100 -> v / 10 < 10)
    by (intros v Hv; apply Nat.Div0.div_lt_upper_bound; lia).
  assert (Hr : forall v, v mod 10 < 10)
    by (intros v; apply Nat.mod_upper_bound; lia).
  unfold strftime_Y, Strptime.dY, Strptime.two, Strptime.bind.
  destruct (Nat.ltb_spec y 10).
  - cbn [app]. rewrite Hdig by assumption. cbn [flat_map fst snd app].
    now rewrite Hsep.
  - destruct (Nat.ltb_spec y 100).
    + unfold two_digits. cbn [app].
      rewrite Hdig by (apply Hq; lia). cbn [flat_map fst snd app].
      rewrite Hdig by apply Hr. cbn [flat_map fst snd app].
      unfold Strptime.ret. cbn [flat_map fst snd app].
      now rewrite Hsep.
    + destruct (Nat.ltb_spec y 1000); [|lia].
      assert (y / 100 < 10) by (apply Nat.Div0.div_lt_upper_bound; lia).
      assert (y mod 100 < 100) by (apply Nat.mod_upper_bound; lia).
      unfold two_digits. cbn [app].
      rewrite Hdig by assumption. cbn [flat_map fst snd app].
      rewrite Hdig by (apply Hq; lia). cbn [flat_map fst snd app].
      unfold Strptime.ret. cbn [flat_map fst snd app].
      rewrite Hdig by apply Hr. cbn [flat_map fst snd app].
      now rewrite Hsep.
Qed.

Lemma short_year_key_fails d :
  year d < 1000 -> parses (strptime_Ym (strftime_Ym d)) = false.
Proof.
  intros Hy. unfold strptime_Ym, strftime_Ym, txt.
  cbn [list_ascii_of_string app]. unfold Strptime.bind at 1.
  now rewrite short_year_fails.
Qed.

(** ** From the records to the sections *)

Lemma with_parsed_dates_some commits : forall xs,
  with_parsed_dates commits = Some xs ->
  map snd xs = commits
  /\ Forall (fun x => parsed_date (snd x) = Some (fst x)) xs.
Proof.
  induction commits as [|c rest IH]; intros xs H; cbn [with_parsed_dates] in H.
  - injection H as <-. split; [reflexivity | constructor].
  - destruct (parsed_date c) as [d|] eqn:Hd; [|discriminate H].
    destruct (with_parsed_dates rest) as [ys|]; [|discriminate H].
    injection H as <-. destruct (IH ys eq_refl) as [Hm Hf].
    split; [cbn [map snd]; now rewrite Hm | now constructor].
Qed.

Lemma with_parsed_dates_none commits :
  with_parsed_dates commits = None ->
  exists c, In c commits /\ parsed_date c = None.
Proof.
  induction commits as [|c rest IH]; intros H; cbn [with_parsed_dates] in H;
    [discriminate H|].
  destruct (parsed_date c) as [d|] eqn:Hd.
  - destruct (with_parsed_dates rest) as [ys|]; [discriminate H|].
    destruct (IH eq_refl) as [c0 [Hin Hc0]]. exists c0. split; [now right | exact Hc0].
  - exists c. split; [now left | exact Hd].
Qed.

Lemma with_parsed_dates_all commits :
  Forall (fun c => parsed_date c <> None) commits ->
  exists xs, with_parsed_dates commits = Some xs.
Proof.
  intros H. destruct (with_parsed_dates commits) as [xs|] eqn:Hx;
    [now exists xs|].
  destruct (with_parsed_dates_none commits Hx) as [c [Hin Hc]].
  rewrite Forall_forall in H. now destruct (H c Hin).
Qed.

Lemma entries_of_sections xs :
  entries_of (map (fun month => (fst month, daily_sections (snd month)))
                  (grouped month_key xs))
  = flat_map (fun month => map snd (flat_map snd (grouped day_key (snd month))))
             (grouped month_key xs).
Proof.
  unfold entries_of. rewrite flat_map_concat_map, map_map, <- flat_map_concat_map.
  apply flat_map_ext. intros month. cbn [snd]. unfold daily_sections.
  rewrite (flat_map_concat_map snd (map _ _)), map_map.
  cbn [snd]. rewrite <- flat_map_concat_map.
  generalize (grouped day_key (snd month)) as days.
  induction days as [|day days IH]; [reflexivity|].
  cbn [flat_map]. now rewrite map_app, IH.
Qed.

Lemma flat_map_perm (A B : Type) (f g : A -> list B) l :
  (forall a, In a l -> Permutation (f a) (g a)) ->
  Permutation (flat_map f l) (flat_map g l).
Proof.
  induction l as [|a l IH]; intros H; [constructor|].
  cbn [flat_map]. apply Permutation_app.
  - apply H. now left.
  - apply IH. intros b Hb. apply H. now right.
Qed.

Lemma flat_map_eq_in (A B : Type) (f g : A -> list B) l :
  (forall a, In a l -> f a = g a) -> flat_map f l = flat_map g l.
Proof.
  induction l as [|a l IH]; intros H; [reflexivity|].
  cbn [flat_map]. rewrite (H a (or_introl eq_refl)). f_equal.
  apply IH. intros b Hb. apply H. now right.
Qed.

Lemma flat_map_map_snd (A B C : Type) (l : list (A * list (B * C))) :
  flat_map (fun m => map snd (snd m)) l = map snd (flat_map snd l).
Proof.
  induction l as [|m l IH]; [reflexivity|].
  cbn [flat_map]. now rewrite map_app, IH.
Qed.

Lemma grouped_keys (A : Type) (key : A -> text) xs :
  map fst (grouped key xs) = sorted_keys (group_by key xs).
Proof.
  unfold grouped. rewrite map_map. cbn [fst]. apply map_id.
Qed.

Lemma grouped_In (A : Type) (key : A -> text) xs g :
  In g (grouped key xs) ->
  In (fst g) (map key xs) /\ snd g = filter (has_key key (fst g)) xs.
Proof.
  rewrite grouped_spec. intros H. apply in_map_iff in H.
  destruct H as [k [<- Hk]]. cbn [fst snd]. split; [|reflexivity].
  now apply (sorted_keys_spec A key xs).
Qed.

Lemma sections_keys_sorted (A : Type) (key : A -> text) xs :
  NoDup (map fst (grouped key xs))
  /\ sorted_desc codes (map fst (grouped key xs)).
Proof.
  rewrite grouped_keys. destruct (sorted_keys_spec A key xs) as [Hn [_ Hs]].
  now split.
Qed.

Lemma forallb_false (A : Type) (f : A -> bool) l :
  forallb f l = false -> exists x, In x l /\ f x = false.
Proof.
  induction l as [|x l IH]; [discriminate|]. cbn [forallb].
  destruct (f x) eqn:Hx.
  - intros H. destruct (IH H) as [y [Hy Hf]]. exists y. split; [now right|exact Hf].
  - intros _. exists x. split; [now left | exact Hx].
Qed.

(** The record behind a key. *)
Lemma key_record (key : datetime * commit -> text) xs commits k :
  map snd xs = commits ->
  Forall (fun x => parsed_date (snd x) = Some (fst x)) xs ->
  In k (map key xs) ->
  exists c d, In c commits /\ parsed_date c = Some d /\ In (d, c) xs
              /\ key (d, c) = k.
Proof.
  intros Hm Hp Hk. apply in_map_iff in Hk. destruct Hk as [[d c] [Hkx Hx]].
  rewrite Forall_forall in Hp. exists c, d.
  split; [rewrite <- Hm; now apply (in_map snd xs (d, c))|].
  split; [exact (Hp _ Hx)|]. now split.
Qed.

(** A record of a year before 1000 leaves no sections: its month key
    does not parse back. *)
Lemma old_record_no_sections commits c d :
  In c commits -> parsed_date c = Some d -> year d < 1000 ->
  log_sections commits
  = inl match with_parsed_dates commits with
        | Some _ => ValueError
        | None => KeyError
        end.
Proof.
  intros Hc Hd Hy. unfold log_sections.
  destruct (with_parsed_dates commits) as [xs|] eqn:Hx; [|reflexivity].
  destruct (with_parsed_dates_some commits xs Hx) as [Hm Hp].
  match goal with
  | |- context [forallb ?f ?l] => destruct (forallb f l) eqn:Hok
  end; [|reflexivity].
  exfalso. rewrite forallb_forall in Hok.
  assert (Hx' : In (d, c) xs).
  { rewrite <- Hm in Hc. apply in_map_iff in Hc.
    destruct Hc as [[d' c'] [Heq Hin]]. cbn [snd] in Heq. subst c'.
    rewrite Forall_forall in Hp. pose proof (Hp _ Hin) as Hpd.
    cbn [fst snd] in Hpd. rewrite Hd in Hpd. injection Hpd as <-.
    exact Hin. }
  assert (Hk : In (strftime_Ym d)
                  (map fst (map (fun month => (fst month, daily_sections (snd month)))
                                (grouped month_key xs)))).
  { rewrite map_map. cbn [fst]. rewrite grouped_keys.
    apply (sorted_keys_spec _ month_key xs).
    apply in_map_iff. exists (d, c). now split. }
  apply in_map_iff in Hk. destruct Hk as [month [Hkm Hmo]].
  pose proof (Hok month Hmo) as Hpm. apply andb_prop in Hpm.
  destruct Hpm as [Hpm _]. rewrite Hkm in Hpm.
  rewrite (short_year_key_fails d Hy) in Hpm. discriminate Hpm.
Qed.

(** X16.  The sections of a logbook.  When the rendering goes through,
    every record is listed exactly once, under the month and the day of
    its own [parsed_date]; the months are distinct and in descending
    order of their keys, and so are the days of each month; every key
    parses, and no day is empty.  The rendering fails with [KeyError]
    exactly when a record has no [parsed_date]; otherwise it fails with
    [ValueError] exactly when the month or day key of some record does
    not parse, which is the case for every record of a year before
    1000. *)
Theorem logbook_sections_partition (commits : list commit) :
  match log_sections commits with
  | inr sections =>
      Permutation (entries_of sections) commits
      /\ NoDup (map fst sections)
      /\ sorted_desc codes (map fst sections)
      /\ Forall (fun month =>
                  strptime_Ym (fst month) <> None
                  /\ NoDup (map fst (snd month))
                  /\ sorted_desc codes (map fst (snd month))
                  /\ Forall (fun day =>
                                strptime_Ymd (fst day) <> None
                                /\ snd day <> []
                                /\ Forall (fun c =>
                                            exists d,
                                              parsed_date c = Some d
                                              /\ strftime_Ym d = fst month
                                              /\ strftime_Ymd d = fst day)
                                          (snd day))
                            (snd month))
                sections
  | inl e =>
      (e = KeyError /\ exists c, In c commits /\ parsed_date c = None)
      \/ (e = ValueError
          /\ Forall (fun c => parsed_date c <> None) commits
          /\ exists c d,
              In c commits /\ parsed_date c = Some d
              /\ (strptime_Ym (strftime_Ym d) = None
                  \/ strptime_Ymd (strftime_Ymd d) = None))
  end
  /\ (forall c d,
        In c commits -> parsed_date c = Some d -> year d < 1000 ->
        exists e, log_sections commits = inl e).
Proof.
  split.
  2:{ intros c d Hc Hd Hy. eexists.
      exact (old_record_no_sections commits c d Hc Hd Hy). }
  unfold log_sections.
  destruct (with_parsed_dates commits) as [xs|] eqn:Hx.
  2:{ left. split; [reflexivity|]. now apply with_parsed_dates_none. }
  destruct (with_parsed_dates_some commits xs Hx) as [Hm Hp].
  set (sections := map (fun month => (fst month, daily_sections (snd month)))
                      (grouped month_key xs)).
  assert (Hall : Forall (fun c => parsed_date c <> None) commits).
  { rewrite <- Hm. apply Forall_forall. intros c Hc. apply in_map_iff in Hc.
    destruct Hc as [x [<- Hxin]]. rewrite Forall_forall in Hp.
    rewrite (Hp x Hxin). discriminate. }
  assert (Hmonth : forall month, In month sections ->
            exists m, In m (grouped month_key xs)
                      /\ month = (fst m, daily_sections (snd m))
                      /\ In (fst m) (map month_key xs)
                      /\ snd m = filter (has_key month_key (fst m)) xs).
  { intros month Hin. apply in_map_iff in Hin. destruct Hin as [m [<- Hin]].
    exists m. split; [exact Hin|]. split; [reflexivity|].
    apply grouped_In, Hin. }
  assert (Hday : forall (m : text * list (datetime * commit)) day,
            In day (daily_sections (snd m)) ->
            exists g, In g (grouped day_key (snd m))
                      /\ day = (fst g, map snd (snd g))
                      /\ In (fst g) (map day_key (snd m))
                      /\ snd g = filter (has_key day_key (fst g)) (snd m)).
  { intros m day Hin. apply in_map_iff in Hin. destruct Hin as [g [<- Hin]].
    exists g. split; [exact Hin|]. split; [reflexivity|].
    apply grouped_In, Hin. }
  destruct (forallb _ sections) eqn:Hok.
  - rewrite forallb_forall in Hok.
    split; [|split; [|split]].
    + subst sections. rewrite entries_of_sections, <- Hm.
      eapply Permutation_trans.
      * apply flat_map_perm with (g := fun month => map snd (snd month)).
        intros month _. apply Permutation_map, grouped_perm.
      * rewrite flat_map_map_snd. apply Permutation_map, grouped_perm.
    + subst sections. rewrite map_map. cbn [fst].
      apply (sections_keys_sorted _ month_key xs).
    + subst sections. rewrite map_map. cbn [fst].
      apply (sections_keys_sorted _ month_key xs).
    + apply Forall_forall. intros month Hmo.
      pose proof (Hok month Hmo) as Hpm. apply andb_prop in Hpm.
      destruct Hpm as [Hpm Hpd]. rewrite forallb_forall in Hpd.
      destruct (Hmonth month Hmo) as [m [Hin [-> [_ Hsnd]]]].
      cbn [fst snd] in *.
      split; [destruct (strptime_Ym (fst m)); [discriminate|discriminate Hpm]|].
      unfold daily_sections at 1 2. rewrite map_map. cbn [fst].
      split; [apply (sections_keys_sorted _ day_key (snd m))|].
      split; [apply (sections_keys_sorted _ day_key (snd m))|].
      apply Forall_forall. intros day Hd.
      pose proof (Hpd day Hd) as Hpk.
      destruct (Hday m day Hd) as [g [Hg [-> [Hk Hgs]]]].
      cbn [fst snd] in *.
      split; [destruct (strptime_Ymd (fst g)); [discriminate|discriminate Hpk]|].
      split.
      * apply in_map_iff in Hk. destruct Hk as [x [Hkx Hxin]].
        rewrite Hgs. intros Hnil. apply map_eq_nil in Hnil.
        assert (Hf : In x (filter (has_key day_key (fst g)) (snd m))).
        { apply filter_In. split; [exact Hxin|]. unfold has_key.
          rewrite Hkx. apply text_eqb_refl. }
        rewrite Hnil in Hf. destruct Hf.
      * apply Forall_forall. intros c Hc. apply in_map_iff in Hc.
        destruct Hc as [x [<- Hxg]]. rewrite Hgs in Hxg.
        apply filter_In in Hxg. destruct Hxg as [Hxm Hdk].
        rewrite Hsnd in Hxm. apply filter_In in Hxm.
        destruct Hxm as [Hxs Hmk].
        unfold has_key in Hdk, Hmk.
        apply text_eqb_eq in Hdk. apply text_eqb_eq in Hmk.
        exists (fst x). rewrite Forall_forall in Hp.
        split; [now apply Hp|]. split; assumption.
  - right. split; [reflexivity|]. split; [exact Hall|].
    apply forallb_false in Hok. destruct Hok as [month [Hmo Hbad]].
    destruct (Hmonth month Hmo) as [m [Hin [-> [Hkm Hsnd]]]].
    cbn [fst snd] in Hbad. apply andb_false_iff in Hbad.
    destruct Hbad as [Hbad|Hbad].
    + destruct (key_record month_key xs commits (fst m) Hm Hp Hkm)
        as [c [d [Hc [Hd [_ Hk]]]]].
      exists c, d. split; [exact Hc|]. split; [exact Hd|]. left.
      unfold month_key in Hk. cbn [fst] in Hk. rewrite Hk.
      destruct (strptime_Ym (fst m)); [discriminate Hbad | reflexivity].
    + apply forallb_false in Hbad. destruct Hbad as [day [Hd Hbadd]].
      destruct (Hday m day Hd) as [g [Hg [-> [Hk Hgs]]]].
      cbn [fst] in Hbadd.
      assert (Hk' : In (fst g) (map day_key xs)).
      { apply in_map_iff in Hk. destruct Hk as [x [Hkx Hxin]].
        rewrite Hsnd in Hxin. apply filter_In in Hxin.
        apply in_map_iff. exists x. split; [exact Hkx | apply Hxin]. }
      destruct (key_record day_key xs commits (fst g) Hm Hp Hk')
        as [c [d [Hc [Hdd [_ Hkd]]]]].
      exists c, d. split; [exact Hc|]. split; [exact Hdd|]. right.
      unfold day_key in Hkd. cbn [fst] in Hkd. rewrite Hkd.
      destruct (strptime_Ymd (fst g)); [discriminate Hbadd | reflexivity].
Qed.

(** X17.  For records whose timestamps are valid times of the years
    from 1000 on, the rendering goes through and grouping by month and
    by day moves nothing: the entries of a logbook appear in the order
    in which [generate_logbook] sorted the records. *)
Theorem logbook_lists_in_sorted_order (commits : list commit) :
  Forall (fun c => exists d,
                     parsed_date c = Some d
                     /\ Strptime.valid d = true /\ 1000 <= year d)
         commits ->
  exists sections,
    log_sections (sort_by_parsed_date commits) = inr sections
    /\ entries_of sections = sort_by_parsed_date commits.
Proof.
  intros Hall.
  set (sorted := sort_by_parsed_date commits).
  assert (Hperm : Permutation sorted commits) by apply sort_desc_perm.
  assert (Hall' : Forall (fun c => exists d,
                                     parsed_date c = Some d
                                     /\ Strptime.valid d = true /\ 1000 <= year d)
                         sorted).
  { eapply Permutation_Forall; [apply Permutation_sym, Hperm | exact Hall]. }
  assert (Hs : sorted_desc parsed_key sorted) by apply sort_desc_sorted.
  clearbody sorted. clear Hperm Hall commits.
  destruct (with_parsed_dates_all sorted) as [xs Hx].
  { eapply Forall_impl; [|exact Hall']. intros c [d [Hd _]]. congruence. }
  destruct (with_parsed_dates_some sorted xs Hx) as [Hm Hp].
  assert (Hv : Forall (fun x => Strptime.valid (fst x) = true
                               /\ 1000 <= year (fst x)) xs).
  { rewrite Forall_forall in *. intros x Hxin.
    destruct (Hall' (snd x)) as [d [Hd [Hvd Hyd]]].
    - rewrite <- Hm. now apply in_map.
    - rewrite (Hp x Hxin) in Hd. injection Hd as <-. now split. }
  assert (Hsx : sorted_desc (fun x => dt_fields (fst x)) xs).
  { clear Hx Hall' Hv. revert sorted Hm Hs. unfold sorted_desc.
    induction Hp as [|x xs Hpx Hp IH]; intros sorted Hm Hs; [constructor|].
    destruct sorted as [|c cs]; [discriminate Hm|].
    injection Hm as Hc Hcs. inversion Hs as [|? ? Hs' Hc']; subst.
    constructor; [now apply (IH (map snd xs))|].
    apply Forall_forall. intros y Hy. rewrite Forall_forall in Hc', Hp.
    specialize (Hc' (snd y) (in_map snd _ _ Hy)).
    unfold parsed_key in Hc'. now rewrite (Hp y Hy), Hpx in Hc'. }
  assert (Hkeys : forall xs',
             incl xs' xs -> sorted_desc (fun x => dt_fields (fst x)) xs' ->
             sorted_desc (fun x => codes (month_key x)) xs'
             /\ sorted_desc (fun x => codes (day_key x)) xs').
  { unfold sorted_desc. intros xs' Hincl Hs'.
    induction Hs' as [|x l Hl IH Hxl]; [split; constructor|].
    destruct IH as [IH1 IH2]; [intros y Hy; apply Hincl; now right|].
    rewrite Forall_forall in Hv.
    assert (Hb : forall y, In y l ->
               lex_le (codes (month_key y)) (codes (month_key x))
               /\ lex_le (codes (day_key y)) (codes (day_key x))).
    { intros y Hy. rewrite Forall_forall in Hxl.
      apply keys_follow_time.
      - apply Hv, Hincl. now right.
      - apply Hv, Hincl. now left.
      - apply Hv, Hincl. now right.
      - apply Hv, Hincl. now left.
      - now apply Hxl. }
    split; (constructor; [assumption|]); apply Forall_forall; intros y Hy;
      now apply Hb. }
  unfold log_sections. rewrite Hx.
  set (sections := map (fun month => (fst month, daily_sections (snd month)))
                       (grouped month_key xs)).
  assert (Hok : forallb (fun month =>
                           parses (strptime_Ym (fst month))
                           && forallb (fun day => parses (strptime_Ymd (fst day)))
                                      (snd month))
                        sections = true).
  { apply forallb_forall. intros month Hmo. subst sections.
    apply in_map_iff in Hmo. destruct Hmo as [m [<- Hin]]. cbn [fst snd].
    destruct (grouped_In _ month_key xs m Hin) as [Hkm Hsnd].
    rewrite Forall_forall in Hv. apply andb_true_intro. split.
    - apply in_map_iff in Hkm. destruct Hkm as [x [<- Hxin]].
      apply keys_parse; apply Hv, Hxin.
    - apply forallb_forall. intros day Hd. unfold daily_sections in Hd.
      apply in_map_iff in Hd. destruct Hd as [g [<- Hg]]. cbn [fst].
      destruct (grouped_In _ day_key (snd m) g Hg) as [Hk _].
      apply in_map_iff in Hk. destruct Hk as [x [<- Hxin]].
      rewrite Hsnd in Hxin. apply filter_In in Hxin.
      apply keys_parse; apply Hv, Hxin. }
  rewrite Hok. exists sections. split; [reflexivity|]. subst sections.
  rewrite entries_of_sections.
  rewrite (flat_map_eq_in _ _ _ (fun month => map snd (snd month))).
  - rewrite flat_map_map_snd, grouped_in_order; [exact Hm|].
    apply (Hkeys xs); [apply incl_refl | exact Hsx].
  - intros month Hmonth. f_equal.
    destruct (grouped_In _ month_key xs month Hmonth) as [_ Hsnd].
    apply grouped_in_order. rewrite Hsnd.
    apply (Hkeys (filter (has_key month_key (fst month)) xs)).
    + intros y Hy. now apply filter_In in Hy.
    + now apply sorted_filter.
Qed.

(** Three records of two months, two of them of one day. *)
Lemma logbook_lists_in_sorted_order_witness :
  let c1 := mkCommit (txt "app") (txt "Apps") Sample.sha (txt "Alice")
                     (txt "2024-01-05 10:00:00 +0000") (txt "Add parser") []
                     (Some (mkDatetime 2024 1 5 10 0 0 0)) in
  let c2 := mkCommit (txt "app") (txt "Apps") Sample.sha (txt "Bob")
                     (txt "2024-02-01 09:30:00 +0000") (txt "Fix sort") []
                     (Some (mkDatetime 2024 2 1 9 30 0 0)) in
  let c3 := mkCommit (txt "lib") (txt "Libs") Sample.sha (txt "Carol")
                     (txt "2024-01-05 18:45:00 +0000") (txt "Add index") []
                     (Some (mkDatetime 2024 1 5 18 45 0 0)) in
  exists sections,
    log_sections (sort_by_parsed_date [c1; c2; c3]) = inr sections
    /\ map fst sections = [txt "2024-02"; txt "2024-01"]
    /\ entries_of sections = [c2; c3; c1].
Proof.
  intros c1 c2 c3.
  destruct (logbook_lists_in_sorted_order [c1; c2; c3]) as [sections [H1 H2]].
  - constructor; [|constructor; [|constructor; [|constructor]]];
      eexists; (split; [reflexivity|]); (split; [reflexivity|]);
      apply Nat.leb_le; reflexivity.
  - exists sections. split; [exact H1|]. split; [|exact H2].
    vm_compute in H1. injection H1 as <-. reflexivity.
Defined.

Lemma dated_nth now commits : forall i j c,
  nth_error commits i = Some c ->
  In (set_parsed_date c (timestamp_of (now (j + i)) c)) (dated now j commits).
Proof.
  induction commits as [|c0 cs IH]; intros i j c H.
  - destruct i; discriminate H.
  - destruct i as [|i]; cbn [nth_error] in H; cbn [dated].
    + injection H as <-. left. now rewrite Nat.add_0_r.
    + right. replace (j + S i) with (S j + i) by lia. now apply IH.
Qed.

(** X19.  A record whose timestamp is of a year before 1000 stops the
    logbook: its month key, printed without padding, does not parse
    back, the renderer raises [ValueError] before anything is written,
    and [generate_logbook] raises it without any effect. *)
Theorem old_record_stops_logbook
  (commits : list commit) (base_name : text) (E : env) (w : world)
  (i : nat) (c : commit) :
  nth_error commits i = Some c ->
  year (timestamp_of (clock_now E w i) c) < 1000 ->
  generate_logbook commits base_name E w = (Raise (Exc ValueError), w).
Proof.
  intros Hi Hy.
  destruct commits as [|c0 cs]; [destruct i; discriminate Hi|].
  rewrite generate_logbook_cases.
  set (l := sort_by_parsed_date (dated (clock_now E w) 0 (c0 :: cs))).
  set (c' := set_parsed_date c (timestamp_of (clock_now E w i) c)).
  assert (Hin : In c' l).
  { apply (Permutation_in _ (Permutation_sym (sort_desc_perm _ _ _))).
    exact (dated_nth (clock_now E w) (c0 :: cs) i 0 c Hi). }
  assert (Hall : Forall (fun c => parsed_date c <> None) l).
  { apply (Permutation_Forall (Permutation_sym (sort_desc_perm _ _ _))).
    eapply Forall_impl; [|apply dated_timestamps].
    intros a [k Hk]. rewrite Hk. discriminate. }
  rewrite (old_record_no_sections l c' _ Hin eq_refl Hy).
  destruct (with_parsed_dates_all l Hall) as [xs ->]. reflexivity.
Qed.

Lemma old_record_stops_logbook_witness :
  generate_logbook [Sample.tricky; Sample.old_commit] (txt "commit_log")
                   Sample.calm_env (initial [])
  = (Raise (Exc ValueError), initial []).
Proof.
  apply (old_record_stops_logbook [Sample.tricky; Sample.old_commit]
           (txt "commit_log") Sample.calm_env (initial []) 1 Sample.old_commit
           eq_refl).
  vm_compute. lia.
Defined.

(** * A remote repository is handled inside its workspace *)

Module ConfinedFacts.
Import Path.

Lemma startswith_sep_no_sep p : ~ In SEP p -> startswith_sep p = false.
Proof.
  destruct p as [|c p]; [reflexivity|]. intros H. cbn [startswith_sep].
  apply Ascii.eqb_neq. intros ->. apply H. now left.
Qed.

(** Joining one component that is not [..] to a directory that is not
    empty and does not end with the separator names something in it. *)
Lemma join_inside d name :
  truthy d = true -> endswith_sep d = false -> ~ In SEP name ->
  name <> txt ".." ->
  inside d (join d name).
Proof.
  intros Ht He Hn Hdots. unfold join. rewrite (startswith_sep_no_sep name Hn).
  rewrite Ht, He. cbn [negb orb]. right. exists name.
  split; [reflexivity|]. rewrite (ExtractorFacts.split_no_sep SEP name Hn).
  intros [H|[]]. now apply Hdots.
Qed.

Lemma ends_with_no_sep a s :
  s <> [] -> ~ In SEP s ->
  truthy (a ++ s) = true /\ endswith_sep (a ++ s) = false.
Proof.
  intros Hne Hn. destruct (exists_last Hne) as [s' [c ->]].
  split.
  - destruct a; [destruct s'|]; reflexivity.
  - unfold endswith_sep. rewrite app_assoc, rev_app_distr. cbn [rev app].
    cbn [startswith_sep]. apply Ascii.eqb_neq. intros ->.
    apply Hn. apply in_or_app. right. now left.
Qed.

Lemma digits_no_sep u :
  ~ In SEP (list_ascii_of_string (NilEmpty.string_of_uint u)).
Proof.
  induction u; cbn [NilEmpty.string_of_uint list_ascii_of_string];
    [intros [] | ..];
    (intros [H|H]; [cbv in H; discriminate H | exact (IHu H)]).
Qed.

Lemma dec_no_sep n : ~ In SEP (dec n).
Proof. apply digits_no_sep. Qed.

(** The names [_temp_directory] can choose are not empty and do not
    end with the separator. *)
Lemma candidate_ends cwd n k :
  let d := candidate (join cwd (txt "temp_git_clone_" ++ dec n)) k in
  truthy d = true /\ endswith_sep d = false.
Proof.
  assert (Ho : exists a, join cwd (txt "temp_git_clone_" ++ dec n)
                         = a ++ txt "temp_git_clone_" ++ dec n).
  { unfold join. cbn [txt list_ascii_of_string app startswith_sep].
    change (Ascii.eqb "t" SEP) with false. cbv iota.
    destruct (negb (truthy cwd) || endswith_sep cwd).
    - exists cwd. reflexivity.
    - exists (cwd ++ [SEP]). now rewrite <- app_assoc. }
  destruct Ho as [a Ha]. intros d. subst d. rewrite Ha.
  destruct k as [|k]; cbn [candidate].
  - apply ends_with_no_sep.
    + unfold txt. cbn [list_ascii_of_string app]. intros H. discriminate H.
    + intros H. apply in_app_or in H. destruct H as [H|H].
      * cbn in H.
        repeat (destruct H as [H|H]; [cbv in H; discriminate H|]). exact H.
      * exact (dec_no_sep n H).
  - apply (ends_with_no_sep (a ++ txt "temp_git_clone_" ++ dec n)
             (txt "_" ++ dec (N.of_nat (S k)))).
    + unfold txt. cbn [list_ascii_of_string app]. intros H. discriminate H.
    + intros H. apply in_app_or in H. destruct H as [H|H].
      * cbn in H. destruct H as [H|H]; [cbv in H; discriminate H | exact H].
      * exact (dec_no_sep _ H).
Qed.

End ConfinedFacts.

Lemma confined_get_commit_history d p n pr f :
  inside d p ->
  emits (confined d) (_get_commit_history p n pr f).
Proof.
  intros Hu. unfold _get_commit_history. apply EffFacts.emits_try_except.
  - apply EffFacts.emits_bind.
    + apply EffFacts.emits_subprocess_run. exists p. split; [exact Hu | now left].
    + intros [[rc out] err]. destruct (negb (rc =? 0)%Z);
        (apply EffFacts.emits_bind;
         [apply EffFacts.emits_log; exact I | intros; apply EffFacts.emits_ret]).
  - intros e k Hk. destruct (is_TimeoutExpired e); injection Hk as <-;
      (apply EffFacts.emits_bind;
       [apply EffFacts.emits_log; exact I | intros; apply EffFacts.emits_ret]).
Qed.

Lemma confined_clone_and_extract d url n pr f :
  inside d (Path.join d n) ->
  emits (confined d) (clone_and_extract url n pr f d).
Proof.
  intros Hu. unfold clone_and_extract. apply EffFacts.emits_try_except.
  - apply EffFacts.emits_bind.
    + apply EffFacts.emits_subprocess_run. exists (Path.join d n).
      split; [exact Hu | right; now split].
    + intros [[rc out] err]. destruct (negb (rc =? 0)%Z).
      * apply EffFacts.emits_bind;
          [apply EffFacts.emits_log; exact I | intros; apply EffFacts.emits_ret].
      * apply EffFacts.emits_bind.
        -- apply EffFacts.emits_subprocess_run. exists (Path.join d n).
           split; [exact Hu | now left].
        -- intros _. apply EffFacts.emits_bind;
             [apply EffFacts.emits_log; exact I|].
           intros _. now apply confined_get_commit_history.
  - intros e k Hk. injection Hk as <-.
    apply EffFacts.emits_bind;
      [apply EffFacts.emits_log; exact I | intros; apply EffFacts.emits_ret].
Qed.

Lemma confined_cleanup_directory d : emits (confined d) (_cleanup_directory d).
Proof.
  unfold _cleanup_directory. apply EffFacts.emits_try_except.
  - apply EffFacts.emits_bind; [apply EffFacts.emits_get_world|].
    intros w. destruct (path_exists (fs w) d); [|apply EffFacts.emits_ret].
    apply EffFacts.emits_bind.
    + apply EffFacts.emits_rmtree. reflexivity.
    + intros _. apply EffFacts.emits_log. exact I.
  - intros e k Hk. destruct (is_PermissionError e); injection Hk as <-.
    + apply EffFacts.emits_try_except.
      * apply EffFacts.emits_bind.
        -- apply EffFacts.emits_subprocess_run. exists d.
           split; [now left | right; now split].
        -- intros _. apply EffFacts.emits_log. exact I.
      * intros e' k' Hk'. injection Hk' as <-.
        apply EffFacts.emits_log. exact I.
    + apply EffFacts.emits_log. exact I.
Qed.

(** X18.  A repository given on the command line that is not a local
    path, and whose last component is not [..], is handled inside its
    workspace: the only directory created or deleted is the workspace,
    every process either runs in the clone directory below it or (the
    clone itself, the forced deletion) is given the workspace or a path
    below it as last argument, and no file is written.  The workspace
    is the name chosen at the time the task has logged that it
    starts. *)
Theorem remote_repository_is_confined
  (url : text) (f : filters) (E : env) (w : world) :
  let repo_info := RepoInfo.mk (Some (Path.basename url)) (Some url) None in
  let w0 := add_events w [EvLog LInfo (MsgProcessing (Path.basename url))] in
  let d := fresh_dir (fs w)
             (Path.join (getcwd E) (txt "temp_git_clone_" ++ dec (time_ms E w0))) in
  truthy url = true ->
  path_exists (fs w) url = false ->
  Path.basename url <> txt ".." ->
  Forall (confined d) (new_events w (snd (_process_repository repo_info f E w))).
Proof.
  intros repo_info w0 d Ht Hex Hdots.
  assert (Hd : truthy d = true /\ Path.endswith_sep d = false).
  { subst d.
    destruct (fresh_dir_first (fs w)
                (Path.join (getcwd E)
                   (txt "temp_git_clone_" ++ dec (time_ms E w0))))
      as [k [-> _]].
    apply ConfinedFacts.candidate_ends. }
  destruct Hd as [Hd1 Hd2].
  pose proof (ConfinedFacts.join_inside d (Path.basename url) Hd1 Hd2
                (PathFacts.basename_no_sep url) Hdots) as Hu.
  unfold _process_repository. subst repo_info.
  cbn [RepoInfo.name RepoInfo.url RepoInfo.project get_or].
  rewrite Ht. cbn [negb]. unfold bind at 1, log at 1, emit.
  fold (add_events w [EvLog LInfo (MsgProcessing (Path.basename url))]).
  fold w0.
  unfold bind at 1, get_world.
  change (fs w0) with (fs w). rewrite Hex.
  rewrite temp_directory_run. change (fs w0) with (fs w). fold d.
  destruct (makedirs_error E w0 d) as [e|].
  - subst w0. unfold add_events. cbn [snd trace]. rewrite <- app_assoc.
    rewrite new_events_app. repeat constructor.
  - subst w0. unfold add_events. cbn [fs temp_dirs trace].
    match goal with
    | |- context [finally ?m ?c E ?w1] =>
        destruct (EffFacts.emits_finally _ (confined d) m c
                    (confined_clone_and_extract d url _ _ f Hu)
                    (confined_cleanup_directory d) E w1) as [evs [Htr Hf]];
        destruct (finally m c E w1) as [r w2]
    end.
    cbn [snd trace] in *. unfold new_events. rewrite Htr.
    rewrite <- !app_assoc. rewrite skipn_exact. cbn [app].
    repeat (constructor; [first [exact I | reflexivity]|]). exact Hf.
Qed.

(** [--repos https://example.org/lib.git] *)
Lemma remote_repository_is_confined_witness :
  Forall (confined Sample.workspace)
         (trace (snd (_process_repository
                        (RepoInfo.mk (Some (txt "lib.git"))
                                     (Some (txt "https://example.org/lib.git"))
                                     None)
                        Sample.no_filters Sample.calm_env (initial [])))).
Proof.
  exact (remote_repository_is_confined (txt "https://example.org/lib.git")
           Sample.no_filters Sample.calm_env (initial []) eq_refl eq_refl
           ltac:(discriminate)).
Defined.
